(** * Software transactional memory engines of the Financial-Systems repository

    A shallow embedding of the four engines of the repository:

    - [STM]       : [STM.cpp], class [TransactionalMemorySystem]
                    (per-cell modification counters, three attempts);
    - [Advanced]  : [advanced.cpp], class [AdvancedTransactionalMemorySystem]
                    (per-cell versions, retry until commit);
    - [Hybrid]    : [HTMvsSTM.cpp], class [HybridTransactionalMemorySystem]
                    (simulated hardware path on the first attempt, ten attempts);
    - [Financial] : [Financial_transactions.cpp], class
                    [FinancialTransactionSystem] (version lists, global commit
                    clock, priority queue of transaction descriptors).

    Every member function is a function on explicit state.  A
    [std::map<unsigned, T>] is a [gmap N T], iterated in ascending key order
    ([entries]); an [unsigned] counter is an [N] whose increment wraps at
    [2^32]; a thrown exception is the [Throws] case of [Result].  The
    transactional closures are values of [Logic]; what the other threads do to
    the shared store between two steps of a thread is an explicit schedule of
    their commits and initialisations. *)

From stdpp Require Import gmap strings list fin_maps sorting pretty.
From Stdlib Require Import ZArith QArith.

Open Scope N_scope.

(** ** Exceptions and results *)

(** The exceptions the engines throw, all derived from [std::exception]. *)
Inductive exception : Type :=
| out_of_range (what : string)
| runtime_error (what : string).

Inductive Result (A : Type) : Type :=
| Returns (a : A)
| Throws (e : exception).
Arguments Returns {A} a.
Arguments Throws {A} e.

(** [e.what()]. *)
Definition what (e : exception) : string :=
  match e with
  | out_of_range w => w
  | runtime_error w => w
  end.

(** ** Unsigned counters *)

(** [++c] on an [unsigned] or [std::atomic<unsigned>]. *)
Definition incr (c : N) : N := (c + 1) mod 2 ^ 32.

(** [++] and [--] on a [std::atomic<int>]: the arithmetic of atomics is two's
    complement and wraps into the range of [int]. *)
Definition wrap_int (z : Z) : Z := ((z + 2 ^ 31) mod 2 ^ 32 - 2 ^ 31)%Z.

(** ** Iteration over a [std::map] *)

Definition key_le {V : Type} (x y : N * V) : Prop := x.1 ≤ y.1.

#[global] Instance key_le_dec {V : Type} (x y : N * V) : Decision (key_le x y).
Proof. unfold key_le. apply _. Defined.

(** [for (const auto& entry : m)]: the entries in ascending key order. *)
Definition entries {V : Type} (m : gmap N V) : list (N * V) :=
  merge_sort key_le (map_to_list m).

(** ** [std::lower_bound] *)

(** The binary search of [std::lower_bound(first, last, value, comp)] on a
    random-access range: [l] is the range, [first] and [len] the current
    window, [below x] is [comp(x, value)]. *)
Fixpoint lower_bound_loop {A : Type} (below : A → bool) (l : list A)
    (fuel first len : nat) : nat :=
  match fuel with
  | O => first
  | S fuel' =>
      match len with
      | O => first
      | S _ =>
          let half := (len / 2)%nat in
          let middle := (first + half)%nat in
          match l !! middle with
          | Some x =>
              if below x
              then lower_bound_loop below l fuel' (S middle) (len - half - 1)%nat
              else lower_bound_loop below l fuel' first half
          | None => first
          end
      end
  end.

(** The index of the returned iterator; [length l] stands for [last]. *)
Definition lower_bound {A : Type} (below : A → bool) (l : list A) : nat :=
  lower_bound_loop below l (length l) 0 (length l).

(** The common shape of one iteration of the publishing loops: the entry's
    key receives a value computed from what the map holds for it. *)
Definition upsert {V C : Type} (upd : option C → V → C) (m : gmap N C)
    (e : N * V) : gmap N C :=
  <[e.1 := upd (m !! e.1) e.2]> m.

(** The operations of the other threads of the first [n] slots of a schedule,
    in order. *)
Definition elapsed {St Op : Type} (perform : St → Op → St) (s : St)
    (sched : list (list Op)) (n : nat) : St :=
  foldl (foldl perform) s (take n sched).

(** ** Transactional closures *)

(** A [std::function<void(Transaction&)>]: the closure calls the read and
    write members of the transaction it is given, may throw, and returns
    nothing.  An exception thrown by a read leaves the closure (no closure of
    the repository catches). *)
Inductive Logic (V : Type) : Type :=
| Return
| Raise (e : exception)
| Read (location : N) (k : V → Logic V)
| Write (location : N) (value : V) (k : Logic V).
Arguments Return {V}.
Arguments Raise {V} e.
Arguments Read {V} location k.
Arguments Write {V} location value k.

(** How one invocation of a closure, with the commit that follows it, ended. *)
Inductive Attempt : Type :=
| Committed
| Conflict
| Threw (e : exception).

(** * The basic engine: [STM.cpp] *)

Module STM.

(** [struct DataCell]; the [cellLock] member is only ever held. *)
Record DataCell : Type := { content : Z; modificationCount : N }.

(** [DataCell(int initial)]. *)
Definition initial_cell (initial : Z) : DataCell :=
  {| content := initial; modificationCount := 0 |}.

(** [std::map<unsigned, DataCell> dataStore], the only state of the system
    besides its lock. *)
Abbreviation dataStore := (gmap N DataCell).

(** [class MemoryTransaction]: [readLog] and [writeBuffer]. *)
Record MemoryTransaction : Type :=
  { readLog : gmap N N; writeBuffer : gmap N Z }.

(** [MemoryTransaction(TransactionalMemorySystem& system)]. *)
Definition new_transaction : MemoryTransaction :=
  {| readLog := ∅; writeBuffer := ∅ |}.

(** [int fetch(unsigned location)]. *)
Definition fetch (ds : dataStore) (tx : MemoryTransaction) (location : N)
    : Result Z * MemoryTransaction :=
  match writeBuffer tx !! location with
  | Some buffered => (Returns buffered, tx)
  | None =>
      match ds !! location with
      | None => (Throws (out_of_range "Memory location not initialized"), tx)
      | Some cell =>
          let value := content cell in
          let currentMod := modificationCount cell in
          (Returns value,
           {| readLog := <[location := currentMod]> (readLog tx);
              writeBuffer := writeBuffer tx |})
      end
  end.

(** [void store(unsigned location, int value)]. *)
Definition store (tx : MemoryTransaction) (location : N) (value : Z)
    : MemoryTransaction :=
  {| readLog := readLog tx;
     writeBuffer := <[location := value]> (writeBuffer tx) |}.

(** The first loop of [finalizeTransaction]: [false] as soon as an entry of
    the read log no longer matches the store. *)
Fixpoint validate (ds : dataStore) (log : list (N * N)) : bool :=
  match log with
  | [] => true
  | (loc, modCount) :: log' =>
      match ds !! loc with
      | None => false
      | Some cell =>
          if decide (modificationCount cell ≠ modCount) then false
          else validate ds log'
      end
  end.

(** The cell that publishing [newValue] leaves at a location that held
    [old]. *)
Definition written (old : option DataCell) (newValue : Z) : DataCell :=
  match old with
  | None => initial_cell newValue
  | Some cell =>
      {| content := newValue;
         modificationCount := incr (modificationCount cell) |}
  end.

(** One iteration of the second loop of [finalizeTransaction]. *)
Definition publish (ds : dataStore) (entry : N * Z) : dataStore :=
  let '(loc, newValue) := entry in
  match ds !! loc with
  | None => <[loc := initial_cell newValue]> ds
  | Some cell =>
      <[loc := {| content := newValue;
                  modificationCount := incr (modificationCount cell) |}]> ds
  end.

(** [bool finalizeTransaction()], under the global lock. *)
Definition finalizeTransaction (tx : MemoryTransaction) (ds : dataStore)
    : bool * dataStore :=
  if validate ds (entries (readLog tx))
  then (true, foldl publish ds (entries (writeBuffer tx)))
  else (false, ds).

(** [void initializeMemory(unsigned location, int value)]: [std::map::emplace]
    inserts only when the key is absent.  The function returns nothing and
    throws nothing. *)
Definition initializeMemory (location : N) (value : Z) (ds : dataStore)
    : Result unit * dataStore :=
  match ds !! location with
  | Some _ => (Returns tt, ds)
  | None => (Returns tt, <[location := initial_cell value]> ds)
  end.

(** The calls by which a thread changes the store; between two steps of one
    thread the other threads perform any number of them. *)
Inductive Operation : Type :=
| Initialize (location : N) (value : Z)
| Finalize (tx : MemoryTransaction).

Definition perform (ds : dataStore) (op : Operation) : dataStore :=
  match op with
  | Initialize location value => (initializeMemory location value ds).2
  | Finalize tx => (finalizeTransaction tx ds).2
  end.

(** A schedule gives, for each access of this thread to the store, what the
    other threads did just before it; an exhausted schedule means no further
    interference. *)
Abbreviation Schedule := (list (list Operation)).

Definition interfered (ds : dataStore) (sched : Schedule) : dataStore :=
  foldl perform ds (hd [] sched).

(** [transactionLogic(transaction)]. *)
Fixpoint run (logic : Logic Z) (tx : MemoryTransaction) (ds : dataStore)
    (sched : Schedule)
    : Result unit * MemoryTransaction * dataStore * Schedule :=
  match logic with
  | Return => (Returns tt, tx, ds, sched)
  | Raise e => (Throws e, tx, ds, sched)
  | Read location k =>
      let ds' := interfered ds sched in
      match fetch ds' tx location with
      | (Returns value, tx') => run (k value) tx' ds' (tl sched)
      | (Throws e, tx') => (Throws e, tx', ds', tl sched)
      end
  | Write location value k => run k (store tx location value) ds sched
  end.

(** The body of the retry loop up to the test of the commit: a new
    transaction, the closure, and [finalizeTransaction] when the closure
    returns. *)
Definition attempt (logic : Logic Z) (ds : dataStore) (sched : Schedule)
    : Attempt * dataStore * Schedule :=
  match run logic new_transaction ds sched with
  | (Throws e, _, ds1, sched1) => (Threw e, ds1, sched1)
  | (Returns _, transaction, ds1, sched1) =>
      match finalizeTransaction transaction (interfered ds1 sched1) with
      | (true, ds2) => (Committed, ds2, tl sched1)
      | (false, ds2) => (Conflict, ds2, tl sched1)
      end
  end.

(** What a call of [executeTransaction] leaves behind: how it ended, the
    store, the unused schedule, and how each invocation of the closure ended,
    oldest first. *)
Record Execution : Type :=
  { result : Result unit;
    final : dataStore;
    unused : Schedule;
    attempts : list Attempt }.

(** The exception thrown after the loop. *)
Definition retry_exceeded : exception :=
  runtime_error "Transaction failed after multiple attempts".

(** The [for] loop of [executeTransaction], with [remaining = 3 - attempts];
    [past] records the invocations so far. *)
Fixpoint attempts_loop (remaining : nat) (logic : Logic Z) (ds : dataStore)
    (sched : Schedule) (past : list Attempt) : Execution :=
  match remaining with
  | O =>
      {| result := Throws retry_exceeded;
         final := ds; unused := sched; attempts := past |}
  | S remaining' =>
      match attempt logic ds sched with
      | (Threw e, ds1, sched1) =>
          {| result := Throws e; final := ds1; unused := sched1;
             attempts := past ++ [Threw e] |}
      | (Committed, ds1, sched1) =>
          {| result := Returns tt; final := ds1; unused := sched1;
             attempts := past ++ [Committed] |}
      | (Conflict, ds1, sched1) =>
          attempts_loop remaining' logic ds1 sched1 (past ++ [Conflict])
      end
  end.

(** [void executeTransaction(const std::function<void(MemoryTransaction&)>&)]. *)
Definition executeTransaction (logic : Logic Z) (ds : dataStore)
    (sched : Schedule) : Execution :=
  attempts_loop 3 logic ds sched [].

(** The closure of [main]: increment the cells 100 and 200. *)
Definition incrementOperation : Logic Z :=
  Read 100 (λ val1, Read 200 (λ val2,
    Write 100 (val1 + 1)%Z (Write 200 (val2 + 1)%Z Return))).

End STM.

(** * The scheduled engine: [advanced.cpp] *)

Module Advanced.

(** [struct DataCell]. *)
Record DataCell : Type := { content : Z; version : N }.

(** [DataCell(int initial)]. *)
Definition initial_cell (initial : Z) : DataCell :=
  {| content := initial; version := 0 |}.

Abbreviation dataStore := (gmap N DataCell).

(** [class Transaction]: [readSet], [writeSet] and [isSpeculative]. *)
Record Transaction : Type :=
  { readSet : gmap N (Z * N);
    writeSet : gmap N Z;
    isSpeculative : bool }.

(** [Transaction(AdvancedTransactionalMemorySystem& system, bool speculative)]. *)
Definition new_transaction (speculative : bool) : Transaction :=
  {| readSet := ∅; writeSet := ∅; isSpeculative := speculative |}.

(** [int read(unsigned location)]. *)
Definition read (ds : dataStore) (tx : Transaction) (location : N)
    : Result Z * Transaction :=
  match writeSet tx !! location with
  | Some buffered => (Returns buffered, tx)
  | None =>
      match ds !! location with
      | None => (Throws (out_of_range "Memory location not initialized"), tx)
      | Some cell =>
          let value := content cell in
          let version := version cell in
          (Returns value,
           {| readSet := <[location := (value, version)]> (readSet tx);
              writeSet := writeSet tx;
              isSpeculative := isSpeculative tx |})
      end
  end.

(** [void write(unsigned location, int value)]. *)
Definition write (tx : Transaction) (location : N) (value : Z) : Transaction :=
  {| readSet := readSet tx;
     writeSet := <[location := value]> (writeSet tx);
     isSpeculative := isSpeculative tx |}.

(** The first loop of [commit]. *)
Fixpoint validate (ds : dataStore) (rs : list (N * (Z * N))) : bool :=
  match rs with
  | [] => true
  | (loc, (_, readVersion)) :: rs' =>
      match ds !! loc with
      | None => false
      | Some cell =>
          if decide (version cell ≠ readVersion) then false
          else validate ds rs'
      end
  end.

(** The cell that publishing [newValue] leaves at a location that held
    [old]. *)
Definition written (old : option DataCell) (newValue : Z) : DataCell :=
  match old with
  | None => initial_cell newValue
  | Some cell => {| content := newValue; version := incr (version cell) |}
  end.

(** One iteration of the second loop of [commit]. *)
Definition publish (ds : dataStore) (entry : N * Z) : dataStore :=
  let '(loc, newValue) := entry in
  match ds !! loc with
  | None => <[loc := initial_cell newValue]> ds
  | Some cell =>
      <[loc := {| content := newValue; version := incr (version cell) |}]> ds
  end.

(** [bool commit()], under the global lock. *)
Definition commit (tx : Transaction) (ds : dataStore) : bool * dataStore :=
  if validate ds (entries (readSet tx))
  then (true, foldl publish ds (entries (writeSet tx)))
  else (false, ds).

(** [void initializeMemory(unsigned location, int value)]. *)
Definition initializeMemory (location : N) (value : Z) (ds : dataStore)
    : Result unit * dataStore :=
  match ds !! location with
  | Some _ => (Returns tt, ds)
  | None => (Returns tt, <[location := initial_cell value]> ds)
  end.

(** The calls by which a thread changes the store, and the schedule of the
    other threads, as for the basic engine. *)
Inductive Operation : Type :=
| Initialize (location : N) (value : Z)
| Commit (tx : Transaction).

Definition perform (ds : dataStore) (op : Operation) : dataStore :=
  match op with
  | Initialize location value => (initializeMemory location value ds).2
  | Commit tx => (commit tx ds).2
  end.

Abbreviation Schedule := (list (list Operation)).

Definition interfered (ds : dataStore) (sched : Schedule) : dataStore :=
  foldl perform ds (hd [] sched).

(** [transactionLogic(tx)]. *)
Fixpoint run (logic : Logic Z) (tx : Transaction) (ds : dataStore)
    (sched : Schedule) : Result unit * Transaction * dataStore * Schedule :=
  match logic with
  | Return => (Returns tt, tx, ds, sched)
  | Raise e => (Throws e, tx, ds, sched)
  | Read location k =>
      let ds' := interfered ds sched in
      match read ds' tx location with
      | (Returns value, tx') => run (k value) tx' ds' (tl sched)
      | (Throws e, tx') => (Throws e, tx', ds', tl sched)
      end
  | Write location value k => run k (write tx location value) ds sched
  end.

(** The body of the retry loop: a new transaction, the closure, and
    [commit] when the closure returns. *)
Definition attempt (speculative : bool) (logic : Logic Z) (ds : dataStore)
    (sched : Schedule) : Attempt * dataStore * Schedule :=
  match run logic (new_transaction speculative) ds sched with
  | (Throws e, _, ds1, sched1) => (Threw e, ds1, sched1)
  | (Returns _, tx, ds1, sched1) =>
      match commit tx (interfered ds1 sched1) with
      | (true, ds2) => (Committed, ds2, tl sched1)
      | (false, ds2) => (Conflict, ds2, tl sched1)
      end
  end.

Record Execution : Type :=
  { result : Result unit;
    final : dataStore;
    unused : Schedule;
    attempts : list Attempt }.

(** The task that [executeTransaction] queues: [while (!success)] has no
    bound, so the loop is run for at most [fuel] iterations and [None] says
    that it is still running after them. *)
Fixpoint transaction_task (fuel : nat) (logic : Logic Z) (ds : dataStore)
    (sched : Schedule) (past : list Attempt) : option Execution :=
  match fuel with
  | O => None
  | S fuel' =>
      match attempt false logic ds sched with
      | (Threw e, ds1, sched1) =>
          Some {| result := Throws e; final := ds1; unused := sched1;
                  attempts := past ++ [Threw e] |}
      | (Committed, ds1, sched1) =>
          Some {| result := Returns tt; final := ds1; unused := sched1;
                  attempts := past ++ [Committed] |}
      | (Conflict, ds1, sched1) =>
          transaction_task fuel' logic ds1 sched1 (past ++ [Conflict])
      end
  end.

(** The closure of [main]: increment the cells 100 and 200. *)
Definition incrementOperation : Logic Z :=
  Read 100 (λ val1, Read 200 (λ val2,
    Write 100 (val1 + 1)%Z (Write 200 (val2 + 1)%Z Return))).

(** A transaction of another thread that overwrites the cell 100, and the
    schedule on which it commits between the reads of [incrementOperation]
    and its commit, [n] times in a row. *)
Definition overwrite : Transaction :=
  {| readSet := ∅; writeSet := {[ 100 := 0%Z ]}; isSpeculative := false |}.

Fixpoint adversary (n : nat) : Schedule :=
  match n with
  | O => []
  | S n' => [] :: [] :: [Commit overwrite] :: adversary n'
  end.

(** ** Closures that ask for the flag *)

(** [bool isSpeculativeExecution() const]. *)
Definition isSpeculativeExecution (tx : Transaction) : bool := isSpeculative tx.

(** A closure that, besides reading, writing and throwing, may call the
    public accessor [isSpeculativeExecution()] of the transaction it is
    given. *)
Inductive Closure : Type :=
| CReturn
| CRaise (e : exception)
| CRead (location : N) (k : Z → Closure)
| CWrite (location : N) (value : Z) (k : Closure)
| CIsSpeculative (k : bool → Closure).

(** [transactionLogic(tx)] for such a closure. *)
Fixpoint run_closure (c : Closure) (tx : Transaction) (ds : dataStore)
    (sched : Schedule) : Result unit * Transaction * dataStore * Schedule :=
  match c with
  | CReturn => (Returns tt, tx, ds, sched)
  | CRaise e => (Throws e, tx, ds, sched)
  | CRead location k =>
      let ds' := interfered ds sched in
      match read ds' tx location with
      | (Returns value, tx') => run_closure (k value) tx' ds' (tl sched)
      | (Throws e, tx') => (Throws e, tx', ds', tl sched)
      end
  | CWrite location value k => run_closure k (write tx location value) ds sched
  | CIsSpeculative k => run_closure (k (isSpeculativeExecution tx)) tx ds sched
  end.

(** The body of the retry loop, and of the speculative task, for such a
    closure. *)
Definition attempt_closure (speculative : bool) (c : Closure) (ds : dataStore)
    (sched : Schedule) : Attempt * dataStore * Schedule :=
  match run_closure c (new_transaction speculative) ds sched with
  | (Throws e, _, ds1, sched1) => (Threw e, ds1, sched1)
  | (Returns _, tx, ds1, sched1) =>
      match commit tx (interfered ds1 sched1) with
      | (true, ds2) => (Committed, ds2, tl sched1)
      | (false, ds2) => (Conflict, ds2, tl sched1)
      end
  end.

(** The closure that [c] is when every call of the accessor answers
    [flag], and a closure that does not call the accessor. *)
Fixpoint answered (flag : bool) (c : Closure) : Logic Z :=
  match c with
  | CReturn => Return
  | CRaise e => Raise e
  | CRead location k => Read location (λ value, answered flag (k value))
  | CWrite location value k => Write location value (answered flag k)
  | CIsSpeculative k => answered flag (k flag)
  end.

Fixpoint plain (logic : Logic Z) : Closure :=
  match logic with
  | Return => CReturn
  | Raise e => CRaise e
  | Read location k => CRead location (λ value, plain (k value))
  | Write location value k => CWrite location value (plain k)
  end.

(** A closure that throws on a speculative transaction and returns on an
    ordinary one. *)
Definition refuses_speculation : Closure :=
  CIsSpeculative (λ speculative,
    if speculative then CRaise (runtime_error "speculative") else CReturn).

(** ** The task queue and the speculative path *)

(** The closures that [executeTransaction] and
    [executeSpeculativeTransaction] push on [taskQueue]. *)
Inductive Task : Type :=
| TransactionTask (transactionLogic : Logic Z)
| SpeculativeTask (transactionLogic : Logic Z).

(** [void executeTransaction(transactionLogic)]: [taskQueue.push(task)]. *)
Definition executeTransaction (transactionLogic : Logic Z)
    (taskQueue : list Task) : list Task :=
  taskQueue ++ [TransactionTask transactionLogic].

(** [void executeSpeculativeTransaction(transactionLogic)]. *)
Definition executeSpeculativeTransaction (transactionLogic : Logic Z)
    (taskQueue : list Task) : list Task :=
  taskQueue ++ [SpeculativeTask transactionLogic].

(** What a task leaves behind: how it ended (an exception of the closure
    leaves the task), the store, the queue, and the unused schedule. *)
Record Ran : Type :=
  { ended : Result unit;
    store_after : dataStore;
    queue_after : list Task;
    schedule_after : Schedule;
    invocations : list Attempt }.

(** [task()]: the body of the queued closure; [None] when the loop of a
    transaction task is still running after [fuel] iterations.  The
    speculative task runs the closure once on a speculative transaction and,
    when the commit fails, calls [executeTransaction]. *)
Definition run_task (fuel : nat) (task : Task) (ds : dataStore)
    (taskQueue : list Task) (sched : Schedule) : option Ran :=
  match task with
  | TransactionTask transactionLogic =>
      match transaction_task fuel transactionLogic ds sched [] with
      | None => None
      | Some ex =>
          Some {| ended := result ex; store_after := final ex;
                  queue_after := taskQueue; schedule_after := unused ex;
                  invocations := attempts ex |}
      end
  | SpeculativeTask transactionLogic =>
      match attempt true transactionLogic ds sched with
      | (Committed, ds1, sched1) =>
          Some {| ended := Returns tt; store_after := ds1;
                  queue_after := taskQueue; schedule_after := sched1;
                  invocations := [Committed] |}
      | (Conflict, ds1, sched1) =>
          Some {| ended := Returns tt; store_after := ds1;
                  queue_after := executeTransaction transactionLogic taskQueue;
                  schedule_after := sched1; invocations := [Conflict] |}
      | (Threw e, ds1, sched1) =>
          Some {| ended := Throws e; store_after := ds1;
                  queue_after := taskQueue; schedule_after := sched1;
                  invocations := [Threw e] |}
      end
  end.

(** One iteration of the loop of [workerFunction]: [None] when the worker
    returns (shutdown), keeps waiting (empty queue) or is still in the task
    after [fuel] iterations; else the task at the front is taken and run. *)
Definition workerFunction (fuel : nat) (shutdownFlag : bool)
    (taskQueue : list Task) (ds : dataStore) (sched : Schedule) : option Ran :=
  if shutdownFlag then None
  else
    match taskQueue with
    | [] => None
    | task :: rest => run_task fuel task ds rest sched
    end.

(** ** Conflict tracking *)

(** [std::set_intersection] on two ranges, written to a vector. *)
Fixpoint set_intersection (l1 : list N) : list N → list N :=
  fix against (l2 : list N) : list N :=
    match l1, l2 with
    | [], _ => []
    | _, [] => []
    | x :: l1', y :: l2' =>
        if decide (x < y) then set_intersection l1' l2
        else if decide (y < x) then against l2'
        else x :: set_intersection l1' l2'
    end.

(** [void updateConflictInfo(accessedLocations)]; [self] is
    [std::this_thread::get_id()], and [threadAccessSet] maps the identifier
    of a thread to its vector. *)
Definition updateConflictInfo (self : N) (accessedLocations : list N)
    (threadAccessSet : gmap N (list N)) : gmap N (list N) :=
  <[self := accessedLocations]> threadAccessSet.

(** The loop of [hasConflict]. *)
Fixpoint conflict_among (self : N) (locations : list N)
    (others : list (N * list N)) : bool :=
  match others with
  | [] => false
  | (id, accessed) :: others' =>
      if decide (id ≠ self)
      then
        match set_intersection locations accessed with
        | [] => conflict_among self locations others'
        | _ :: _ => true
        end
      else conflict_among self locations others'
  end.

(** [bool hasConflict(locations)]. *)
Definition hasConflict (self : N) (locations : list N)
    (threadAccessSet : gmap N (list N)) : bool :=
  conflict_among self locations (entries threadAccessSet).

End Advanced.

(** * The hybrid engine: [HTMvsSTM.cpp] *)

Module Hybrid.

Record DataCell : Type := { content : Z; modificationCount : N }.

Definition initial_cell (initial : Z) : DataCell :=
  {| content := initial; modificationCount := 0 |}.

(** The members of [HybridTransactionalMemorySystem] that the transactions
    read and write: [dataStore] and the flag [useHTM].  A value drawn from
    [rng] is an argument of the function that draws it. *)
Record System : Type :=
  { dataStore : gmap N DataCell; useHTM : bool }.

(** [class Transaction]: [readLog], [writeBuffer] and [isHTM]. *)
Record Transaction : Type :=
  { readLog : gmap N N; writeBuffer : gmap N Z; isHTM : bool }.

(** [Transaction(HybridTransactionalMemorySystem& system, bool htm)]. *)
Definition new_transaction (htm : bool) : Transaction :=
  {| readLog := ∅; writeBuffer := ∅; isHTM := htm |}.

(** [int fetch(unsigned location)]. *)
Definition fetch (ds : gmap N DataCell) (tx : Transaction) (location : N)
    : Result Z * Transaction :=
  match writeBuffer tx !! location with
  | Some buffered => (Returns buffered, tx)
  | None =>
      match ds !! location with
      | None => (Throws (out_of_range "Memory location not initialized"), tx)
      | Some cell =>
          let value := content cell in
          if negb (isHTM tx)
          then
            let currentMod := modificationCount cell in
            (Returns value,
             {| readLog := <[location := currentMod]> (readLog tx);
                writeBuffer := writeBuffer tx;
                isHTM := isHTM tx |})
          else (Returns value, tx)
      end
  end.

(** [void store(unsigned location, int value)]. *)
Definition store (tx : Transaction) (location : N) (value : Z) : Transaction :=
  {| readLog := readLog tx;
     writeBuffer := <[location := value]> (writeBuffer tx);
     isHTM := isHTM tx |}.

(** The first loop of [finalizeSTM]. *)
Fixpoint validate (ds : gmap N DataCell) (log : list (N * N)) : bool :=
  match log with
  | [] => true
  | (loc, modCount) :: log' =>
      match ds !! loc with
      | None => false
      | Some cell =>
          if decide (modificationCount cell ≠ modCount) then false
          else validate ds log'
      end
  end.

(** The cell that publishing [newValue] leaves at a location that held
    [old]. *)
Definition written (old : option DataCell) (newValue : Z) : DataCell :=
  match old with
  | None => initial_cell newValue
  | Some cell =>
      {| content := newValue;
         modificationCount := incr (modificationCount cell) |}
  end.

(** One iteration of the loop over [writeBuffer], the same in [finalizeSTM]
    and [finalizeHTM]. *)
Definition publish (ds : gmap N DataCell) (entry : N * Z) : gmap N DataCell :=
  let '(loc, newValue) := entry in
  match ds !! loc with
  | None => <[loc := initial_cell newValue]> ds
  | Some cell =>
      <[loc := {| content := newValue;
                  modificationCount := incr (modificationCount cell) |}]> ds
  end.

(** [bool finalizeSTM()]. *)
Definition finalizeSTM (tx : Transaction) (ds : gmap N DataCell)
    : bool * gmap N DataCell :=
  if validate ds (entries (readLog tx))
  then (true, foldl publish ds (entries (writeBuffer tx)))
  else (false, ds).

(** [bool finalizeHTM()]; [draw] is [dis(parentSystem.rng)]. *)
Definition finalizeHTM (tx : Transaction) (ds : gmap N DataCell) (draw : Q)
    : bool * gmap N DataCell :=
  if Qlt_le_dec draw (9 # 10)
  then (true, foldl publish ds (entries (writeBuffer tx)))
  else (false, ds).

(** [bool finalize()]. *)
Definition finalize (tx : Transaction) (ds : gmap N DataCell) (draw : Q)
    : bool * gmap N DataCell :=
  if isHTM tx then finalizeHTM tx ds draw else finalizeSTM tx ds.

(** [void initializeMemory(unsigned location, int value)]. *)
Definition initializeMemory (location : N) (value : Z) (ds : gmap N DataCell)
    : Result unit * gmap N DataCell :=
  match ds !! location with
  | Some _ => (Returns tt, ds)
  | None => (Returns tt, <[location := initial_cell value]> ds)
  end.

(** [void setUseHTM(bool use)]. *)
Definition setUseHTM (use : bool) (sys : System) : System :=
  {| dataStore := dataStore sys; useHTM := use |}.

(** The calls by which a thread changes the system, and the schedule of the
    other threads, as for the basic engine. *)
Inductive Operation : Type :=
| Initialize (location : N) (value : Z)
| Finalize (tx : Transaction) (draw : Q)
| SetUseHTM (use : bool).

Definition perform (sys : System) (op : Operation) : System :=
  match op with
  | Initialize location value =>
      {| dataStore := (initializeMemory location value (dataStore sys)).2;
         useHTM := useHTM sys |}
  | Finalize tx draw =>
      {| dataStore := (finalize tx (dataStore sys) draw).2;
         useHTM := useHTM sys |}
  | SetUseHTM use => setUseHTM use sys
  end.

Abbreviation Schedule := (list (list Operation)).

Definition interfered (sys : System) (sched : Schedule) : System :=
  foldl perform sys (hd [] sched).

(** [transactionLogic(transaction)]. *)
Fixpoint run (logic : Logic Z) (tx : Transaction) (sys : System)
    (sched : Schedule) : Result unit * Transaction * System * Schedule :=
  match logic with
  | Return => (Returns tt, tx, sys, sched)
  | Raise e => (Throws e, tx, sys, sched)
  | Read location k =>
      let sys' := interfered sys sched in
      match fetch (dataStore sys') tx location with
      | (Returns value, tx') => run (k value) tx' sys' (tl sched)
      | (Throws e, tx') => (Throws e, tx', sys', tl sched)
      end
  | Write location value k => run k (store tx location value) sys sched
  end.

(** The [try] block of the retry loop with the transaction it runs on: a
    new transaction, the closure, and [finalize] when the closure returns. *)
Definition attempt (htm : bool) (logic : Logic Z) (sys : System)
    (sched : Schedule) (draw : Q) : Attempt * System * Schedule :=
  match run logic (new_transaction htm) sys sched with
  | (Throws e, _, sys1, sched1) => (Threw e, sys1, sched1)
  | (Returns _, transaction, sys1, sched1) =>
      let sys2 := interfered sys1 sched1 in
      match finalize transaction (dataStore sys2) draw with
      | (true, ds) =>
          (Committed, {| dataStore := ds; useHTM := useHTM sys2 |}, tl sched1)
      | (false, ds) =>
          (Conflict, {| dataStore := ds; useHTM := useHTM sys2 |}, tl sched1)
      end
  end.

Record Execution : Type :=
  { success : bool;
    final : System;
    unused : Schedule;
    attempts : list Attempt }.

(** [const int maxAttempts = 10]. *)
Definition maxAttempts : nat := 10.

(** What the loop body does [if (!success)], apart from the sleep. *)
Definition after_failure (useHTMForThisAttempt : bool) (sys : System) : System :=
  if useHTMForThisAttempt then setUseHTM false sys else sys.

(** The [while] loop of [executeTransaction], with
    [remaining = maxAttempts - attempts]. *)
Fixpoint attempts_loop (remaining : nat) (attempts : nat) (logic : Logic Z)
    (sys : System) (sched : Schedule) (draw : Q) (past : list Attempt)
    : Execution :=
  match remaining with
  | O => {| success := false; final := sys; unused := sched; attempts := past |}
  | S remaining' =>
      let useHTMForThisAttempt := useHTM sys && bool_decide (attempts = 0%nat) in
      match attempt useHTMForThisAttempt logic sys sched draw with
      | (Committed, sys1, sched1) =>
          {| success := true; final := sys1; unused := sched1;
             attempts := past ++ [Committed] |}
      | (failed, sys1, sched1) =>
          attempts_loop remaining' (S attempts) logic
            (after_failure useHTMForThisAttempt sys1) sched1 draw
            (past ++ [failed])
      end
  end.

(** [bool executeTransaction(const std::function<void(Transaction&)>&)]. *)
Definition executeTransaction (logic : Logic Z) (sys : System)
    (sched : Schedule) (draw : Q) : Execution :=
  attempts_loop maxAttempts 0 logic sys sched draw [].

End Hybrid.

(** * The financial engine: [Financial_transactions.cpp] *)

Module Financial.

Section Engine.

(** The type of balances, [double] in the source.  The engine stores and
    returns balances and never computes with them. *)
Context {Balance : Type}.

(** ** The versioned store and the transactions *)

(** The members of [FinancialTransactionSystem] guarded by [globalLock]:
    [versionedData], a vector of (timestamp, balance) pairs per account, and
    [globalClock]. *)
Record System : Type :=
  { versionedData : gmap N (list (N * Balance)); globalClock : N }.

(** [versionedData[accountId].emplace_back(ts, balance)]: [operator[]]
    creates an empty vector for an absent account. *)
Definition emplace_back (vd : gmap N (list (N * Balance))) (accountId : N)
    (version : N * Balance) : gmap N (list (N * Balance)) :=
  <[accountId := default [] (vd !! accountId) ++ [version]]> vd.

(** [void createAccount(unsigned accountId, double initialBalance)]; it
    returns nothing and throws nothing. *)
Definition createAccount (accountId : N) (initialBalance : Balance)
    (sys : System) : Result unit * System :=
  (Returns tt,
   {| versionedData := emplace_back (versionedData sys) accountId (0, initialBalance);
      globalClock := globalClock sys |}).

(** [class Transaction]: [readSet], [writeSet] and [startTimestamp]; the
    member [endTimestamp] is assigned and used inside [commit] only. *)
Record Transaction : Type :=
  { readSet : gmap N (Balance * N);
    writeSet : gmap N Balance;
    startTimestamp : N }.

(** [Transaction(FinancialTransactionSystem& system)]. *)
Definition new_transaction (sys : System) : Transaction :=
  {| readSet := ∅; writeSet := ∅; startTimestamp := globalClock sys |}.

(** The comparison [a.first > b.first] of [readBalance], with the searched
    value [make_pair(startTimestamp, 0.0)] as [b]; [x > y] is written
    [y < x] throughout. *)
Definition newer_than (startTimestamp : N) (a : N * Balance) : bool :=
  bool_decide (startTimestamp < a.1).

(** [double readBalance(unsigned accountId)]: the search runs over the
    reversed vector, [versions.rbegin()] to [versions.rend()]. *)
Definition readBalance (sys : System) (tx : Transaction) (accountId : N)
    : Result Balance * Transaction :=
  match writeSet tx !! accountId with
  | Some buffered => (Returns buffered, tx)
  | None =>
      match versionedData sys !! accountId with
      | None => (Throws (out_of_range "Account not found"), tx)
      | Some versions =>
          let reversed := reverse versions in
          let versionIt := lower_bound (newer_than (startTimestamp tx)) reversed in
          match reversed !! versionIt with
          | None =>
              (Throws (runtime_error
                 ("No valid version found for account " +:+ pretty accountId)),
               tx)
          | Some (first, second) =>
              (Returns second,
               {| readSet := <[accountId := (second, first)]> (readSet tx);
                  writeSet := writeSet tx;
                  startTimestamp := startTimestamp tx |})
          end
      end
  end.

(** [void updateBalance(unsigned accountId, double newBalance)]. *)
Definition updateBalance (tx : Transaction) (accountId : N)
    (newBalance : Balance) : Transaction :=
  {| readSet := readSet tx;
     writeSet := <[accountId := newBalance]> (writeSet tx);
     startTimestamp := startTimestamp tx |}.

(** The comparison [a.first < b.first] of [commit], with the searched value
    [make_pair(endTimestamp, 0.0)] as [b]. *)
Definition older_than (endTimestamp : N) (a : N * Balance) : bool :=
  bool_decide (a.1 < endTimestamp).

(** [parentSystem.versionedData[accountId]] in the first loop of [commit]:
    the vector, and the map with an empty vector created for an absent
    account. *)
Definition subscript (vd : gmap N (list (N * Balance))) (accountId : N)
    : list (N * Balance) * gmap N (list (N * Balance)) :=
  match vd !! accountId with
  | Some versions => (versions, vd)
  | None => ([], <[accountId := []]> vd)
  end.

(** The first loop of [commit]: [false] at the first entry of the read set
    whose account has a version newer than the one read. *)
Fixpoint validate (endTimestamp : N) (rs : list (N * (Balance * N)))
    (vd : gmap N (list (N * Balance)))
    : bool * gmap N (list (N * Balance)) :=
  match rs with
  | [] => (true, vd)
  | (accountId, (_, readVersion)) :: rs' =>
      let '(versions, vd') := subscript vd accountId in
      match lower_bound (older_than endTimestamp) versions with
      | O => validate endTimestamp rs' vd'
      | S it =>
          match versions !! it with
          | Some (first, _) =>
              if decide (readVersion < first) then (false, vd')
              else validate endTimestamp rs' vd'
          | None => validate endTimestamp rs' vd'
          end
      end
  end.

(** The vector that publishing [newBalance] at [endTimestamp] leaves for an
    account that held [old]. *)
Definition appended (endTimestamp : N) (old : option (list (N * Balance)))
    (newBalance : Balance) : list (N * Balance) :=
  default [] old ++ [(endTimestamp, newBalance)].

(** One iteration of the second loop of [commit]. *)
Definition publish (endTimestamp : N) (vd : gmap N (list (N * Balance)))
    (entry : N * Balance) : gmap N (list (N * Balance)) :=
  let '(accountId, newBalance) := entry in
  emplace_back vd accountId (endTimestamp, newBalance).

(** [bool commit()], under the global lock. *)
Definition commit (tx : Transaction) (sys : System) : bool * System :=
  let endTimestamp := incr (globalClock sys) in
  match validate endTimestamp (entries (readSet tx)) (versionedData sys) with
  | (false, vd) => (false, {| versionedData := vd; globalClock := endTimestamp |})
  | (true, vd) =>
      (true,
       {| versionedData := foldl (publish endTimestamp) vd (entries (writeSet tx));
          globalClock := endTimestamp |})
  end.

(** ** Closures, interference and the retry loop of [workerFunction] *)

(** The calls by which a thread changes the system. *)
Inductive Operation : Type :=
| CreateAccount (accountId : N) (initialBalance : Balance)
| Commit (tx : Transaction).

Definition perform (sys : System) (op : Operation) : System :=
  match op with
  | CreateAccount accountId initialBalance =>
      (createAccount accountId initialBalance sys).2
  | Commit tx => (commit tx sys).2
  end.

(** The system after what the other threads do before the next access of
    this thread: the first slot of the schedule. *)
Definition interfered (sys : System) (sched : list (list Operation)) : System :=
  foldl perform sys (hd [] sched).

(** [transactionInfo->logic(tx)]: every [readBalance] takes one slot of the
    schedule, and so does the [commit] of [attempt]. *)
Fixpoint run (logic : Logic Balance) (tx : Transaction) (sys : System)
    (sched : list (list Operation))
    : Result unit * Transaction * System * list (list Operation) :=
  match logic with
  | Return => (Returns tt, tx, sys, sched)
  | Raise e => (Throws e, tx, sys, sched)
  | Read accountId k =>
      let sys' := interfered sys sched in
      match readBalance sys' tx accountId with
      | (Returns balance, tx') => run (k balance) tx' sys' (tl sched)
      | (Throws e, tx') => (Throws e, tx', sys', tl sched)
      end
  | Write accountId newBalance k =>
      run k (updateBalance tx accountId newBalance) sys sched
  end.

(** The [try] block of the retry loop with the transaction it runs on: a
    new transaction, the closure, and [commit] when the closure returns. *)
Definition attempt (logic : Logic Balance) (sys : System)
    (sched : list (list Operation))
    : Attempt * System * list (list Operation) :=
  match run logic (new_transaction sys) sys sched with
  | (Throws e, _, sys1, sched1) => (Threw e, sys1, sched1)
  | (Returns _, tx, sys1, sched1) =>
      match commit tx (interfered sys1 sched1) with
      | (true, sys2) => (Committed, sys2, tl sched1)
      | (false, sys2) => (Conflict, sys2, tl sched1)
      end
  end.

(** What the retry loop of a worker leaves behind: [success], the system, the
    unused schedule, how each invocation of the closure ended, and the lines
    written to [cout]. *)
Record Execution : Type :=
  { success : bool;
    final : System;
    unused : list (list Operation);
    attempts : list Attempt;
    console : list string }.

(** [const int maxAttempts = 10]. *)
Definition maxAttempts : nat := 10.

(** The [while (!success && attempts < maxAttempts)] loop of
    [workerFunction], with [remaining = maxAttempts - attempts]. *)
Fixpoint attempts_loop (remaining : nat) (logic : Logic Balance) (sys : System)
    (sched : list (list Operation)) (past : list Attempt)
    (out : list string) : Execution :=
  match remaining with
  | O =>
      {| success := false; final := sys; unused := sched; attempts := past;
         console := out |}
  | S remaining' =>
      match attempt logic sys sched with
      | (Committed, sys1, sched1) =>
          {| success := true; final := sys1; unused := sched1;
             attempts := past ++ [Committed]; console := out |}
      | (Conflict, sys1, sched1) =>
          attempts_loop remaining' logic sys1 sched1 (past ++ [Conflict]) out
      | (Threw e, sys1, sched1) =>
          attempts_loop remaining' logic sys1 sched1 (past ++ [Threw e])
            (out ++ ["Transaction error: " +:+ what e])
      end
  end.

(** ** The priority queue of transaction descriptors *)

(** [struct TransactionInfo]; [startTime] is the reading of the steady clock
    taken by the constructor. *)
Record TransactionInfo : Type :=
  { logic : Logic Balance;
    priority : Z;
    description : string;
    startTime : Z }.

(** [CompareTransactionInfo::operator()]; the last line is
    [lhs.startTime > rhs.startTime]. *)
Definition CompareTransactionInfo (lhs rhs : TransactionInfo) : bool :=
  if decide (priority lhs ≠ priority rhs)
  then bool_decide (priority lhs < priority rhs)%Z
  else bool_decide (startTime rhs < startTime lhs)%Z.

(** [std::priority_queue<TransactionInfo, vector<TransactionInfo>,
    CompareTransactionInfo>], held as the list of its elements; [extract]
    gives [top()], an element that no element of the queue is greater than
    under the comparison, and the queue after [pop()]. *)
Fixpoint extract (q : list TransactionInfo)
    : option (TransactionInfo * list TransactionInfo) :=
  match q with
  | [] => None
  | x :: q' =>
      match extract q' with
      | None => Some (x, [])
      | Some (y, rest) =>
          if CompareTransactionInfo x y then Some (y, x :: rest)
          else Some (x, q')
      end
  end.

(** The order in which a queue is emptied when nothing is submitted
    meanwhile: at most [fuel] descriptors. *)
Fixpoint drain (fuel : nat) (q : list TransactionInfo) : list TransactionInfo :=
  match fuel with
  | O => []
  | S fuel' =>
      match extract q with
      | None => []
      | Some (x, rest) => x :: drain fuel' rest
      end
  end.

(** The members guarded by [queueMutex], with the atomic flag and the
    [std::atomic<int>] counter. *)
Record Scheduler : Type :=
  { transactionQueue : list TransactionInfo;
    shutdownFlag : bool;
    activeTransactions : Z }.

(** [void scheduleTransaction(logic, priority, description)]; [now] is the
    value of [chrono::steady_clock::now()] in the constructor of the
    descriptor. *)
Definition scheduleTransaction (transactionLogic : Logic Balance) (priority : Z)
    (description : string) (now : Z) (s : Scheduler) : Scheduler :=
  {| transactionQueue :=
       {| logic := transactionLogic; priority := priority;
          description := description; startTime := now |}
       :: transactionQueue s;
     shutdownFlag := shutdownFlag s;
     activeTransactions := wrap_int (activeTransactions s + 1) |}.

(** The block of [workerFunction] that holds [queueMutex]: [None] when the
    worker returns (shutdown) or keeps waiting (empty queue), else the
    descriptor taken from the queue. *)
Definition dequeue (s : Scheduler) : option (TransactionInfo * Scheduler) :=
  if shutdownFlag s then None
  else
    match extract (transactionQueue s) with
    | None => None
    | Some (transactionInfo, rest) =>
        Some (transactionInfo,
              {| transactionQueue := rest;
                 shutdownFlag := shutdownFlag s;
                 activeTransactions := activeTransactions s |})
    end.

(** The rest of one iteration of [workerFunction]: the retry loop and the
    line that reports how it ended. *)
Definition process (transactionInfo : TransactionInfo) (sys : System)
    (sched : list (list Operation)) : Execution :=
  let e := attempts_loop maxAttempts (logic transactionInfo) sys sched [] [] in
  {| success := success e; final := final e; unused := unused e;
     attempts := attempts e;
     console :=
       console e ++
       [if success e
        then "Transaction succeeded: " +:+ description transactionInfo
        else "Transaction failed after " +:+ pretty (N.of_nat maxAttempts)
             +:+ " attempts: " +:+ description transactionInfo] |}.

(** One iteration of the loop of [workerFunction]. *)
Definition workerFunction (s : Scheduler) (sys : System)
    (sched : list (list Operation)) : option (Execution * Scheduler) :=
  match dequeue s with
  | None => None
  | Some (transactionInfo, s') =>
      Some (process transactionInfo sys sched,
            {| transactionQueue := transactionQueue s';
               shutdownFlag := shutdownFlag s';
               activeTransactions := wrap_int (activeTransactions s' - 1) |})
  end.

(** [first] is dispatched before [second] by the rule of the scheduler:
    higher priority, or equal priority and earlier enqueue time. *)
Definition precedes (first second : TransactionInfo) : Prop :=
  (priority second < priority first)%Z ∨
  (priority second = priority first ∧ startTime first < startTime second)%Z.

(** ** Properties of the store *)

(** The timestamps of a version vector never decrease, or grow strictly,
    from one version to the next. *)
Definition ascending (versions : list (N * Balance)) : Prop :=
  StronglySorted N.le versions.*1.

Definition strictly_ascending (versions : list (N * Balance)) : Prop :=
  StronglySorted N.lt versions.*1.

(** No version carries a timestamp beyond the clock. *)
Definition stamped_by_clock (sys : System) : Prop :=
  ∀ k versions, versionedData sys !! k = Some versions →
    Forall (λ a, a.1 ≤ globalClock sys) versions.

(** The largest timestamp of the store, 0 for a store without versions. *)
Definition latest_timestamp (vd : gmap N (list (N * Balance))) : N :=
  map_fold (λ _ versions latest, foldr N.max latest versions.*1) 0 vd.

(** The number of calls of [commit] among operations. *)
Fixpoint commits (ops : list Operation) : nat :=
  match ops with
  | [] => 0
  | Commit _ :: ops' => S (commits ops')
  | CreateAccount _ _ :: ops' => commits ops'
  end.

(** The system before any call. *)
Definition initial : System := {| versionedData := ∅; globalClock := 0 |}.

End Engine.

Arguments System : clear implicits.
Arguments Transaction : clear implicits.
Arguments Operation : clear implicits.
Arguments Execution : clear implicits.
Arguments TransactionInfo : clear implicits.
Arguments Scheduler : clear implicits.

Section Reporting.
Context {Balance : Type}.

(** [void waitForCompletion()] returns when it finds the counter of active
    transactions at or below zero: whether a call returns without another
    sleep. *)
Definition waitForCompletion_returns (s : Scheduler Balance) : bool :=
  negb (bool_decide (0 < activeTransactions s)%Z).

(** [void printAccountBalance(unsigned accountId)]: the line written to
    [cout]; [show] is the output operator of [double]. *)
Definition printAccountBalance (show : Balance → string) (accountId : N)
    (sys : System Balance) : string :=
  match versionedData sys !! accountId with
  | Some versions =>
      match last versions with
      | Some (_, balance) =>
          "Account " +:+ pretty accountId +:+ " balance: " +:+ show balance
      | None => "Account " +:+ pretty accountId +:+ " not found or empty"
      end
  | None => "Account " +:+ pretty accountId +:+ " not found or empty"
  end.

(** What a worker and the submitters do to the scheduler, for runs in which
    the submissions and the iterations of one worker alternate. *)
Inductive Step : Type :=
| Submit (transactionLogic : Logic Balance) (priority : Z)
    (description : string) (now : Z)
| Work.

Definition step (s : Scheduler Balance) (sys : System Balance) (st : Step)
    : Scheduler Balance * System Balance :=
  match st with
  | Submit transactionLogic priority description now =>
      (scheduleTransaction transactionLogic priority description now s, sys)
  | Work =>
      match workerFunction s sys [] with
      | Some (ex, s') => (s', final ex)
      | None => (s, sys)
      end
  end.

(** No account of a read set has a version newer than the one read: what
    the first loop of [commit] looks for, on the last version of each
    vector. *)
Definition reads_current (rs : gmap N (Balance * N))
    (vd : gmap N (list (N * Balance))) : Prop :=
  ∀ k b rv ts v,
    rs !! k = Some (b, rv) → last (default [] (vd !! k)) = Some (ts, v) →
    ts ≤ rv.

(** The scheduler and the system after steps, from left to right. *)
Definition steps (s : Scheduler Balance) (sys : System Balance)
    (sts : list Step) : Scheduler Balance * System Balance :=
  foldl (λ state st, step state.1 state.2 st) (s, sys) sts.

(** The scheduler of a new system. *)
Definition idle : Scheduler Balance :=
  {| transactionQueue := []; shutdownFlag := false; activeTransactions := 0 |}.

(** Operations in which every [createAccount] is for an account that has no
    vector yet. *)
Fixpoint creates_fresh (sys : System Balance)
    (ops : list (Operation Balance)) : Prop :=
  match ops with
  | [] => True
  | op :: ops' =>
      match op with
      | CreateAccount accountId _ => versionedData sys !! accountId = None
      | Commit _ => True
      end ∧ creates_fresh (perform sys op) ops'
  end.

End Reporting.

End Financial.

(** * The transactions of the financial workload *)

Module Workload.
Import Financial.

Section Closures.

(** The comparison [>=] and the operators [+] and [-] of [double]. *)
Context {Balance : Type}.
Context (ge : Balance → Balance → bool) (add sub : Balance → Balance → Balance).

(** The closure of [executeTrade]. *)
Definition trade (buyerAccountId sellerAccountId : N) (amount : Balance)
    : Logic Balance :=
  Read buyerAccountId (λ buyerBalance,
  Read sellerAccountId (λ sellerBalance,
    if ge buyerBalance amount
    then Write buyerAccountId (sub buyerBalance amount)
           (Write sellerAccountId (add sellerBalance amount) Return)
    else Raise (runtime_error "Insufficient funds for trade"))).

(** [void executeTrade(buyerAccountId, sellerAccountId, amount)]. *)
Definition executeTrade (buyerAccountId sellerAccountId : N)
    (amount : Balance) (now : Z) (s : Scheduler Balance) : Scheduler Balance :=
  scheduleTransaction (trade buyerAccountId sellerAccountId amount) 10
    "Stock trade" now s.

(** The closure of [transferFunds]. *)
Definition transfer (fromAccountId toAccountId : N) (amount : Balance)
    : Logic Balance :=
  Read fromAccountId (λ fromBalance,
  Read toAccountId (λ toBalance,
    if ge fromBalance amount
    then Write fromAccountId (sub fromBalance amount)
           (Write toAccountId (add toBalance amount) Return)
    else Raise (runtime_error "Insufficient funds for transfer"))).

(** [void transferFunds(fromAccountId, toAccountId, amount)]. *)
Definition transferFunds (fromAccountId toAccountId : N) (amount : Balance)
    (now : Z) (s : Scheduler Balance) : Scheduler Balance :=
  scheduleTransaction (transfer fromAccountId toAccountId amount) 5
    "Bank transfer" now s.

(** The wallets of [executeCryptoTrade]: [unsigned] sums. *)
Definition buyerCryptoWalletId (buyerAccountId : N) : N :=
  (buyerAccountId + 1000000) mod 2 ^ 32.

Definition sellerFiatWalletId (sellerAccountId : N) : N :=
  (sellerAccountId + 2000000) mod 2 ^ 32.

(** The closure of [executeCryptoTrade]. *)
Definition cryptoTrade (buyerAccountId sellerAccountId : N)
    (cryptoAmount fiatAmount : Balance) : Logic Balance :=
  Read buyerAccountId (λ buyerFiatBalance,
  Read sellerAccountId (λ sellerCryptoBalance,
    if ge buyerFiatBalance fiatAmount && ge sellerCryptoBalance cryptoAmount
    then
      Write buyerAccountId (sub buyerFiatBalance fiatAmount)
      (Write sellerAccountId (sub sellerCryptoBalance cryptoAmount)
      (Read (buyerCryptoWalletId buyerAccountId) (λ buyerCryptoBalance,
       Read (sellerFiatWalletId sellerAccountId) (λ sellerFiatBalance,
         Write (buyerCryptoWalletId buyerAccountId)
           (add buyerCryptoBalance cryptoAmount)
         (Write (sellerFiatWalletId sellerAccountId)
           (add sellerFiatBalance fiatAmount) Return)))))
    else Raise (runtime_error "Insufficient funds for crypto trade"))).

(** [void executeCryptoTrade(buyerAccountId, sellerAccountId, cryptoAmount,
    fiatAmount)]. *)
Definition executeCryptoTrade (buyerAccountId sellerAccountId : N)
    (cryptoAmount fiatAmount : Balance) (now : Z) (s : Scheduler Balance)
    : Scheduler Balance :=
  scheduleTransaction
    (cryptoTrade buyerAccountId sellerAccountId cryptoAmount fiatAmount) 10
    "Crypto trade" now s.

End Closures.

(** The workload on integer balances, and the accounts of [main]. *)
Definition accounts_of_main : System Z :=
  foldl perform initial
    [CreateAccount 1 10000%Z; CreateAccount 2 20000%Z; CreateAccount 3 30000%Z;
     CreateAccount 1000001 100%Z; CreateAccount 2000002 200%Z].

Definition covers (balance amount : Z) : bool := bool_decide (amount ≤ balance)%Z.

End Workload.

(** * Closures and states of the scenarios *)

Module Scenario.
Import Financial.

(** The closure of [executeTrade], with integer balances in place of
    [double]. *)
Definition executeTrade (buyerAccountId sellerAccountId : N) (amount : Z)
    : Logic Z :=
  Read buyerAccountId (λ buyerBalance,
  Read sellerAccountId (λ sellerBalance,
    if decide (amount ≤ buyerBalance)%Z
    then Write buyerAccountId (buyerBalance - amount)%Z
           (Write sellerAccountId (sellerBalance + amount)%Z Return)
    else Raise (runtime_error "Insufficient funds for trade"))).

(** The descriptor [scheduleTransaction] builds for it. *)
Definition stock_trade (buyer seller : N) (amount : Z) (now : Z)
    : TransactionInfo Z :=
  {| logic := executeTrade buyer seller amount; priority := 10;
     description := "Stock trade"; startTime := now |}.

(** The accounts 1 and 2 of [main]. *)
Definition two_accounts : System Z :=
  foldl perform initial [CreateAccount 1 10000%Z; CreateAccount 2 20000%Z].

(** A transaction that writes account 1 without reading. *)
Definition deposit (balance : Z) : Transaction Z :=
  {| readSet := ∅; writeSet := {[ 1 := balance ]}; startTimestamp := 0 |}.

(** A transaction that read account 1 at timestamp 0 and writes it. *)
Definition stale_update : Transaction Z :=
  {| readSet := {[ 1 := (10000%Z, 0) ]}; writeSet := {[ 1 := 1%Z ]};
     startTimestamp := 0 |}.

(** Scenario S6: account 1 committed through the balances 0, 1, 2, 3 at the
    timestamps 1 to 4. *)
Definition history : System Z :=
  foldl perform initial
    [Commit (deposit 0); Commit (deposit 1); Commit (deposit 2);
     Commit (deposit 3)].

(** A closure that reads a location nobody initialized. *)
Definition read_missing : Logic Z := Read 7 (λ _, Return).

(** A closure that writes two locations and reads none. *)
Definition blind_write : Logic Z := Write 100 1%Z (Write 200 2%Z Return).

End Scenario.

(** * Verification *)

(** ** Iteration over maps and binary search *)

Section entries_facts.
Context {V : Type}.
Implicit Types (m : gmap N V).

Lemma entries_perm m : entries m ≡ₚ map_to_list m.
Proof. apply merge_sort_Permutation. Qed.

Lemma elem_of_entries m k v : (k, v) ∈ entries m ↔ m !! k = Some v.
Proof. rewrite entries_perm. apply elem_of_map_to_list. Qed.

Lemma NoDup_fst_entries m : NoDup (entries m).*1.
Proof. rewrite entries_perm. apply NoDup_fst_map_to_list. Qed.

Lemma entries_empty : entries (∅ : gmap N V) = [].
Proof.
  apply Permutation_nil_r. rewrite entries_perm.
  by rewrite map_to_list_empty.
Qed.

Lemma entries_keys_sorted m : StronglySorted N.le (entries m).*1.
Proof.
  assert (StronglySorted key_le (entries m)) as Hs.
  { apply StronglySorted_merge_sort.
    - intros x y z; unfold key_le; lia.
    - intros x y; unfold key_le; lia. }
  induction Hs as [|x l _ IH Hx]; simpl; constructor; [done|].
  rewrite Forall_fmap. by eapply Forall_impl.
Qed.
End entries_facts.

Section lower_bound_facts.
Context {A : Type} (below : A → bool).

(** One iteration of the search. *)
Lemma lower_bound_loop_step (l : list A) fuel first len :
  lower_bound_loop below l (S fuel) first (S len) =
  match l !! (first + S len / 2)%nat with
  | Some x =>
      if below x
      then lower_bound_loop below l fuel (S (first + S len / 2))
             (S len - S len / 2 - 1)%nat
      else lower_bound_loop below l fuel first (S len / 2)
  | None => first
  end.
Proof. reflexivity. Qed.

Lemma lower_bound_loop_partition (l1 l2 : list A) fuel first len :
  Forall (λ x, below x = true) l1 →
  Forall (λ x, below x = false) l2 →
  (len ≤ fuel)%nat →
  (first ≤ length l1)%nat →
  (length l1 ≤ first + len)%nat →
  (first + len ≤ length (l1 ++ l2))%nat →
  lower_bound_loop below (l1 ++ l2) fuel first len = length l1.
Proof.
  intros H1 H2. revert first len.
  induction fuel as [|fuel IH]; intros first len Hf Hlo Hhi Hlen.
  { simpl. lia. }
  destruct len as [|len']; [simpl; lia|].
  rewrite !lower_bound_loop_step.
  assert (S len' / 2 < S len')%nat as Hhalf by (apply Nat.div_lt; lia).
  generalize dependent (S len' / 2)%nat. intros half Hhalf.
  destruct ((l1 ++ l2) !! (first + half)%nat) as [x|] eqn:Hx; last first.
  { apply lookup_ge_None in Hx. lia. }
  destruct (decide (first + half < length l1)%nat) as [Hin|Hout].
  - rewrite lookup_app_l in Hx by done.
    rewrite Forall_lookup in H1. rewrite (H1 _ _ Hx).
    apply IH; lia.
  - rewrite lookup_app_r in Hx by lia.
    rewrite Forall_lookup in H2. rewrite (H2 _ _ Hx).
    apply IH; lia.
Qed.

(** The search never leaves its window, so the returned index is at most
    the length of the range. *)
Lemma lower_bound_loop_within (l : list A) fuel first len :
  (first ≤ lower_bound_loop below l fuel first len ≤ first + len)%nat.
Proof.
  revert first len. induction fuel as [|fuel IH]; intros first len.
  { simpl. lia. }
  destruct len as [|len']; [simpl; lia|].
  rewrite !lower_bound_loop_step.
  assert (S len' / 2 < S len')%nat as Hhalf by (apply Nat.div_lt; lia).
  generalize dependent (S len' / 2)%nat. intros half Hhalf.
  destruct (l !! (first + half)%nat) as [x|]; [|lia].
  destruct (below x).
  - specialize (IH (S (first + half)) (S len' - half - 1)%nat). lia.
  - specialize (IH first half). lia.
Qed.

(** The loop ends before its fuel does: any fuel of at least the length of
    the window gives the same index. *)
Lemma lower_bound_loop_fuel (l : list A) fuel fuel' first len :
  (len ≤ fuel)%nat → (len ≤ fuel')%nat →
  lower_bound_loop below l fuel first len =
  lower_bound_loop below l fuel' first len.
Proof.
  revert fuel' first len.
  induction fuel as [|fuel IH]; intros fuel' first len Hf Hf'.
  { assert (len = 0)%nat as -> by lia. by destruct fuel'. }
  destruct len as [|len']; [by destruct fuel'|].
  destruct fuel' as [|fuel']; [lia|].
  rewrite !lower_bound_loop_step.
  assert (S len' / 2 < S len')%nat as Hhalf by (apply Nat.div_lt; lia).
  generalize dependent (S len' / 2)%nat. intros half Hhalf.
  destruct (l !! (first + half)%nat) as [x|]; [|done].
  destruct (below x); apply IH; lia.
Qed.

Lemma lower_bound_within (l : list A) : (lower_bound below l ≤ length l)%nat.
Proof.
  unfold lower_bound.
  pose proof (lower_bound_loop_within l (length l) 0 (length l)). lia.
Qed.

(** On a range partitioned by [below], the search returns the partition
    point. *)
Lemma lower_bound_partition (l1 l2 : list A) :
  Forall (λ x, below x = true) l1 →
  Forall (λ x, below x = false) l2 →
  lower_bound below (l1 ++ l2) = length l1.
Proof.
  intros H1 H2. unfold lower_bound.
  apply lower_bound_loop_partition; try done; rewrite ?length_app; lia.
Qed.
End lower_bound_facts.


Lemma foldl_pointwise {A B : Type} (f g : A → B → A) (l : list B) (a : A) :
  (∀ x y, f x y = g x y) → foldl f a l = foldl g a l.
Proof.
  intros Hfg. revert a. induction l as [|y l IH]; intros a; simpl; [done|].
  by rewrite Hfg, IH.
Qed.

Section upsert_facts.
Context {V C : Type} (upd : option C → V → C).
Implicit Types (m : gmap N C) (l : list (N * V)).

Lemma foldl_upsert_other l m k :
  k ∉ l.*1 → foldl (upsert upd) m l !! k = m !! k.
Proof.
  revert m. induction l as [|[k' v'] l IH]; intros m Hk; [done|].
  simpl in *. apply not_elem_of_cons in Hk as [Hne Hk].
  rewrite IH by done. unfold upsert; simpl. by rewrite lookup_insert_ne.
Qed.

Lemma foldl_upsert_entry l m k v :
  NoDup l.*1 → (k, v) ∈ l →
  foldl (upsert upd) m l !! k = Some (upd (m !! k) v).
Proof.
  revert m. induction l as [|[k' v'] l IH]; intros m Hnd Hin.
  { by apply elem_of_nil in Hin. }
  simpl in *. apply NoDup_cons in Hnd as [Hfresh Hnd].
  apply elem_of_cons in Hin as [Heq|Hin].
  - injection Heq as -> ->. rewrite foldl_upsert_other by done.
    unfold upsert; simpl. by rewrite lookup_insert_eq.
  - assert (k ≠ k') as Hne.
    { intros ->. apply Hfresh. apply list_elem_of_fmap. by exists (k', v). }
    rewrite IH by done. f_equal. f_equal.
    unfold upsert; simpl. by rewrite lookup_insert_ne.
Qed.

(** Publishing the entries of a map: every key of the map is upserted once,
    the other keys are untouched. *)
Lemma foldl_upsert_entries (w : gmap N V) m k :
  foldl (upsert upd) m (entries w) !! k =
  match w !! k with
  | Some v => Some (upd (m !! k) v)
  | None => m !! k
  end.
Proof.
  destruct (w !! k) as [v|] eqn:Hw.
  - apply foldl_upsert_entry; [apply NoDup_fst_entries|].
    by apply elem_of_entries.
  - apply foldl_upsert_other. intros Hin.
    apply list_elem_of_fmap in Hin as [[k' v] [-> Hin]].
    apply elem_of_entries in Hin. simpl in *. congruence.
Qed.
End upsert_facts.

(** ** Schedules *)

Section elapsed_facts.
Context {St Op : Type} (perform : St → Op → St).
Implicit Types (s : St) (sched : list (list Op)).

Lemma elapsed_0 s sched : elapsed perform s sched 0 = s.
Proof. done. Qed.

Lemma elapsed_nil s n : elapsed perform s [] n = s.
Proof. by destruct n. Qed.

Lemma elapsed_next s sched n :
  elapsed perform (foldl perform s (hd [] sched)) (tl sched) n =
  elapsed perform s sched (S n).
Proof. destruct sched; [by rewrite !elapsed_nil|done]. Qed.

Lemma drop_tl sched n : drop n (tl sched) = drop (S n) sched.
Proof. destruct sched; [by destruct n|done]. Qed.

Lemma elapsed_add s sched n m :
  elapsed perform (elapsed perform s sched n) (drop n sched) m =
  elapsed perform s sched (n + m).
Proof.
  unfold elapsed. by rewrite <- foldl_app, take_take_drop.
Qed.
End elapsed_facts.

(** ** The basic engine *)

Lemma stm_publish_upsert ds e : STM.publish ds e = upsert STM.written ds e.
Proof. destruct e as [loc v]. unfold STM.publish, upsert; simpl. by destruct (ds !! loc). Qed.

Lemma stm_published (w : gmap N Z) (ds : gmap N STM.DataCell) k :
  foldl STM.publish ds (entries w) !! k =
  match w !! k with
  | Some v => Some (STM.written (ds !! k) v)
  | None => ds !! k
  end.
Proof.
  rewrite <- (foldl_upsert_entries STM.written w ds k).
  f_equal. apply foldl_pointwise, stm_publish_upsert.
Qed.

(** A failed validation leaves the store as it is. *)
Lemma stm_finalize_conflict tx ds ds' :
  STM.finalizeTransaction tx ds = (false, ds') → ds' = ds.
Proof.
  unfold STM.finalizeTransaction.
  destruct (STM.validate _ _); intros [= <-]; done.
Qed.

Lemma stm_validate_nil ds : STM.validate ds [] = true.
Proof. done. Qed.

(** The closure changes the store by no operation of its own. *)
Lemma stm_run_elapsed logic tx ds sched r tx' ds' sched' :
  STM.run logic tx ds sched = (r, tx', ds', sched') →
  ∃ n, ds' = elapsed STM.perform ds sched n ∧ sched' = drop n sched.
Proof.
  revert tx ds sched.
  induction logic as [|e|location k IH|location value k IH];
    intros tx ds sched Hrun; simpl in Hrun.
  - injection Hrun as <- <- <- <-. by exists 0%nat.
  - injection Hrun as <- <- <- <-. by exists 0%nat.
  - destruct (STM.fetch _ tx location) as [[v|e] tx1] eqn:Hfetch.
    + apply IH in Hrun as (n & -> & ->). exists (S n).
      unfold STM.interfered. by rewrite elapsed_next, drop_tl.
    + injection Hrun as <- <- <- <-. exists 1%nat.
      unfold STM.interfered.
      by rewrite <- (elapsed_next STM.perform ds sched 0), <- drop_tl.
  - by apply IH in Hrun.
Qed.

(** An attempt that does not commit leaves the store to the other threads. *)
Lemma stm_attempt_elapsed logic ds sched a ds' sched' :
  STM.attempt logic ds sched = (a, ds', sched') →
  a ≠ Committed →
  ∃ n, ds' = elapsed STM.perform ds sched n ∧ sched' = drop n sched.
Proof.
  unfold STM.attempt. intros Hatt Ha.
  destruct (STM.run logic STM.new_transaction ds sched)
    as [[[[[]|e] tx] ds1] sched1] eqn:Hrun;
    apply stm_run_elapsed in Hrun as (n & -> & ->).
  - destruct (STM.finalizeTransaction _ _) as [[] ds2] eqn:Hfin;
      injection Hatt as <- <- <-; [done|].
    apply stm_finalize_conflict in Hfin as ->.
    exists (n + 1)%nat. rewrite <- elapsed_add, <- drop_drop.
    unfold STM.interfered.
    by rewrite <- (elapsed_next STM.perform _ (drop n sched) 0), <- drop_tl.
  - injection Hatt as <- <- <-. by exists n.
Qed.

(** How [executeTransaction] can end: a commit after fewer than [remaining]
    conflicts, the exception of the closure after fewer than [remaining]
    conflicts, or [retry_exceeded] after [remaining] conflicts. *)
Lemma stm_attempts_loop_outcome remaining logic ds sched past :
  let ex := STM.attempts_loop remaining logic ds sched past in
  ∃ new, STM.attempts ex = past ++ new ∧
    ((∃ j, (j < remaining)%nat ∧ new = replicate j Conflict ++ [Committed] ∧
           STM.result ex = Returns tt)
     ∨ (new = replicate remaining Conflict ∧
        STM.result ex = Throws STM.retry_exceeded)
     ∨ (∃ j e, (j < remaining)%nat ∧ new = replicate j Conflict ++ [Threw e] ∧
               STM.result ex = Throws e)).
Proof.
  revert ds sched past.
  induction remaining as [|remaining IH]; intros ds sched past; simpl.
  { exists []. split; [by rewrite app_nil_r|]. right; left. done. }
  destruct (STM.attempt logic ds sched) as [[[| |e] ds1] sched1]; simpl.
  - exists [Committed]. split; [done|]. left. exists 0%nat. split; [lia|done].
  - destruct (IH ds1 sched1 (past ++ [Conflict])) as (new & Hatt & Hnew).
    exists (Conflict :: new). split.
    { rewrite Hatt. by rewrite <- app_assoc. }
    destruct Hnew as [(j & Hj & -> & Hres)|[[-> Hres]|(j & e & Hj & -> & Hres)]].
    + left. exists (S j). split; [lia|done].
    + right; left. done.
    + right; right. exists (S j), e. split; [lia|done].
  - exists [Threw e]. split; [done|]. right; right.
    exists 0%nat, e. split; [lia|done].
Qed.

(** An execution that does not commit leaves the store to the other
    threads. *)
Lemma stm_attempts_loop_elapsed remaining logic ds sched past :
  let ex := STM.attempts_loop remaining logic ds sched past in
  STM.result ex ≠ Returns tt →
  ∃ n, STM.final ex = elapsed STM.perform ds sched n ∧
       STM.unused ex = drop n sched.
Proof.
  revert ds sched past.
  induction remaining as [|remaining IH]; intros ds sched past; simpl.
  { intros _. by exists 0%nat. }
  destruct (STM.attempt logic ds sched) as [[a ds1] sched1] eqn:Hatt.
  destruct a as [| |e]; simpl.
  - done.
  - intros Hres. apply stm_attempt_elapsed in Hatt as (n & -> & ->); [|done].
    destruct (IH _ _ _ Hres) as (m & -> & ->).
    exists (n + m)%nat. by rewrite elapsed_add, drop_drop.
  - intros _. apply stm_attempt_elapsed in Hatt as (n & -> & ->); [|done].
    by exists n.
Qed.

(** [emplace] changes nothing at a location that is initialized. *)
Lemma stm_initialize_existing location value (ds : gmap N STM.DataCell) :
  is_Some (ds !! location) →
  STM.initializeMemory location value ds = (Returns tt, ds).
Proof. intros [cell Hcell]. unfold STM.initializeMemory. by rewrite Hcell. Qed.

Lemma stm_initialize_fresh location value (ds : gmap N STM.DataCell) :
  ds !! location = None →
  STM.initializeMemory location value ds =
  (Returns tt,
   <[location := {| STM.content := value; STM.modificationCount := 0 |}]> ds).
Proof. intros Hnone. unfold STM.initializeMemory. by rewrite Hnone. Qed.

(** What [fetch] returns for a location that is not in the write buffer. *)
Lemma stm_fetch_store (ds : gmap N STM.DataCell) tx location cell :
  STM.writeBuffer tx !! location = None →
  ds !! location = Some cell →
  STM.fetch ds tx location =
  (Returns (STM.content cell),
   {| STM.readLog := <[location := STM.modificationCount cell]> (STM.readLog tx);
      STM.writeBuffer := STM.writeBuffer tx |}).
Proof. intros Hw Hc. unfold STM.fetch. by rewrite Hw, Hc. Qed.

(** Two fetches of a location agree when its cell is the same at both. *)
Lemma stm_fetch_twice (ds ds' : gmap N STM.DataCell) tx location :
  ds' !! location = ds !! location →
  (STM.fetch ds' (STM.fetch ds tx location).2 location).1 =
  (STM.fetch ds tx location).1.
Proof.
  intros Heq. unfold STM.fetch.
  destruct (STM.writeBuffer tx !! location) as [v|] eqn:Hw; simpl.
  { by rewrite Hw. }
  destruct (ds !! location) as [cell|] eqn:Hc; simpl; by rewrite Hw, Heq.
Qed.

(** ** The scheduled engine *)

Lemma advanced_publish_upsert ds e :
  Advanced.publish ds e = upsert Advanced.written ds e.
Proof.
  destruct e as [loc v]. unfold Advanced.publish, upsert; simpl.
  by destruct (ds !! loc).
Qed.

Lemma advanced_published (w : gmap N Z) (ds : gmap N Advanced.DataCell) k :
  foldl Advanced.publish ds (entries w) !! k =
  match w !! k with
  | Some v => Some (Advanced.written (ds !! k) v)
  | None => ds !! k
  end.
Proof.
  rewrite <- (foldl_upsert_entries Advanced.written w ds k).
  f_equal. apply foldl_pointwise, advanced_publish_upsert.
Qed.

Lemma advanced_read_store (ds : gmap N Advanced.DataCell) tx location cell :
  Advanced.writeSet tx !! location = None →
  ds !! location = Some cell →
  Advanced.read ds tx location =
  (Returns (Advanced.content cell),
   {| Advanced.readSet :=
        <[location := (Advanced.content cell, Advanced.version cell)]>
          (Advanced.readSet tx);
      Advanced.writeSet := Advanced.writeSet tx;
      Advanced.isSpeculative := Advanced.isSpeculative tx |}).
Proof. intros Hw Hc. unfold Advanced.read. by rewrite Hw, Hc. Qed.

Lemma advanced_read_twice (ds ds' : gmap N Advanced.DataCell) tx location :
  ds' !! location = ds !! location →
  (Advanced.read ds' (Advanced.read ds tx location).2 location).1 =
  (Advanced.read ds tx location).1.
Proof.
  intros Heq. unfold Advanced.read.
  destruct (Advanced.writeSet tx !! location) as [v|] eqn:Hw; simpl.
  { by rewrite Hw. }
  destruct (ds !! location) as [cell|] eqn:Hc; simpl; by rewrite Hw, Heq.
Qed.

(** With an empty read set the first loop of [commit] has nothing to
    check. *)
Lemma advanced_commit_no_reads tx ds :
  Advanced.readSet tx = ∅ →
  Advanced.commit tx ds =
  (true, foldl Advanced.publish ds (entries (Advanced.writeSet tx))).
Proof.
  intros Hrs. unfold Advanced.commit. by rewrite Hrs, entries_empty.
Qed.

(** ** The financial engine: the store *)

Import Financial.

Section financial_store.
Context {Balance : Type}.
Implicit Types (vd : gmap N (list (N * Balance))) (sys : System Balance).
Implicit Types (tx : Transaction Balance).

Lemma financial_publish_upsert endTs vd (e : N * Balance) :
  publish endTs vd e = upsert (appended endTs) vd e.
Proof. by destruct e. Qed.

Lemma financial_published endTs (w : gmap N Balance) vd k :
  foldl (publish endTs) vd (entries w) !! k =
  match w !! k with
  | Some v => Some (default [] (vd !! k) ++ [(endTs, v)])
  | None => vd !! k
  end.
Proof.
  rewrite (foldl_pointwise _ _ _ _ (financial_publish_upsert endTs)).
  apply (foldl_upsert_entries (appended endTs)).
Qed.

(** [operator[]] changes the map only by an empty vector for an absent
    account. *)
Lemma subscript_versions vd k : (subscript vd k).1 = default [] (vd !! k).
Proof. unfold subscript. by destruct (vd !! k). Qed.

Lemma subscript_present vd k : is_Some (vd !! k) → (subscript vd k).2 = vd.
Proof. intros [vs Hvs]. unfold subscript. by rewrite Hvs. Qed.

Lemma subscript_lookup vd k j :
  default [] ((subscript vd k).2 !! j) = default [] (vd !! j).
Proof.
  unfold subscript. destruct (vd !! k) eqn:Hk; simpl; [done|].
  destruct (decide (k = j)) as [->|Hne].
  - by rewrite lookup_insert_eq, Hk.
  - by rewrite lookup_insert_ne.
Qed.

Lemma subscript_keeps vd k j :
  is_Some (vd !! j) → (subscript vd k).2 !! j = vd !! j.
Proof.
  intros Hj. unfold subscript. destruct (vd !! k) eqn:Hk; simpl; [done|].
  rewrite lookup_insert_ne; [done|]. intros ->. rewrite Hk in Hj.
  by destruct Hj.
Qed.

Lemma validate_step endTs k b rv rs vd :
  ∃ stop, validate endTs ((k, (b, rv)) :: rs) vd =
    if (stop : bool) then (false, (subscript vd k).2)
    else validate endTs rs (subscript vd k).2.
Proof.
  simpl. destruct (subscript vd k) as [versions vd'] eqn:Hsub; simpl.
  destruct (lower_bound _ versions) as [|it]; [by exists false|].
  destruct (versions !! it) as [[first second]|]; [|by exists false].
  destruct (decide (rv < first)); [by exists true|by exists false].
Qed.

Lemma validate_lookup endTs rs vd j :
  default [] ((validate endTs rs vd).2 !! j) = default [] (vd !! j).
Proof.
  revert vd. induction rs as [|[k [b rv]] rs IH]; intros vd; [done|].
  destruct (validate_step endTs k b rv rs vd) as [[] ->]; simpl.
  - apply subscript_lookup.
  - rewrite IH. apply subscript_lookup.
Qed.

Lemma validate_keeps endTs rs vd j :
  is_Some (vd !! j) → (validate endTs rs vd).2 !! j = vd !! j.
Proof.
  revert vd. induction rs as [|[k [b rv]] rs IH]; intros vd Hj; [done|].
  destruct (validate_step endTs k b rv rs vd) as [[] ->]; simpl.
  - by apply subscript_keeps.
  - rewrite IH; [by apply subscript_keeps|].
    by rewrite subscript_keeps.
Qed.

(** When every account of the read set has a vector, the first loop of
    [commit] leaves the map as it is. *)
Lemma validate_known endTs rs vd :
  (∀ k, k ∈ rs.*1 → is_Some (vd !! k)) → (validate endTs rs vd).2 = vd.
Proof.
  revert vd. induction rs as [|[k [b rv]] rs IH]; intros vd Hknown; [done|].
  assert ((subscript vd k).2 = vd) as Hsub.
  { apply subscript_present, Hknown. simpl. apply elem_of_cons. by left. }
  destruct (validate_step endTs k b rv rs vd) as [[] ->]; simpl; [done|].
  rewrite Hsub. apply IH. intros k' Hk'. apply Hknown.
  simpl. apply elem_of_cons. by right.
Qed.

(** Every call of [commit] advances the clock. *)
Lemma commit_clock tx sys :
  globalClock (commit tx sys).2 = incr (globalClock sys).
Proof. unfold commit. by destruct (validate _ _ _) as [[] vd]. Qed.

Lemma createAccount_clock k b sys :
  globalClock (createAccount k b sys).2 = globalClock sys.
Proof. done. Qed.

(** What a call of [commit] does to the vector of an account: one version at
    the new clock value when the commit succeeds and the account is in the
    write set, nothing otherwise. *)
Lemma commit_versions tx sys k :
  default [] (versionedData (commit tx sys).2 !! k) =
  default [] (versionedData sys !! k) ++
  (if (commit tx sys).1
   then match writeSet tx !! k with
        | Some v => [(incr (globalClock sys), v)]
        | None => []
        end
   else []).
Proof.
  unfold commit.
  pose proof (validate_lookup (incr (globalClock sys)) (entries (readSet tx))
                (versionedData sys) k) as Hval.
  destruct (validate _ _ _) as [[] vd]; simpl in *.
  - rewrite financial_published. destruct (writeSet tx !! k); simpl.
    + by rewrite Hval.
    + by rewrite Hval, app_nil_r.
  - by rewrite Hval, app_nil_r.
Qed.

Lemma commit_keeps tx sys k :
  is_Some (versionedData sys !! k) →
  is_Some (versionedData (commit tx sys).2 !! k).
Proof.
  intros Hk. unfold commit.
  pose proof (validate_keeps (incr (globalClock sys)) (entries (readSet tx))
                (versionedData sys) k Hk) as Hval.
  destruct (validate _ _ _) as [[] vd]; simpl in *.
  - rewrite financial_published. destruct (writeSet tx !! k); [done|].
    by rewrite Hval.
  - by rewrite Hval.
Qed.

Lemma perform_keeps sys op k :
  is_Some (versionedData sys !! k) →
  is_Some (versionedData (perform sys op) !! k).
Proof.
  destruct op as [k' b|tx]; simpl.
  - intros Hk. unfold emplace_back.
    destruct (decide (k' = k)) as [->|Hne].
    + by rewrite lookup_insert_eq.
    + by rewrite lookup_insert_ne.
  - apply commit_keeps.
Qed.

Lemma performs_keep sys ops k :
  is_Some (versionedData sys !! k) →
  is_Some (versionedData (foldl perform sys ops) !! k).
Proof.
  revert sys. induction ops as [|op ops IH]; intros sys Hk; [done|].
  simpl. by apply IH, perform_keeps.
Qed.

(** A conflict leaves the vectors as they are when the accounts of the read
    set have vectors. *)
Lemma commit_conflict tx sys sys' :
  (∀ k, is_Some (readSet tx !! k) → is_Some (versionedData sys !! k)) →
  commit tx sys = (false, sys') →
  versionedData sys' = versionedData sys.
Proof.
  intros Hknown. unfold commit.
  pose proof (validate_known (incr (globalClock sys)) (entries (readSet tx))
                (versionedData sys)) as Hval.
  destruct (validate _ _ _) as [[] vd]; intros [= <-]; simpl in *.
  apply Hval. intros k Hk.
  apply list_elem_of_fmap in Hk as [[k' v] [-> Hin]].
  apply elem_of_entries in Hin. simpl. apply Hknown. by rewrite Hin.
Qed.

End financial_store.

(** ** The financial engine: reading at the start timestamp *)

Section financial_reads.
Context {Balance : Type}.
Implicit Types (vd : gmap N (list (N * Balance))) (sys : System Balance).
Implicit Types (tx : Transaction Balance) (versions old new : list (N * Balance)).

(** An ascending vector splits at any timestamp. *)
Lemma ascending_split versions t :
  ascending versions →
  ∃ old new, versions = old ++ new ∧
    Forall (λ a, a.1 ≤ t) old ∧ Forall (λ a, t < a.1) new.
Proof.
  unfold ascending. induction versions as [|a versions IH]; intros Hs.
  { by exists [], []. }
  simpl in Hs. apply StronglySorted_inv in Hs as [Hs Ha].
  destruct (decide (a.1 ≤ t)) as [Hle|Hgt].
  - destruct (IH Hs) as (old & new & -> & Hold & Hnew).
    exists (a :: old), new. split; [done|]. split; [by constructor|done].
  - exists [], (a :: versions). split; [done|]. split; [done|].
    constructor; [lia|]. rewrite Forall_fmap in Ha.
    eapply Forall_impl; [exact Ha|]. simpl. intros; lia.
Qed.


(** The search of [readBalance] on a vector split at the start timestamp
    stops at the last version of the older part. *)
Lemma reversed_search old new t :
  Forall (λ a, a.1 ≤ t) old → Forall (λ a, t < a.1) new →
  reverse (old ++ new) !!
    lower_bound (newer_than t) (reverse (old ++ new)) = last old.
Proof.
  intros Hold Hnew. rewrite reverse_app.
  rewrite lower_bound_partition.
  - rewrite lookup_app_r by done. rewrite Nat.sub_diag.
    rewrite <- head_lookup. apply head_reverse.
  - apply Forall_forall. intros a Ha.
    rewrite elem_of_reverse in Ha. rewrite Forall_forall in Hnew.
    unfold newer_than. apply bool_decide_eq_true. by apply Hnew.
  - apply Forall_forall. intros a Ha.
    rewrite elem_of_reverse in Ha. rewrite Forall_forall in Hold.
    unfold newer_than. apply bool_decide_eq_false. specialize (Hold a Ha).
    lia.
Qed.

Lemma readBalance_split sys tx k old new :
  writeSet tx !! k = None →
  versionedData sys !! k = Some (old ++ new) →
  Forall (λ a, a.1 ≤ startTimestamp tx) old →
  Forall (λ a, startTimestamp tx < a.1) new →
  readBalance sys tx k =
  match last old with
  | Some (ts, value) =>
      (Returns value,
       {| readSet := <[k := (value, ts)]> (readSet tx);
          writeSet := writeSet tx;
          startTimestamp := startTimestamp tx |})
  | None =>
      (Throws (runtime_error ("No valid version found for account " +:+ pretty k)),
       tx)
  end.
Proof.
  intros Hw Hk Hold Hnew. unfold readBalance. rewrite Hw, Hk.
  cbv zeta. rewrite reversed_search by done.
  by destruct (last old) as [[ts value]|].
Qed.

End financial_reads.

(** ** The financial engine: the clock and the timestamps *)

Section financial_history.
Context {Balance : Type}.
Implicit Types (vd : gmap N (list (N * Balance))) (sys : System Balance).
Implicit Types (tx : Transaction Balance) (ops : list (Operation Balance)).

Lemma incr_no_wrap c : c + 1 < 2 ^ 32 → incr c = c + 1.
Proof. intros Hc. unfold incr. by apply N.mod_small. Qed.

(** The versions a commit appends carry the new clock value. *)
Lemma commit_grows tx sys k :
  ∃ extra,
    default [] (versionedData (commit tx sys).2 !! k) =
      default [] (versionedData sys !! k) ++ extra ∧
    Forall (λ a, a.1 = incr (globalClock sys)) extra.
Proof.
  eexists. split; [apply commit_versions|].
  destruct (commit tx sys).1; [|done].
  destruct (writeSet tx !! k); [|done]. by repeat constructor.
Qed.

(** Commits of other transactions only append versions newer than the clock
    they started from. *)
Lemma commits_grow (txs : list (Transaction Balance)) sys k :
  globalClock sys + N.of_nat (length txs) < 2 ^ 32 →
  globalClock (foldl perform sys (Commit <$> txs)) =
    globalClock sys + N.of_nat (length txs) ∧
  ∃ extra,
    default [] (versionedData (foldl perform sys (Commit <$> txs)) !! k) =
      default [] (versionedData sys !! k) ++ extra ∧
    Forall (λ a, globalClock sys < a.1) extra.
Proof.
  revert sys. induction txs as [|tx txs IH]; intros sys Hc.
  { simpl. split; [lia|]. exists []. by rewrite app_nil_r. }
  rewrite fmap_cons.
  change (foldl perform sys (Commit tx :: (Commit <$> txs)))
    with (foldl perform (commit tx sys).2 (Commit <$> txs)).
  cbn [length] in *. rewrite Nat2N.inj_succ in *.
  assert (globalClock (commit tx sys).2 = globalClock sys + 1) as Hclock.
  { rewrite commit_clock. apply incr_no_wrap. lia. }
  destruct (IH (commit tx sys).2) as (Hc' & extra' & Heq' & Hnew').
  { rewrite Hclock. lia. }
  split; [rewrite Hc', Hclock; lia|].
  destruct (commit_grows tx sys k) as (extra & Heq & Hnew).
  exists (extra ++ extra'). split.
  - by rewrite Heq', Heq, app_assoc.
  - apply Forall_app. split.
    + eapply Forall_impl; [exact Hnew|]. simpl. intros a ->.
      rewrite incr_no_wrap by lia. lia.
    + eapply Forall_impl; [exact Hnew'|]. simpl. intros a.
      rewrite Hclock. lia.
Qed.

Lemma createAccount_stamped k b sys :
  stamped_by_clock sys → stamped_by_clock (createAccount k b sys).2.
Proof.
  intros Hst k' versions. simpl. unfold emplace_back.
  destruct (decide (k = k')) as [->|Hne].
  - rewrite lookup_insert_eq. intros [= <-]. apply Forall_app. split.
    + destruct (versionedData sys !! k') eqn:Hk; simpl; [|done].
      by apply (Hst k').
    + repeat constructor. simpl. lia.
  - rewrite lookup_insert_ne by done. apply Hst.
Qed.

Lemma commit_stamped tx sys :
  globalClock sys + 1 < 2 ^ 32 →
  stamped_by_clock sys → stamped_by_clock (commit tx sys).2.
Proof.
  intros Hc Hst k versions Hk.
  destruct (commit_grows tx sys k) as (extra & Heq & Hnew).
  rewrite Hk in Heq. simpl in Heq. subst versions.
  rewrite commit_clock, incr_no_wrap by done.
  apply Forall_app. split.
  - destruct (versionedData sys !! k) eqn:Hold; simpl; [|done].
    eapply Forall_impl; [by apply (Hst k)|]. simpl. intros; lia.
  - eapply Forall_impl; [exact Hnew|]. simpl. intros a ->.
    rewrite incr_no_wrap by done. lia.
Qed.

(** After any operations with fewer than [2^32] commits among them, the
    clock has advanced by the number of commits and bounds every timestamp. *)
Lemma performs_clock ops sys :
  globalClock sys + N.of_nat (commits ops) < 2 ^ 32 →
  stamped_by_clock sys →
  globalClock (foldl perform sys ops) = globalClock sys + N.of_nat (commits ops) ∧
  stamped_by_clock (foldl perform sys ops).
Proof.
  revert sys. induction ops as [|[k b|tx] ops IH]; intros sys Hc Hst.
  - simpl. split; [lia|done].
  - change (foldl perform sys (CreateAccount k b :: ops))
      with (foldl perform (createAccount k b sys).2 ops).
    cbn [commits] in *.
    destruct (IH (createAccount k b sys).2) as [Hclock Hst'].
    + by rewrite createAccount_clock.
    + by apply createAccount_stamped.
    + split; [|done]. by rewrite Hclock, createAccount_clock.
  - change (foldl perform sys (Commit tx :: ops))
      with (foldl perform (commit tx sys).2 ops).
    cbn [commits] in *. rewrite Nat2N.inj_succ in *.
    assert (globalClock (commit tx sys).2 = globalClock sys + 1) as Hstep.
    { rewrite commit_clock. apply incr_no_wrap. lia. }
    destruct (IH (commit tx sys).2) as [Hclock Hst'].
    + rewrite Hstep. lia.
    + apply commit_stamped; [lia|done].
    + split; [|done]. rewrite Hclock, Hstep. lia.
Qed.

Lemma initial_stamped : stamped_by_clock (@initial Balance).
Proof. intros k versions Hk. simpl in Hk. by rewrite lookup_empty in Hk. Qed.

(** A commit keeps strictly ascending vectors strictly ascending. *)
Lemma commit_keeps_order tx sys :
  globalClock sys + 1 < 2 ^ 32 →
  stamped_by_clock sys →
  (∀ k versions, versionedData sys !! k = Some versions →
     strictly_ascending versions) →
  ∀ k versions, versionedData (commit tx sys).2 !! k = Some versions →
    strictly_ascending versions.
Proof.
  intros Hc Hst Hord k versions Hk.
  pose proof (commit_versions tx sys k) as Hv. rewrite Hk in Hv. simpl in Hv.
  assert (∀ old, versionedData sys !! k = Some old →
            StronglySorted N.lt old.*1 ∧
            Forall (λ a, a.1 ≤ globalClock sys) old) as Hold.
  { intros old Ho. split; [by apply (Hord k)|by apply (Hst k)]. }
  assert (StronglySorted N.lt (default [] (versionedData sys !! k)).*1 ∧
          Forall (λ a, a.1 ≤ globalClock sys)
            (default [] (versionedData sys !! k))) as [Hsorted Hbound].
  { destruct (versionedData sys !! k) as [old|]; simpl; [by apply Hold|].
    split; constructor. }
  unfold strictly_ascending. subst versions.
  destruct (commit tx sys).1; [|by rewrite app_nil_r].
  destruct (writeSet tx !! k) as [v|]; [|by rewrite app_nil_r].
  rewrite fmap_app. apply StronglySorted_app_2; [|done|by repeat constructor].
  intros x1 x2 Hx1 Hx2. apply list_elem_of_singleton in Hx2 as ->.
  apply list_elem_of_fmap in Hx1 as (a & -> & Ha).
  rewrite Forall_forall in Hbound. specialize (Hbound a Ha). simpl in *.
  rewrite incr_no_wrap by done. lia.
Qed.

(** [createAccount] for an absent account starts a vector at timestamp 0. *)
Lemma createAccount_fresh k b sys :
  versionedData sys !! k = None →
  createAccount k b sys =
  (Returns tt,
   {| versionedData := <[k := [(0, b)]]> (versionedData sys);
      globalClock := globalClock sys |}).
Proof. intros Hk. unfold createAccount, emplace_back. by rewrite Hk. Qed.

End financial_history.

(** ** The financial engine: attempts *)

Section financial_attempts.
Context {Balance : Type}.
Implicit Types (sys : System Balance) (tx : Transaction Balance).
Implicit Types (sched : list (list (Operation Balance))).

Lemma interfered_keeps sys sched k :
  is_Some (versionedData sys !! k) →
  is_Some (versionedData (interfered sys sched) !! k).
Proof. apply performs_keep. Qed.

(** A read enters an account into the read set only when the account has a
    vector. *)
Lemma readBalance_known sys tx k r tx' :
  readBalance sys tx k = (r, tx') →
  (∀ j, is_Some (readSet tx !! j) → is_Some (versionedData sys !! j)) →
  ∀ j, is_Some (readSet tx' !! j) → is_Some (versionedData sys !! j).
Proof.
  unfold readBalance. intros Hread Hknown.
  destruct (writeSet tx !! k); [by injection Hread as <- <-|].
  destruct (versionedData sys !! k) as [versions|] eqn:Hk;
    [|by injection Hread as <- <-].
  destruct (reverse versions !! _) as [[first second]|];
    [|by injection Hread as <- <-].
  injection Hread as <- <-. simpl. intros j.
  destruct (decide (k = j)) as [->|Hne].
  - by rewrite Hk.
  - rewrite lookup_insert_ne by done. apply Hknown.
Qed.

(** The closure changes the system by no operation of its own, and the
    accounts of its read set have vectors. *)
Lemma financial_run_elapsed logic tx sys sched r tx' sys' sched' :
  run logic tx sys sched = (r, tx', sys', sched') →
  (∀ j, is_Some (readSet tx !! j) → is_Some (versionedData sys !! j)) →
  (∀ j, is_Some (readSet tx' !! j) → is_Some (versionedData sys' !! j)) ∧
  ∃ n, sys' = elapsed perform sys sched n ∧ sched' = drop n sched.
Proof.
  revert tx sys sched.
  induction logic as [|e|accountId k IH|accountId newBalance k IH];
    intros tx sys sched Hrun Hknown; simpl in Hrun.
  - injection Hrun as <- <- <- <-. split; [done|]. by exists 0%nat.
  - injection Hrun as <- <- <- <-. split; [done|]. by exists 0%nat.
  - assert (∀ j, is_Some (readSet tx !! j) →
                 is_Some (versionedData (interfered sys sched) !! j)) as Hk1.
    { intros j Hj. by apply interfered_keeps, Hknown. }
    destruct (readBalance _ tx accountId) as [[v|e] tx1] eqn:Hread.
    + apply IH in Hrun as (Hk2 & n & -> & ->).
      * split; [done|]. exists (S n).
        unfold interfered. by rewrite elapsed_next, drop_tl.
      * by eapply readBalance_known.
    + injection Hrun as <- <- <- <-. split.
      * by eapply readBalance_known.
      * exists 1%nat. unfold interfered.
        by rewrite <- (elapsed_next perform sys sched 0), <- drop_tl.
  - by apply IH in Hrun.
Qed.

(** An attempt that does not commit leaves the vectors to the other
    threads. *)
Lemma financial_attempt_elapsed logic sys sched a sys' sched' :
  attempt logic sys sched = (a, sys', sched') →
  a ≠ Committed →
  ∃ n, versionedData sys' = versionedData (elapsed perform sys sched n) ∧
       sched' = drop n sched.
Proof.
  unfold attempt. intros Hatt Ha.
  destruct (run logic (new_transaction sys) sys sched)
    as [[[[[]|e] tx] sys1] sched1] eqn:Hrun;
    apply financial_run_elapsed in Hrun as (Hknown & n & -> & ->);
    try (intros j [x Hx]; simpl in Hx; by rewrite lookup_empty in Hx).
  - destruct (commit tx _) as [[] sys2] eqn:Hcommit;
      injection Hatt as <- <- <-; [done|].
    apply commit_conflict in Hcommit.
    + exists (n + 1)%nat. rewrite Hcommit, <- elapsed_add, <- drop_drop.
      unfold interfered.
      by rewrite <- (elapsed_next perform _ (drop n sched) 0), <- drop_tl.
    + intros j Hj. by apply interfered_keeps, Hknown.
  - injection Hatt as <- <- <-. by exists n.
Qed.

(** An attempt whose closure throws leaves the whole system, clock
    included, to the other threads. *)
Lemma financial_attempt_threw logic sys sched e sys' sched' :
  attempt logic sys sched = (Threw e, sys', sched') →
  ∃ n, sys' = elapsed perform sys sched n ∧ sched' = drop n sched.
Proof.
  unfold attempt. intros Hatt.
  destruct (run logic (new_transaction sys) sys sched)
    as [[[[[]|e'] tx] sys1] sched1] eqn:Hrun.
  - by destruct (commit tx _) as [[] sys2].
  - injection Hatt as <- <- <-.
    apply financial_run_elapsed in Hrun as (_ & n & -> & ->); [by exists n|].
    intros j [x Hx]. simpl in Hx. by rewrite lookup_empty in Hx.
Qed.

(** How the retry loop of a worker can end: a commit after fewer than
    [remaining] failed attempts, or [remaining] failed attempts. *)
Lemma financial_attempts_loop_outcome remaining logic sys sched past out :
  let ex := attempts_loop remaining logic sys sched past out in
  ∃ failed,
    Forall (λ a, a ≠ Committed) failed ∧
    ((success ex = true ∧ attempts ex = past ++ failed ++ [Committed] ∧
      (length failed < remaining)%nat)
     ∨ (success ex = false ∧ attempts ex = past ++ failed ∧
        length failed = remaining)).
Proof.
  revert sys sched past out.
  induction remaining as [|remaining IH]; intros sys sched past out; simpl.
  { exists []. split; [done|]. right. by rewrite app_nil_r. }
  destruct (attempt logic sys sched) as [[[| |e] sys1] sched1]; simpl.
  - exists []. split; [done|]. left. split; [done|]. split; [done|simpl; lia].
  - destruct (IH sys1 sched1 (past ++ [Conflict]) out)
      as (failed & Hfailed & Hcases).
    exists (Conflict :: failed). split; [by constructor|].
    rewrite <- !app_assoc in Hcases. simpl in *.
    destruct Hcases as [(? & ? & ?)|(? & ? & ?)]; [left|right];
      repeat split; try done; lia.
  - destruct (IH sys1 sched1 (past ++ [Threw e])
                (out ++ ["Transaction error: " +:+ what e]))
      as (failed & Hfailed & Hcases).
    exists (Threw e :: failed). split; [by constructor|].
    rewrite <- !app_assoc in Hcases. simpl in *.
    destruct Hcases as [(? & ? & ?)|(? & ? & ?)]; [left|right];
      repeat split; try done; lia.
Qed.

(** The loop writes one line for every exception it catches. *)
Lemma financial_attempts_loop_console remaining logic sys sched past out :
  let ex := attempts_loop remaining logic sys sched past out in
  ∃ new,
    attempts ex = past ++ new ∧
    console ex =
      out ++ omap (λ a, match a with
                        | Threw e => Some ("Transaction error: " +:+ what e)
                        | _ => None
                        end) new.
Proof.
  revert sys sched past out.
  induction remaining as [|remaining IH]; intros sys sched past out; simpl.
  { exists []. by rewrite !app_nil_r. }
  destruct (attempt logic sys sched) as [[[| |e] sys1] sched1]; simpl.
  - exists [Committed]. by rewrite app_nil_r.
  - destruct (IH sys1 sched1 (past ++ [Conflict]) out) as (new & Hatt & Hout).
    exists (Conflict :: new). by rewrite Hatt, Hout, <- app_assoc.
  - destruct (IH sys1 sched1 (past ++ [Threw e])
                (out ++ ["Transaction error: " +:+ what e]))
      as (new & Hatt & Hout).
    exists (Threw e :: new). by rewrite Hatt, Hout, <- !app_assoc.
Qed.

(** With an empty read set [commit] has nothing to validate: it succeeds. *)
Lemma financial_commit_no_reads tx sys :
  readSet tx = ∅ →
  commit tx sys =
  (true,
   {| versionedData :=
        foldl (publish (incr (globalClock sys))) (versionedData sys)
          (entries (writeSet tx));
      globalClock := incr (globalClock sys) |}).
Proof. intros Hrs. unfold commit. by rewrite Hrs, entries_empty. Qed.

End financial_attempts.

(** ** The financial engine: the priority queue *)

Section financial_queue.
Context {Balance : Type}.
Implicit Types (x y z : TransactionInfo Balance).
Implicit Types (q rest : list (TransactionInfo Balance)).

(** The comparison puts [lhs] below [rhs] exactly when [rhs] precedes
    [lhs]. *)
Lemma compare_precedes x y :
  CompareTransactionInfo x y = true ↔ precedes y x.
Proof.
  unfold CompareTransactionInfo, precedes.
  destruct (decide (priority x ≠ priority y)) as [Hne|Heq].
  - rewrite bool_decide_eq_true. lia.
  - rewrite bool_decide_eq_true. lia.
Qed.

Lemma compare_not_precedes x y :
  CompareTransactionInfo x y = false ↔ ¬ precedes y x.
Proof. rewrite <- compare_precedes. by destruct (CompareTransactionInfo x y). Qed.

Lemma not_precedes_trans x y z :
  ¬ precedes y x → ¬ precedes z y → ¬ precedes z x.
Proof. unfold precedes. lia. Qed.

Lemma precedes_asym x y : precedes x y → ¬ precedes y x.
Proof. unfold precedes. lia. Qed.

(** [extract] removes one element, and no element of the queue precedes
    it. *)
Lemma extract_top q x rest :
  extract q = Some (x, rest) →
  q ≡ₚ x :: rest ∧ ∀ y, y ∈ q → ¬ precedes y x.
Proof.
  revert x rest. induction q as [|a q IH]; intros x rest Hex; [done|].
  simpl in Hex. destruct (extract q) as [[y r]|] eqn:Hq.
  - destruct (IH y r eq_refl) as [Hperm Hmax].
    destruct (CompareTransactionInfo a y) eqn:Hcmp; injection Hex as <- <-.
    + split.
      { rewrite Hperm. apply Permutation_swap. }
      intros z Hz. apply elem_of_cons in Hz as [->|Hz]; [|by apply Hmax].
      apply precedes_asym. by apply compare_precedes.
    + split; [done|]. apply compare_not_precedes in Hcmp.
      intros z Hz. apply elem_of_cons in Hz as [->|Hz].
      { unfold precedes. lia. }
      eapply not_precedes_trans; [exact Hcmp|]. by apply Hmax.
  - injection Hex as <- <-. destruct q as [|b q]; [|simpl in Hq].
    + split; [done|]. intros z Hz. apply list_elem_of_singleton in Hz as ->.
      unfold precedes. lia.
    + destruct (extract q) as [[y r]|]; [|done].
      by destruct (CompareTransactionInfo b y).
Qed.

Lemma extract_nonempty a q : is_Some (extract (a :: q)).
Proof.
  simpl. destruct (extract q) as [[y r]|]; [|done].
  by destruct (CompareTransactionInfo a y).
Qed.

Lemma drain_elem fuel q x : x ∈ drain fuel q → x ∈ q.
Proof.
  revert q. induction fuel as [|fuel IH]; intros q Hx; simpl in Hx.
  { by apply elem_of_nil in Hx. }
  destruct (extract q) as [[y rest]|] eqn:Hq; [|by apply elem_of_nil in Hx].
  apply extract_top in Hq as [Hperm _]. rewrite Hperm.
  apply elem_of_cons in Hx as [->|Hx]; [by left|]. right. by apply IH.
Qed.

(** A queue is emptied in the order of the scheduler: no descriptor is
    dispatched after one that it precedes. *)
Lemma drain_ordered fuel q :
  StronglySorted (λ x y, ¬ precedes y x) (drain fuel q).
Proof.
  revert q. induction fuel as [|fuel IH]; intros q; simpl; [constructor|].
  destruct (extract q) as [[x rest]|] eqn:Hq; [|constructor].
  constructor; [apply IH|].
  apply extract_top in Hq as [Hperm Hmax].
  apply Forall_forall. intros y Hy. apply Hmax. rewrite Hperm.
  right. by eapply drain_elem.
Qed.

Lemma drain_all q : drain (length q) q ≡ₚ q.
Proof.
  remember (length q) as n eqn:Hn. revert q Hn.
  induction n as [|n IH]; intros q Hn.
  { by destruct q. }
  destruct q as [|a q]; [done|]. cbn [drain].
  destruct (extract_nonempty a q) as [[x rest] Hq]. rewrite Hq.
  apply extract_top in Hq as [Hperm _]. rewrite Hperm.
  constructor. apply IH.
  apply Permutation_length in Hperm. simpl in *. lia.
Qed.

End financial_queue.

(** ** The hybrid engine *)

Lemma hybrid_run_elapsed logic tx sys sched r tx' sys' sched' :
  Hybrid.run logic tx sys sched = (r, tx', sys', sched') →
  ∃ n, sys' = elapsed Hybrid.perform sys sched n ∧ sched' = drop n sched.
Proof.
  revert tx sys sched.
  induction logic as [|e|location k IH|location value k IH];
    intros tx sys sched Hrun; simpl in Hrun.
  - injection Hrun as <- <- <- <-. by exists 0%nat.
  - injection Hrun as <- <- <- <-. by exists 0%nat.
  - destruct (Hybrid.fetch _ tx location) as [[v|e] tx1] eqn:Hfetch.
    + apply IH in Hrun as (n & -> & ->). exists (S n).
      unfold Hybrid.interfered. by rewrite elapsed_next, drop_tl.
    + injection Hrun as <- <- <- <-. exists 1%nat.
      unfold Hybrid.interfered.
      by rewrite <- (elapsed_next Hybrid.perform sys sched 0), <- drop_tl.
  - by apply IH in Hrun.
Qed.

(** An attempt whose closure throws leaves the system to the other
    threads. *)
Lemma hybrid_attempt_threw htm logic sys sched draw e sys' sched' :
  Hybrid.attempt htm logic sys sched draw = (Threw e, sys', sched') →
  ∃ n, sys' = elapsed Hybrid.perform sys sched n ∧ sched' = drop n sched.
Proof.
  unfold Hybrid.attempt. intros Hatt.
  destruct (Hybrid.run logic (Hybrid.new_transaction htm) sys sched)
    as [[[[[]|e'] tx] sys1] sched1] eqn:Hrun.
  - by destruct (Hybrid.finalize _ _ _) as [[] ds].
  - injection Hatt as <- <- <-. by eapply hybrid_run_elapsed.
Qed.

Lemma hybrid_attempts_loop_outcome remaining n logic sys sched draw past :
  let ex := Hybrid.attempts_loop remaining n logic sys sched draw past in
  ∃ failed,
    Forall (λ a, a ≠ Committed) failed ∧
    ((Hybrid.success ex = true ∧
      Hybrid.attempts ex = past ++ failed ++ [Committed] ∧
      (length failed < remaining)%nat)
     ∨ (Hybrid.success ex = false ∧ Hybrid.attempts ex = past ++ failed ∧
        length failed = remaining)).
Proof.
  revert n sys sched past.
  induction remaining as [|remaining IH]; intros n sys sched past; simpl.
  { exists []. split; [done|]. right. by rewrite app_nil_r. }
  destruct (Hybrid.attempt _ logic sys sched draw) as [[a sys1] sched1].
  destruct a as [| |e]; simpl.
  - exists []. split; [done|]. left. split; [done|]. split; [done|simpl; lia].
  - lazymatch goal with
    | |- context [Hybrid.attempts_loop remaining ?n' logic ?s ?sc draw ?p] =>
        destruct (IH n' s sc p) as (failed & Hfailed & Hcases)
    end.
    exists (Conflict :: failed). split; [by constructor|].
    rewrite <- !app_assoc in Hcases. simpl in *.
    destruct Hcases as [(? & ? & ?)|(? & ? & ?)]; [left|right];
      repeat split; try done; lia.
  - lazymatch goal with
    | |- context [Hybrid.attempts_loop remaining ?n' logic ?s ?sc draw ?p] =>
        destruct (IH n' s sc p) as (failed & Hfailed & Hcases)
    end.
    exists (Threw e :: failed). split; [by constructor|].
    rewrite <- !app_assoc in Hcases. simpl in *.
    destruct Hcases as [(? & ? & ?)|(? & ? & ?)]; [left|right];
      repeat split; try done; lia.
Qed.

(** ** The scheduled engine: retry without a budget *)

Lemma incr_neq v : incr v ≠ v.
Proof.
  unfold incr. intros Heq.
  assert (v < 2 ^ 32) as Hv.
  { rewrite <- Heq. by apply N.mod_upper_bound. }
  destruct (decide (v + 1 < 2 ^ 32)) as [Hsmall|Hwrap].
  - rewrite N.mod_small in Heq by done. lia.
  - assert (v + 1 = 2 ^ 32) as Hfull by lia.
    rewrite Hfull, N.Div0.mod_same in Heq. lia.
Qed.

Lemma advanced_validate_stale (ds : gmap N Advanced.DataCell) rs k c rv :
  (k, (c, rv)) ∈ rs →
  (∀ cell, ds !! k = Some cell → Advanced.version cell ≠ rv) →
  Advanced.validate ds rs = false.
Proof.
  intros Hin Hstale. induction rs as [|[loc [c' rv']] rs IH]; simpl.
  { by apply elem_of_nil in Hin. }
  destruct (ds !! loc) as [cell|] eqn:Hcell; [|done].
  destruct (decide (Advanced.version cell ≠ rv')) as [|Hsame]; [done|].
  apply elem_of_cons in Hin as [Heq|Hin]; [|by apply IH].
  injection Heq as -> -> ->. exfalso. apply Hsame. by apply Hstale.
Qed.

(** One round of the adversary: the attempt ends in a conflict, and the two
    cells are still there for the next round. *)
Lemma advanced_attempt_conflict (ds : gmap N Advanced.DataCell) sched :
  is_Some (ds !! 100) → is_Some (ds !! 200) →
  ∃ ds',
    Advanced.attempt false Advanced.incrementOperation ds
      ([] :: [] :: [Advanced.Commit Advanced.overwrite] :: sched)
    = (Conflict, ds', sched) ∧
    is_Some (ds' !! 100) ∧ is_Some (ds' !! 200).
Proof.
  intros [c1 H1] [c2 H2].
  set (ds' := foldl Advanced.publish ds
                (entries (Advanced.writeSet Advanced.overwrite))).
  assert (ds' !! 100 =
          Some {| Advanced.content := 0;
                  Advanced.version := incr (Advanced.version c1) |}) as H1'.
  { unfold ds'. rewrite advanced_published. simpl.
    by rewrite lookup_singleton_eq, H1. }
  assert (ds' !! 200 = Some c2) as H2'.
  { unfold ds'. rewrite advanced_published. simpl.
    by rewrite lookup_singleton_ne. }
  exists ds'. split; [|by rewrite H1', H2'].
  unfold Advanced.attempt, Advanced.incrementOperation. cbn [Advanced.run].
  unfold Advanced.interfered at 1. cbn [hd foldl tl].
  rewrite (advanced_read_store ds _ 100 c1) by done.
  unfold Advanced.interfered at 1. cbn [hd foldl tl].
  rewrite (advanced_read_store ds _ 200 c2) by done.
  unfold Advanced.interfered. cbn [hd foldl tl Advanced.perform].
  rewrite (advanced_commit_no_reads Advanced.overwrite) by done.
  cbn [snd]. fold ds'. unfold Advanced.commit.
  rewrite (advanced_validate_stale ds' _ 100 (Advanced.content c1)
             (Advanced.version c1)); [done| |].
  - apply elem_of_entries. cbn.
    rewrite lookup_insert_ne by done. by rewrite lookup_insert_eq.
  - intros cell Hcell. rewrite H1' in Hcell. injection Hcell as <-.
    simpl. apply incr_neq.
Qed.

(** Against the adversary the task is still running after any number of
    invocations of the closure. *)
Lemma advanced_task_unbounded n (ds : gmap N Advanced.DataCell) past :
  is_Some (ds !! 100) → is_Some (ds !! 200) →
  Advanced.transaction_task n Advanced.incrementOperation ds
    (Advanced.adversary n) past = None.
Proof.
  revert ds past. induction n as [|n IH]; intros ds past H1 H2; [done|].
  cbn [Advanced.transaction_task Advanced.adversary].
  destruct (advanced_attempt_conflict ds (Advanced.adversary n) H1 H2)
    as (ds' & -> & H1' & H2').
  by apply IH.
Qed.

(** ** The scenarios, evaluated *)

(** Scenario S1, one thread after the other: the cells 100 and 200 hold 5
    and 10, and two runs of [incrementOperation] leave 7 and 12, each run
    committing at its first attempt. *)
Example increments_commit :
  let ds : gmap N STM.DataCell :=
    (STM.initializeMemory 200 10 (STM.initializeMemory 100 5 ∅).2).2 in
  let once := STM.executeTransaction STM.incrementOperation ds [] in
  let twice := STM.executeTransaction STM.incrementOperation (STM.final once) [] in
  STM.attempts once = [Committed] ∧ STM.attempts twice = [Committed] ∧
  STM.content <$> STM.final twice !! 100 = Some 7%Z ∧
  STM.content <$> STM.final twice !! 200 = Some 12%Z.
Proof. vm_compute. done. Qed.

(** Scenario S2 with three attempts: a conflict at the first commit, a commit
    at the second attempt. *)
Example conflict_then_commit :
  let ds : gmap N STM.DataCell :=
    (STM.initializeMemory 200 10 (STM.initializeMemory 100 5 ∅).2).2 in
  let other := STM.Finalize (STM.store STM.new_transaction 100 0) in
  let ex := STM.executeTransaction STM.incrementOperation ds [[]; []; [other]] in
  STM.attempts ex = [Conflict; Committed] ∧
  STM.content <$> STM.final ex !! 100 = Some 1%Z ∧
  STM.content <$> STM.final ex !! 200 = Some 11%Z.
Proof. vm_compute. done. Qed.

(** A trade of 5000 between the accounts of [main]: one attempt, one commit
    at timestamp 1, one line on the console. *)
Example trade_commits :
  let ex := process (Scenario.stock_trade 1 2 5000 0) Scenario.two_accounts [] in
  success ex = true ∧ attempts ex = [Committed] ∧
  versionedData (final ex) !! 1 = Some [(0, 10000%Z); (1, 5000%Z)] ∧
  versionedData (final ex) !! 2 = Some [(0, 20000%Z); (1, 25000%Z)] ∧
  globalClock (final ex) = 1 ∧
  console ex = ["Transaction succeeded: Stock trade"].
Proof. vm_compute. done. Qed.

(** Scenario S3: a trade of 50000 from account 1 leaves both accounts
    unchanged. *)
Example insufficient_funds :
  let ex := process (Scenario.stock_trade 1 2 50000 0) Scenario.two_accounts [] in
  success ex = false ∧ final ex = Scenario.two_accounts.
Proof. vm_compute. done. Qed.

(** * The claims *)

(** ** C1: reads within one attempt *)

(** C1, as stated, fails for [fetch]: the cell 100 holds 5 when a transaction
    first fetches it; another transaction then commits 9 to the cell; the
    second fetch of the same transaction returns 9, not 5. *)
Lemma fetch_twice_differs :
  let ds : gmap N STM.DataCell := (STM.initializeMemory 100 5 ∅).2 in
  let other := STM.store STM.new_transaction 100 9 in
  let first := STM.fetch ds STM.new_transaction 100 in
  let ds' := (STM.finalizeTransaction other ds).2 in
  let second := STM.fetch ds' first.2 100 in
  first.1 = Returns 5%Z ∧ second.1 = Returns 9%Z.
Proof. vm_compute. done. Qed.

(** The reading of the financial engine is stable under the commits of
    other transactions. *)
Lemma readBalance_stable {Balance : Type} (sys : System Balance) tx k
    (others : list (Transaction Balance)) value tx1 :
  ascending (default [] (versionedData sys !! k)) →
  startTimestamp tx ≤ globalClock sys →
  globalClock sys + N.of_nat (length others) < 2 ^ 32 →
  readBalance sys tx k = (Returns value, tx1) →
  (readBalance (foldl perform sys (Commit <$> others)) tx1 k).1 = Returns value.
Proof.
  intros Hasc Hstart Hwrap Hread.
  destruct (writeSet tx !! k) as [buffered|] eqn:Hw.
  { unfold readBalance in *. rewrite Hw in Hread. injection Hread as <- <-.
    by rewrite Hw. }
  destruct (versionedData sys !! k) as [versions|] eqn:Hk; last first.
  { unfold readBalance in Hread. by rewrite Hw, Hk in Hread. }
  simpl in Hasc.
  destruct (ascending_split versions (startTimestamp tx) Hasc)
    as (old & new & -> & Hold & Hnew).
  rewrite (readBalance_split sys tx k old new) in Hread by done.
  destruct (commits_grow others sys k Hwrap) as (_ & extra & Hgrow & Hextra).
  rewrite Hk in Hgrow. simpl in Hgrow.
  destruct (performs_keep sys (Commit <$> others) k) as [versions' Hk'].
  { by rewrite Hk. }
  rewrite Hk' in Hgrow. simpl in Hgrow. subst versions'.
  destruct (last old) as [[ts v]|] eqn:Hlast; [|done].
  injection Hread as <- <-.
  rewrite (readBalance_split _ _ k old (new ++ extra)); simpl.
  - by rewrite Hlast.
  - done.
  - by rewrite Hk', app_assoc.
  - done.
  - apply Forall_app. split; [done|].
    eapply Forall_impl; [exact Hextra|]. simpl. intros; lia.
Qed.

(** No read consults what the transaction recorded before: the returned
    value is the same whatever the read set or read log holds. *)
Lemma readBalance_ignores_readSet {Balance : Type} (sys : System Balance) tx k
    (recorded : gmap N (Balance * N)) :
  (readBalance sys
     {| readSet := recorded; writeSet := writeSet tx;
        startTimestamp := startTimestamp tx |} k).1
  = (readBalance sys tx k).1.
Proof.
  unfold readBalance. cbn [writeSet startTimestamp].
  destruct (writeSet tx !! k) as [buffered|]; [done|].
  destruct (versionedData sys !! k) as [versions|]; [|done].
  by destruct (reverse versions !! _) as [[first second]|].
Qed.

Lemma stm_fetch_ignores_log (ds : gmap N STM.DataCell) tx location
    (recorded : gmap N N) :
  (STM.fetch ds
     {| STM.readLog := recorded; STM.writeBuffer := STM.writeBuffer tx |}
     location).1
  = (STM.fetch ds tx location).1.
Proof.
  unfold STM.fetch. cbn [STM.writeBuffer].
  destruct (STM.writeBuffer tx !! location) as [buffered|]; [done|].
  by destruct (ds !! location) as [cell|].
Qed.

Lemma advanced_read_ignores_set (ds : gmap N Advanced.DataCell) tx location
    (recorded : gmap N (Z * N)) :
  (Advanced.read ds
     {| Advanced.readSet := recorded;
        Advanced.writeSet := Advanced.writeSet tx;
        Advanced.isSpeculative := Advanced.isSpeculative tx |} location).1
  = (Advanced.read ds tx location).1.
Proof.
  unfold Advanced.read. cbn [Advanced.writeSet].
  destruct (Advanced.writeSet tx !! location) as [buffered|]; [done|].
  by destruct (ds !! location) as [cell|].
Qed.

(** C1, amended: in the financial engine a second [readBalance] of an account
    returns the balance of the first even when other transactions commit in
    between (the vector of the account ascending, the transaction started at
    or before the clock, the clock not wrapping); it does so by searching the
    store again at [startTimestamp], for what it returns does not depend on
    what the read set holds.  [fetch] and [read] of the engines with
    modification counters return what the cell holds at the call and
    overwrite the entry of the read log or read set, so two calls agree when
    the cell is the same at both; what they return does not depend on what
    was recorded either. *)
Theorem read_twice {Balance : Type} :
  (∀ (sys : System Balance) tx k (others : list (Transaction Balance)) value tx1,
     ascending (default [] (versionedData sys !! k)) →
     startTimestamp tx ≤ globalClock sys →
     globalClock sys + N.of_nat (length others) < 2 ^ 32 →
     readBalance sys tx k = (Returns value, tx1) →
     (readBalance (foldl perform sys (Commit <$> others)) tx1 k).1
     = Returns value)
  ∧ (∀ (ds : gmap N STM.DataCell) tx location cell,
       STM.writeBuffer tx !! location = None →
       ds !! location = Some cell →
       STM.fetch ds tx location =
       (Returns (STM.content cell),
        {| STM.readLog :=
             <[location := STM.modificationCount cell]> (STM.readLog tx);
           STM.writeBuffer := STM.writeBuffer tx |}))
  ∧ (∀ (ds ds' : gmap N STM.DataCell) tx location,
       ds' !! location = ds !! location →
       (STM.fetch ds' (STM.fetch ds tx location).2 location).1 =
       (STM.fetch ds tx location).1)
  ∧ (∀ (ds : gmap N Advanced.DataCell) tx location cell,
       Advanced.writeSet tx !! location = None →
       ds !! location = Some cell →
       Advanced.read ds tx location =
       (Returns (Advanced.content cell),
        {| Advanced.readSet :=
             <[location := (Advanced.content cell, Advanced.version cell)]>
               (Advanced.readSet tx);
           Advanced.writeSet := Advanced.writeSet tx;
           Advanced.isSpeculative := Advanced.isSpeculative tx |}))
  ∧ (∀ (ds ds' : gmap N Advanced.DataCell) tx location,
       ds' !! location = ds !! location →
       (Advanced.read ds' (Advanced.read ds tx location).2 location).1 =
       (Advanced.read ds tx location).1)
  ∧ (∀ (sys : System Balance) tx k (recorded : gmap N (Balance * N)),
       (readBalance sys
          {| readSet := recorded; writeSet := writeSet tx;
             startTimestamp := startTimestamp tx |} k).1
       = (readBalance sys tx k).1)
  ∧ (∀ (ds : gmap N STM.DataCell) tx location (recorded : gmap N N),
       (STM.fetch ds
          {| STM.readLog := recorded; STM.writeBuffer := STM.writeBuffer tx |}
          location).1
       = (STM.fetch ds tx location).1)
  ∧ (∀ (ds : gmap N Advanced.DataCell) tx location (recorded : gmap N (Z * N)),
       (Advanced.read ds
          {| Advanced.readSet := recorded;
             Advanced.writeSet := Advanced.writeSet tx;
             Advanced.isSpeculative := Advanced.isSpeculative tx |} location).1
       = (Advanced.read ds tx location).1).
Proof.
  split; [apply @readBalance_stable|].
  split; [apply stm_fetch_store|].
  split; [apply stm_fetch_twice|].
  split; [apply advanced_read_store|].
  split; [apply advanced_read_twice|].
  split; [apply @readBalance_ignores_readSet|].
  split; [apply stm_fetch_ignores_log|apply advanced_read_ignores_set].
Qed.

(** Scenario S5: a transaction reads account 1, another commits to it, and
    the first reads 10000 again. *)
Lemma read_twice_witness :
  let sys := Scenario.two_accounts in
  let first := readBalance sys (new_transaction sys) 1 in
  first.1 = Returns 10000%Z ∧
  (readBalance (foldl perform sys (Commit <$> [Scenario.deposit 9])) first.2 1).1
  = Returns 10000%Z.
Proof.
  cbv zeta. split; [by vm_compute|].
  apply (proj1 (@read_twice Z) Scenario.two_accounts
           (new_transaction Scenario.two_accounts) 1 [Scenario.deposit 9]).
  - vm_compute. repeat constructor.
  - vm_compute. discriminate.
  - by vm_compute.
  - by vm_compute.
Defined.

(** ** C2: the commit clock *)

Lemma latest_timestamp_bound {Balance : Type}
    (vd : gmap N (list (N * Balance))) c :
  (∀ k versions, vd !! k = Some versions → Forall (λ a, a.1 ≤ c) versions) →
  latest_timestamp vd ≤ c.
Proof.
  unfold latest_timestamp.
  apply (map_fold_weak_ind
    (λ r (m : gmap N (list (N * Balance))),
       (∀ k versions, m !! k = Some versions →
          Forall (λ a, a.1 ≤ c) versions) → r ≤ c)).
  { intros _. lia. }
  intros i x m r Hi IH Hall.
  assert (r ≤ c) as Hr.
  { apply IH. intros k versions Hk. apply (Hall k).
    rewrite lookup_insert_ne; [done|]. intros ->. congruence. }
  specialize (Hall i x (lookup_insert_eq _ _ _)).
  induction Hall as [|a x Ha _ IHx]; simpl; [done|].
  apply N.max_lub; [exact Ha|exact IHx].
Qed.

(** C2, as stated, fails: account 1 is created and committed once, so the
    clock and the latest timestamp are 1; a transaction that read the account
    at timestamp 0 then commits and conflicts; the clock is 2 although no
    version carries a timestamp beyond 1. *)
Lemma conflict_advances_clock :
  let sys : System Z :=
    foldl perform initial [CreateAccount 1 10000%Z; Commit (Scenario.deposit 5)] in
  let after := commit Scenario.stale_update sys in
  globalClock sys = 1 ∧ latest_timestamp (versionedData sys) = 1 ∧
  after.1 = false ∧
  globalClock after.2 = 2 ∧ latest_timestamp (versionedData after.2) = 1.
Proof. vm_compute. done. Qed.

(** C2, amended: every call of [commit], conflicting or not, sets the clock
    to its successor modulo [2^32], and [createAccount] leaves it alone; so
    after any calls of [createAccount] and [commit] with fewer than [2^32]
    commits among them the clock is the number of commits and is at least
    every timestamp of the store. *)
Theorem clock_counts_commits {Balance : Type} :
  (∀ (tx : Transaction Balance) sys,
     globalClock (commit tx sys).2 = incr (globalClock sys))
  ∧ (∀ k (b : Balance) sys,
       globalClock (createAccount k b sys).2 = globalClock sys)
  ∧ (∀ ops : list (Operation Balance),
       N.of_nat (commits ops) < 2 ^ 32 →
       globalClock (foldl perform initial ops) = N.of_nat (commits ops) ∧
       stamped_by_clock (foldl perform initial ops) ∧
       latest_timestamp (versionedData (foldl perform initial ops))
       ≤ globalClock (foldl perform initial ops)).
Proof.
  split; [apply commit_clock|]. split; [apply createAccount_clock|].
  intros ops Hops.
  destruct (performs_clock ops initial) as [Hclock Hst];
    [done|apply initial_stamped|].
  split; [done|]. split; [done|]. by apply latest_timestamp_bound.
Qed.

Lemma clock_counts_commits_witness :
  let ops := [CreateAccount 1 10000%Z; Commit (Scenario.deposit 5);
              Commit Scenario.stale_update] in
  N.of_nat (commits ops) < 2 ^ 32 ∧
  globalClock (foldl perform initial ops) = 2 ∧
  latest_timestamp (versionedData (foldl perform initial ops)) ≤ 2.
Proof.
  cbv zeta.
  pose proof (proj2 (proj2 (@clock_counts_commits Z))
                [CreateAccount 1 10000%Z; Commit (Scenario.deposit 5);
                 Commit Scenario.stale_update]) as H.
  assert (N.of_nat (commits
            [CreateAccount 1 10000%Z; Commit (Scenario.deposit 5);
             Commit Scenario.stale_update]) < 2 ^ 32) as Hlt by (by vm_compute).
  destruct (H Hlt) as (Hclock & _ & Hlatest).
  split; [exact Hlt|]. split; [exact Hclock|].
  rewrite Hclock in Hlatest. exact Hlatest.
Defined.

(** ** C3: atomicity of a failed attempt *)

(** C3: a commit that detects a conflict leaves the store as it is, and an
    attempt that ends in a conflict or in an exception of the closure leaves
    in the store only what the other threads did meanwhile ([elapsed]), in
    the basic engine ([finalizeTransaction]) as in the financial one
    ([commit], where the vectors stay and the clock advances); without
    other threads the store after the attempt is the store before it.  A
    call of [executeTransaction] that does not commit likewise leaves only
    what the other threads did. *)
Theorem failed_attempt_writes_nothing {Balance : Type} :
  (∀ tx (ds ds' : gmap N STM.DataCell),
     STM.finalizeTransaction tx ds = (false, ds') → ds' = ds)
  ∧ (∀ logic (ds : gmap N STM.DataCell) sched a ds' sched',
       STM.attempt logic ds sched = (a, ds', sched') →
       a ≠ Committed →
       ∃ n, ds' = elapsed STM.perform ds sched n ∧ sched' = drop n sched)
  ∧ (∀ (tx : Transaction Balance) sys sys',
       (∀ k, is_Some (readSet tx !! k) → is_Some (versionedData sys !! k)) →
       commit tx sys = (false, sys') →
       versionedData sys' = versionedData sys)
  ∧ (∀ logic (sys : System Balance) sched a sys' sched',
       attempt logic sys sched = (a, sys', sched') →
       a ≠ Committed →
       ∃ n, versionedData sys' = versionedData (elapsed perform sys sched n) ∧
            sched' = drop n sched)
  ∧ (∀ logic (sys : System Balance) a sys' sched',
       attempt logic sys [] = (a, sys', sched') →
       a ≠ Committed →
       versionedData sys' = versionedData sys)
  ∧ (∀ logic (ds : gmap N STM.DataCell) sched,
       STM.result (STM.executeTransaction logic ds sched) ≠ Returns tt →
       ∃ n, STM.final (STM.executeTransaction logic ds sched)
            = elapsed STM.perform ds sched n).
Proof.
  split; [apply stm_finalize_conflict|].
  split; [apply stm_attempt_elapsed|].
  split; [apply @commit_conflict|].
  split; [apply @financial_attempt_elapsed|].
  split.
  - intros logic sys a sys' sched' Hatt Ha.
    destruct (financial_attempt_elapsed _ _ _ _ _ _ Hatt Ha) as (n & -> & _).
    by rewrite elapsed_nil.
  - intros logic ds sched Hres.
    destruct (stm_attempts_loop_elapsed 3 logic ds sched [] Hres) as (n & Hn & _).
    by exists n.
Qed.

(** Scenario S5, the commit: the trade reads both accounts, another thread
    commits to account 1, and the commit of the trade conflicts; the vectors
    are those the other thread left. *)
Lemma failed_attempt_writes_nothing_witness :
  let sched := [[]; []; [Commit (Scenario.deposit 9)]] in
  let sys := Scenario.two_accounts in
  let after := attempt (Scenario.executeTrade 1 2 500) sys sched in
  after.1.1 = Conflict ∧
  ∃ n, versionedData after.1.2 = versionedData (elapsed perform sys sched n) ∧
       after.2 = drop n sched.
Proof.
  cbv zeta. split; [by vm_compute|].
  apply (proj1 (proj2 (proj2 (proj2 (@failed_attempt_writes_nothing Z))))
           (Scenario.executeTrade 1 2 500) Scenario.two_accounts
           [[]; []; [Commit (Scenario.deposit 9)]] Conflict).
  - by vm_compute.
  - discriminate.
Defined.

(** ** C4: reading at a timestamp *)




(** ** C5: initialisation *)

(** C5, as stated, fails: initialising the location 100 a second time returns
    normally (the store is unchanged), and so does creating account 1 a
    second time; neither call fails. *)
Lemma initialize_twice_returns :
  let ds : gmap N STM.DataCell := (STM.initializeMemory 100 5 ∅).2 in
  let sys : System Z := (createAccount 1 10000%Z initial).2 in
  STM.initializeMemory 100 7 ds = (Returns tt, ds) ∧
  (createAccount 1 30000%Z sys).1 = Returns tt.
Proof. vm_compute. done. Qed.

(** C5, amended: initialisation never fails.  [initializeMemory] on a
    location that is initialized leaves the store unchanged and returns; on
    an absent key [initializeMemory] creates a cell with the value and the
    modification count 0, and [createAccount] creates the vector of the one
    version [(0, value)]. *)
Theorem initialize_once {Balance : Type} :
  (∀ location value (ds : gmap N STM.DataCell),
     is_Some (ds !! location) →
     STM.initializeMemory location value ds = (Returns tt, ds))
  ∧ (∀ location value (ds : gmap N STM.DataCell),
       ds !! location = None →
       STM.initializeMemory location value ds =
       (Returns tt,
        <[location := {| STM.content := value;
                         STM.modificationCount := 0 |}]> ds))
  ∧ (∀ k (b : Balance) sys,
       versionedData sys !! k = None →
       createAccount k b sys =
       (Returns tt,
        {| versionedData := <[k := [(0, b)]]> (versionedData sys);
           globalClock := globalClock sys |}))
  ∧ (∀ k (b : Balance) sys, (createAccount k b sys).1 = Returns tt).
Proof.
  split; [apply stm_initialize_existing|].
  split; [apply stm_initialize_fresh|].
  split; [apply @createAccount_fresh|done].
Qed.

Lemma initialize_once_witness :
  let ds : gmap N STM.DataCell := (STM.initializeMemory 100 5 ∅).2 in
  is_Some (ds !! 100) ∧
  STM.initializeMemory 100 7 ds = (Returns tt, ds) ∧
  createAccount 1 10000%Z initial =
    (Returns tt, {| versionedData := {[ 1 := [(0, 10000%Z)] ]}; globalClock := 0 |}).
Proof.
  cbv zeta.
  assert (is_Some ((STM.initializeMemory 100 5 ∅).2 !! 100)) as Hsome.
  { vm_compute. by eexists. }
  split; [exact Hsome|]. split.
  - exact (proj1 (@initialize_once Z) 100 7%Z _ Hsome).
  - exact (proj1 (proj2 (proj2 (@initialize_once Z))) 1 10000%Z initial
             (lookup_empty 1)).
Defined.

(** ** C6 and C7: exceptions of the closure and the retry budget *)

Section financial_process.
Context {Balance : Type}.
Implicit Types (info : TransactionInfo Balance) (sys : System Balance).

(** How [process] can end. *)
Lemma process_outcome info sys sched :
  let ex := process info sys sched in
  ∃ failed,
    Forall (λ a, a ≠ Committed) failed ∧
    ((success ex = true ∧ attempts ex = failed ++ [Committed] ∧
      (length failed < 10)%nat ∧
      last (console ex) =
        Some ("Transaction succeeded: " +:+ description info))
     ∨ (success ex = false ∧ attempts ex = failed ∧ length failed = 10%nat ∧
        last (console ex) =
          Some ("Transaction failed after 10 attempts: " +:+ description info))).
Proof.
  unfold process.
  destruct (financial_attempts_loop_outcome maxAttempts (logic info) sys sched
              [] []) as (failed & Hfailed & Hcases).
  exists failed. split; [done|]. cbn [success attempts console].
  destruct Hcases as [(-> & Hatt & Hlen)|(-> & Hatt & Hlen)]; [left|right];
    rewrite last_snoc; by repeat split.
Qed.

(** The console after [process]: one line for every exception caught, in
    order, and the line that reports the end. *)
Lemma process_console info sys sched :
  console (process info sys sched) =
  omap (λ a, match a with
             | Threw e => Some ("Transaction error: " +:+ what e)
             | _ => None
             end) (attempts (process info sys sched))
  ++ [if success (process info sys sched)
      then "Transaction succeeded: " +:+ description info
      else "Transaction failed after 10 attempts: " +:+ description info].
Proof.
  unfold process. cbn [success attempts console].
  destruct (financial_attempts_loop_console maxAttempts (logic info) sys sched
              [] []) as (new & Hatt & Hout).
  rewrite Hout, Hatt. reflexivity.
Qed.

(** An invocation that throws is followed by another one, unless it is the
    tenth. *)
Lemma process_retries_exception info sys sched i e :
  attempts (process info sys sched) !! i = Some (Threw e) →
  (i < 9)%nat →
  is_Some (attempts (process info sys sched) !! S i).
Proof.
  intros Hi Hlt. apply lookup_lt_is_Some.
  destruct (process_outcome info sys sched) as (failed & Hfailed & Hcases).
  destruct Hcases as [(_ & Hatt & Hlen & _)|(_ & Hatt & Hlen & _)];
    rewrite Hatt in *.
  - rewrite length_app. simpl.
    destruct (decide (i < length failed)%nat) as [|Hge]; [lia|].
    rewrite lookup_app_r in Hi by lia.
    destruct (i - length failed)%nat as [|j]; [done|].
    by destruct j.
  - lia.
Qed.

(** A closure that throws at every invocation is invoked ten times, and the
    worker reports the failure. *)
Lemma process_always_throwing info sys sched :
  Forall (λ a, ∃ e, a = Threw e) (attempts (process info sys sched)) →
  length (attempts (process info sys sched)) = 10%nat ∧
  success (process info sys sched) = false ∧
  last (console (process info sys sched)) =
    Some ("Transaction failed after 10 attempts: " +:+ description info).
Proof.
  intros Hall.
  destruct (process_outcome info sys sched) as (failed & Hfailed & Hcases).
  destruct Hcases as [(_ & Hatt & _)|(Hs & Hatt & Hlen & Hout)].
  - rewrite Hatt in Hall. apply Forall_app in Hall as [_ Hlast].
    rewrite Forall_singleton in Hlast. by destruct Hlast.
  - by rewrite Hatt.
Qed.

End financial_process.

Lemma hybrid_execute_outcome logic sys sched draw :
  let ex := Hybrid.executeTransaction logic sys sched draw in
  ∃ failed,
    Forall (λ a, a ≠ Committed) failed ∧
    ((Hybrid.success ex = true ∧ Hybrid.attempts ex = failed ++ [Committed] ∧
      (length failed < 10)%nat)
     ∨ (Hybrid.success ex = false ∧ Hybrid.attempts ex = failed ∧
        length failed = 10%nat)).
Proof.
  apply (hybrid_attempts_loop_outcome Hybrid.maxAttempts 0 logic sys sched draw []).
Qed.

Lemma hybrid_retries_exception logic sys sched draw i e :
  Hybrid.attempts (Hybrid.executeTransaction logic sys sched draw) !! i
  = Some (Threw e) →
  (i < 9)%nat →
  is_Some (Hybrid.attempts (Hybrid.executeTransaction logic sys sched draw)
           !! S i).
Proof.
  intros Hi Hlt. apply lookup_lt_is_Some.
  destruct (hybrid_execute_outcome logic sys sched draw)
    as (failed & Hfailed & Hcases).
  destruct Hcases as [(_ & Hatt & Hlen)|(_ & Hatt & Hlen)];
    rewrite Hatt in *.
  - rewrite length_app. simpl.
    destruct (decide (i < length failed)%nat) as [|Hge]; [lia|].
    rewrite lookup_app_r in Hi by lia.
    destruct (i - length failed)%nat as [|j]; [done|].
    by destruct j.
  - lia.
Qed.

Lemma hybrid_always_throwing logic sys sched draw :
  Forall (λ a, ∃ e, a = Threw e)
    (Hybrid.attempts (Hybrid.executeTransaction logic sys sched draw)) →
  length (Hybrid.attempts (Hybrid.executeTransaction logic sys sched draw))
  = 10%nat ∧
  Hybrid.success (Hybrid.executeTransaction logic sys sched draw) = false.
Proof.
  intros Hall.
  destruct (hybrid_execute_outcome logic sys sched draw)
    as (failed & Hfailed & Hcases).
  destruct Hcases as [(_ & Hatt & _)|(Hs & Hatt & Hlen)].
  - rewrite Hatt in Hall. apply Forall_app in Hall as [_ Hlast].
    rewrite Forall_singleton in Hlast. by destruct Hlast.
  - by rewrite Hatt.
Qed.

(** In the basic engine the exception of the closure leaves
    [executeTransaction] at once. *)
Lemma stm_exception_propagates logic (ds : gmap N STM.DataCell) sched e ds1 sched1 :
  STM.attempt logic ds sched = (Threw e, ds1, sched1) →
  STM.executeTransaction logic ds sched =
  {| STM.result := Throws e; STM.final := ds1; STM.unused := sched1;
     STM.attempts := [Threw e] |}.
Proof.
  intros Hatt. unfold STM.executeTransaction. simpl. by rewrite Hatt.
Qed.

(** C6, as stated, fails for the worker of the financial engine: the trade of
    50000 from account 1, which holds 10000, throws at every invocation; the
    closure is invoked ten times, and the submission ends with [success]
    false and a line on the console, not with the exception. *)
Lemma throwing_trade_is_retried :
  let ex := process (Scenario.stock_trade 1 2 50000 0) Scenario.two_accounts [] in
  attempts ex = replicate 10 (Threw (runtime_error "Insufficient funds for trade")) ∧
  success ex = false ∧
  last (console ex) = Some "Transaction failed after 10 attempts: Stock trade" ∧
  versionedData (final ex) = versionedData Scenario.two_accounts.
Proof. vm_compute. done. Qed.

(** C6, amended: an attempt whose closure throws applies no write.  In the
    basic engine the exception leaves [executeTransaction] unchanged after
    that one invocation.  In the worker of the financial engine and in
    [executeTransaction] of the hybrid engine the exception is caught and
    the closure is invoked again until ten attempts are used: an invocation
    that throws is followed by another unless it is the tenth, and a closure
    that throws every time is invoked ten times, after which the worker
    writes that the transaction failed; the worker writes the message of
    every exception it catches to the console. *)
Theorem closure_exception {Balance : Type} :
  (∀ logic (ds : gmap N STM.DataCell) sched e ds1 sched1,
     STM.attempt logic ds sched = (Threw e, ds1, sched1) →
     STM.executeTransaction logic ds sched =
       {| STM.result := Throws e; STM.final := ds1; STM.unused := sched1;
          STM.attempts := [Threw e] |} ∧
     ∃ n, ds1 = elapsed STM.perform ds sched n)
  ∧ (∀ logic (sys : System Balance) sched e sys1 sched1,
       attempt logic sys sched = (Threw e, sys1, sched1) →
       ∃ n, sys1 = elapsed perform sys sched n)
  ∧ (∀ (info : TransactionInfo Balance) sys sched i e,
       attempts (process info sys sched) !! i = Some (Threw e) →
       (i < 9)%nat →
       is_Some (attempts (process info sys sched) !! S i))
  ∧ (∀ (info : TransactionInfo Balance) sys sched,
       Forall (λ a, ∃ e, a = Threw e) (attempts (process info sys sched)) →
       length (attempts (process info sys sched)) = 10%nat ∧
       success (process info sys sched) = false ∧
       last (console (process info sys sched)) =
         Some ("Transaction failed after 10 attempts: " +:+ description info))
  ∧ (∀ (info : TransactionInfo Balance) sys sched,
       console (process info sys sched) =
       omap (λ a, match a with
                  | Threw e => Some ("Transaction error: " +:+ what e)
                  | _ => None
                  end) (attempts (process info sys sched))
       ++ [if success (process info sys sched)
           then "Transaction succeeded: " +:+ description info
           else "Transaction failed after 10 attempts: " +:+ description info])
  ∧ (∀ htm logic sys sched draw e sys1 sched1,
       Hybrid.attempt htm logic sys sched draw = (Threw e, sys1, sched1) →
       ∃ n, sys1 = elapsed Hybrid.perform sys sched n)
  ∧ (∀ logic sys sched draw i e,
       Hybrid.attempts (Hybrid.executeTransaction logic sys sched draw) !! i
       = Some (Threw e) →
       (i < 9)%nat →
       is_Some (Hybrid.attempts (Hybrid.executeTransaction logic sys sched draw)
                !! S i))
  ∧ (∀ logic sys sched draw,
       Forall (λ a, ∃ e, a = Threw e)
         (Hybrid.attempts (Hybrid.executeTransaction logic sys sched draw)) →
       length (Hybrid.attempts (Hybrid.executeTransaction logic sys sched draw))
       = 10%nat ∧
       Hybrid.success (Hybrid.executeTransaction logic sys sched draw) = false).
Proof.
  split.
  { intros logic ds sched e ds1 sched1 Hatt.
    split; [by apply stm_exception_propagates|].
    apply stm_attempt_elapsed in Hatt as (n & -> & _); [by exists n|done]. }
  split.
  { intros logic sys sched e sys1 sched1 Hatt.
    apply financial_attempt_threw in Hatt as (n & -> & _). by exists n. }
  split; [apply @process_retries_exception|].
  split; [apply @process_always_throwing|].
  split; [apply @process_console|].
  split.
  { intros htm logic sys sched draw e sys1 sched1 Hatt.
    apply hybrid_attempt_threw in Hatt as (n & -> & _). by exists n. }
  split; [apply hybrid_retries_exception|apply hybrid_always_throwing].
Qed.

Lemma closure_exception_witness :
  let ex := process (Scenario.stock_trade 1 2 50000 0) Scenario.two_accounts [] in
  attempts ex !! 0%nat = Some (Threw (runtime_error "Insufficient funds for trade")) ∧
  is_Some (attempts ex !! 1%nat) ∧
  STM.executeTransaction Scenario.read_missing ∅ [] =
    {| STM.result := Throws (out_of_range "Memory location not initialized");
       STM.final := ∅; STM.unused := [];
       STM.attempts := [Threw (out_of_range "Memory location not initialized")] |}.
Proof.
  cbv zeta.
  assert (attempts (process (Scenario.stock_trade 1 2 50000 0)
                      Scenario.two_accounts []) !! 0%nat
          = Some (Threw (runtime_error "Insufficient funds for trade"))) as H0
    by (by vm_compute).
  split; [exact H0|]. split.
  - apply (proj1 (proj2 (proj2 (@closure_exception Z))) _ _ _ 0%nat _ H0). lia.
  - apply (proj1 (@closure_exception Z) Scenario.read_missing ∅ []
             (out_of_range "Memory location not initialized") ∅ []).
    by vm_compute.
Defined.

(** C7, as stated, fails for the basic engine: a closure that fetches a
    location nobody initialized throws [out_of_range]; the submission ends
    with that exception after one invocation, neither with a commit nor with
    the exception of the exhausted retries. *)
Lemma missing_location_ends_submission :
  let ex := STM.executeTransaction Scenario.read_missing ∅ [] in
  STM.result ex = Throws (out_of_range "Memory location not initialized") ∧
  STM.attempts ex = [Threw (out_of_range "Memory location not initialized")] ∧
  STM.result ex ≠ Returns tt ∧
  STM.result ex ≠ Throws STM.retry_exceeded.
Proof. vm_compute. repeat split; discriminate. Qed.

(** C7, amended: the closure is invoked at most three times by
    [executeTransaction] of the basic engine, which ends with a commit, with
    [retry_exceeded] after three conflicts, or with the exception of the
    closure; it is invoked at most ten times by the worker of the financial
    engine and by [executeTransaction] of the hybrid engine, which end with
    a commit or, after exactly ten failed attempts, with [success] false
    (reported on the console by the worker).  The task of the scheduled
    engine has no budget: against an adversary it is still running after any
    number of invocations. *)
Theorem retry_budget {Balance : Type} :
  (∀ logic (ds : gmap N STM.DataCell) sched,
     let ex := STM.executeTransaction logic ds sched in
     (length (STM.attempts ex) ≤ 3)%nat ∧
     ((∃ j, (j < 3)%nat ∧
            STM.attempts ex = replicate j Conflict ++ [Committed] ∧
            STM.result ex = Returns tt)
      ∨ (STM.attempts ex = replicate 3 Conflict ∧
         STM.result ex = Throws STM.retry_exceeded)
      ∨ (∃ j e, (j < 3)%nat ∧
                STM.attempts ex = replicate j Conflict ++ [Threw e] ∧
                STM.result ex = Throws e)))
  ∧ (∀ (info : TransactionInfo Balance) sys sched,
       let ex := process info sys sched in
       (length (attempts ex) ≤ 10)%nat ∧
       ∃ failed,
         Forall (λ a, a ≠ Committed) failed ∧
         ((success ex = true ∧ attempts ex = failed ++ [Committed] ∧
           (length failed < 10)%nat ∧
           last (console ex) =
             Some ("Transaction succeeded: " +:+ description info))
          ∨ (success ex = false ∧ attempts ex = failed ∧
             length failed = 10%nat ∧
             last (console ex) =
               Some ("Transaction failed after 10 attempts: "
                     +:+ description info))))
  ∧ (∀ logic sys sched draw,
       let ex := Hybrid.executeTransaction logic sys sched draw in
       (length (Hybrid.attempts ex) ≤ 10)%nat ∧
       ∃ failed,
         Forall (λ a, a ≠ Committed) failed ∧
         ((Hybrid.success ex = true ∧
           Hybrid.attempts ex = failed ++ [Committed] ∧
           (length failed < 10)%nat)
          ∨ (Hybrid.success ex = false ∧ Hybrid.attempts ex = failed ∧
             length failed = 10%nat)))
  ∧ (∀ n (ds : gmap N Advanced.DataCell),
       is_Some (ds !! 100) → is_Some (ds !! 200) →
       Advanced.transaction_task n Advanced.incrementOperation ds
         (Advanced.adversary n) [] = None).
Proof.
  split.
  { intros logic ds sched ex.
    destruct (stm_attempts_loop_outcome 3 logic ds sched [])
      as (new & Hatt & Hcases).
    fold (STM.executeTransaction logic ds sched) in Hatt, Hcases. fold ex in Hatt, Hcases.
    simpl in Hatt. rewrite Hatt.
    split; [|done].
    destruct Hcases as [(j & Hj & -> & _)|[[-> _]|(j & e & Hj & -> & _)]];
      rewrite ?length_app, ?length_replicate; simpl; lia. }
  split.
  { intros info sys sched ex.
    destruct (process_outcome info sys sched) as (failed & Hfailed & Hcases).
    fold ex in Hcases. split; [|by exists failed].
    destruct Hcases as [(_ & -> & Hlen & _)|(_ & -> & Hlen & _)];
      rewrite ?length_app; simpl; lia. }
  split.
  { intros logic sys sched draw ex.
    destruct (hybrid_execute_outcome logic sys sched draw)
      as (failed & Hfailed & Hcases).
    fold ex in Hcases. split; [|by exists failed].
    destruct Hcases as [(_ & -> & Hlen)|(_ & -> & Hlen)];
      rewrite ?length_app; simpl; lia. }
  intros n ds. apply advanced_task_unbounded.
Qed.

(** Scenario S2 with three attempts: the cell 100 is overwritten by another
    thread before each of the three commits, and [executeTransaction] ends
    with [retry_exceeded] after three invocations; against the same
    adversary the task of the scheduled engine is still running after
    twelve. *)
Lemma retry_budget_witness :
  let ds : gmap N STM.DataCell :=
    (STM.initializeMemory 200 10 (STM.initializeMemory 100 5 ∅).2).2 in
  let other := STM.Finalize (STM.store STM.new_transaction 100 0) in
  let sched := [[]; []; [other]; []; []; [other]; []; []; [other]] in
  let ex := STM.executeTransaction STM.incrementOperation ds sched in
  STM.result ex = Throws STM.retry_exceeded ∧
  (length (STM.attempts ex) ≤ 3)%nat ∧
  Advanced.transaction_task 12 Advanced.incrementOperation
    (Advanced.initializeMemory 200 10 (Advanced.initializeMemory 100 5 ∅).2).2
    (Advanced.adversary 12) [] = None.
Proof.
  cbv zeta. split; [by vm_compute|]. split.
  - apply (proj1 (@retry_budget Z)).
  - apply (proj2 (proj2 (proj2 (@retry_budget Z)))).
    + vm_compute. by eexists.
    + vm_compute. by eexists.
Defined.

(** ** C8: the order of dispatch *)

(** C8: the descriptor a worker takes from the queue has a priority at least
    that of every queued descriptor and, among those of its priority, an
    enqueue time at most theirs; it leaves the queue, and the others stay.
    So of two queued descriptors the one with the higher priority, or with
    the same priority and the earlier enqueue time, is never the one left
    behind. *)
Theorem dispatch_order {Balance : Type} (s s' : Scheduler Balance) x y :
  dequeue s = Some (x, s') →
  y ∈ transactionQueue s →
  (priority y ≤ priority x)%Z ∧
  (priority y = priority x → (startTime x ≤ startTime y)%Z) ∧
  transactionQueue s ≡ₚ x :: transactionQueue s'.
Proof.
  unfold dequeue. intros Hdq Hy.
  destruct (shutdownFlag s); [done|].
  destruct (extract (transactionQueue s)) as [[x' rest]|] eqn:Hex; [|done].
  injection Hdq as <- <-. simpl.
  apply extract_top in Hex as [Hperm Hmax].
  specialize (Hmax y Hy). unfold precedes in Hmax.
  split; [lia|]. split; [lia|done].
Qed.

(** Scenario S4: a transfer of priority 5 is submitted at time 1 and two
    trades of priority 10 at times 2 and 3; the worker takes the trade of
    time 2. *)
Lemma dispatch_order_witness :
  let idle : Scheduler Z :=
    {| transactionQueue := []; shutdownFlag := false; activeTransactions := 0 |} in
  let s :=
    scheduleTransaction (Scenario.executeTrade 2 1 7) 10 "Stock trade" 3
      (scheduleTransaction (Scenario.executeTrade 1 2 5) 10 "Stock trade" 2
         (scheduleTransaction Return 5 "Bank transfer" 1 idle)) in
  ∃ x s',
    dequeue s = Some (x, s') ∧ priority x = 10%Z ∧ startTime x = 2%Z ∧
    Forall (λ y, (priority y ≤ priority x)%Z ∧
                 (priority y = priority x → (startTime x ≤ startTime y)%Z))
      (transactionQueue s).
Proof.
  cbv zeta. eexists _, _. split; [by vm_compute|].
  split; [done|]. split; [done|].
  apply Forall_forall. intros y Hy.
  match goal with
  | |- context [priority ?x] =>
      match goal with
      | Hy : y ∈ transactionQueue ?s |- _ =>
          destruct (dispatch_order s _ x y (eq_refl : dequeue s = Some (x, _)) Hy)
            as (Hp & Ht & _)
      end
  end.
  by split.
Defined.

(** ** C9: the order of the timestamps *)

(** C9 fails on the code: [createAccount] appends a version stamped 0 to the
    vector of an account that exists.  Creating account 1 twice leaves two
    versions stamped 0; creating it again after a commit leaves the
    timestamps 0, 1, 0, which do not even ascend weakly. *)
Theorem createAccount_twice_breaks_order :
  let twice : System Z :=
    foldl perform initial [CreateAccount 1 10000%Z; CreateAccount 1 30000%Z] in
  let later : System Z :=
    foldl perform initial
      [CreateAccount 1 10000%Z; Commit (Scenario.deposit 5);
       CreateAccount 1 30000%Z] in
  versionedData twice !! 1 = Some [(0, 10000%Z); (0, 30000%Z)] ∧
  ¬ strictly_ascending [(0, 10000%Z); (0, 30000%Z)] ∧
  versionedData later !! 1 = Some [(0, 10000%Z); (1, 5%Z); (0, 30000%Z)] ∧
  ¬ ascending [(0, 10000%Z); (1, 5%Z); (0, 30000%Z)].
Proof.
  cbv zeta. split; [by vm_compute|]. split.
  { unfold strictly_ascending. simpl. intros Hs.
    apply StronglySorted_inv in Hs as [_ Hs].
    apply Forall_cons in Hs as [Hs _]. lia. }
  split; [by vm_compute|].
  unfold ascending. simpl. intros Hs.
  apply StronglySorted_inv in Hs as [Hs _].
  apply StronglySorted_inv in Hs as [_ Hs].
  apply Forall_cons in Hs as [Hs _]. lia.
Qed.

(** ** C10: commits without reads *)

(** C10: a transaction with an empty read set commits: [commit] returns
    [true] and appends, for every account of the write set, one version
    stamped with the new clock value, in the financial engine; in the
    scheduled engine it returns [true] and every location of the write set
    holds the written value.  An attempt whose closure ends with an empty
    read set is committed at once, whatever the other threads do.  The
    validating commits of the basic and the hybrid engine return [true] on an
    empty read log as well. *)
Theorem commit_without_reads {Balance : Type} :
  (∀ (tx : Transaction Balance) sys,
     readSet tx = ∅ →
     (commit tx sys).1 = true ∧
     ∀ k, versionedData (commit tx sys).2 !! k =
          match writeSet tx !! k with
          | Some v =>
              Some (default [] (versionedData sys !! k)
                    ++ [(incr (globalClock sys), v)])
          | None => versionedData sys !! k
          end)
  ∧ (∀ tx (ds : gmap N Advanced.DataCell),
       Advanced.readSet tx = ∅ →
       (Advanced.commit tx ds).1 = true ∧
       ∀ k, (Advanced.commit tx ds).2 !! k =
            match Advanced.writeSet tx !! k with
            | Some v => Some (Advanced.written (ds !! k) v)
            | None => ds !! k
            end)
  ∧ (∀ logic (sys : System Balance) sched tx sys1 sched1,
       run logic (new_transaction sys) sys sched = (Returns tt, tx, sys1, sched1) →
       readSet tx = ∅ →
       (attempt logic sys sched).1.1 = Committed)
  ∧ (∀ speculative logic (ds : gmap N Advanced.DataCell) sched tx ds1 sched1,
       Advanced.run logic (Advanced.new_transaction speculative) ds sched
       = (Returns tt, tx, ds1, sched1) →
       Advanced.readSet tx = ∅ →
       (Advanced.attempt speculative logic ds sched).1.1 = Committed)
  ∧ (∀ tx (ds : gmap N STM.DataCell),
       STM.readLog tx = ∅ → (STM.finalizeTransaction tx ds).1 = true)
  ∧ (∀ tx (ds : gmap N Hybrid.DataCell),
       Hybrid.readLog tx = ∅ → (Hybrid.finalizeSTM tx ds).1 = true).
Proof.
  split.
  { intros tx sys Hrs. rewrite financial_commit_no_reads by done.
    split; [done|]. intros k. simpl. apply financial_published. }
  split.
  { intros tx ds Hrs. rewrite advanced_commit_no_reads by done.
    split; [done|]. intros k. simpl. apply advanced_published. }
  split.
  { intros logic sys sched tx sys1 sched1 Hrun Hrs. unfold attempt.
    rewrite Hrun. by rewrite financial_commit_no_reads. }
  split.
  { intros speculative logic ds sched tx ds1 sched1 Hrun Hrs.
    unfold Advanced.attempt. rewrite Hrun.
    by rewrite advanced_commit_no_reads. }
  split.
  - intros tx ds Hrs. unfold STM.finalizeTransaction.
    by rewrite Hrs, entries_empty.
  - intros tx ds Hrs. unfold Hybrid.finalizeSTM.
    by rewrite Hrs, entries_empty.
Qed.

(** A closure that only writes commits at its first attempt although another
    thread commits to the same account just before. *)
Lemma commit_without_reads_witness :
  let tx := Scenario.deposit 42 in
  let sys := Scenario.two_accounts in
  let sched := [[Commit (Scenario.deposit 9)]] in
  readSet tx = ∅ ∧
  (commit tx sys).1 = true ∧
  versionedData (commit tx sys).2 !! 1 = Some [(0, 10000%Z); (1, 42%Z)] ∧
  (attempt (Write 1 42%Z Return) sys sched).1.1 = Committed ∧
  (Advanced.attempt false Scenario.blind_write ∅ []).1.1 = Committed.
Proof.
  cbv zeta. split; [done|].
  destruct (proj1 (@commit_without_reads Z) (Scenario.deposit 42)
              Scenario.two_accounts eq_refl) as [Hok Hversions].
  split; [exact Hok|]. split.
  { rewrite Hversions. by vm_compute. }
  split.
  - eapply (proj1 (proj2 (proj2 (@commit_without_reads Z)))
              (Write 1 42%Z Return) Scenario.two_accounts
              [[Commit (Scenario.deposit 9)]]).
    + reflexivity.
    + reflexivity.
  - eapply (proj1 (proj2 (proj2 (proj2 (@commit_without_reads Z)))) false
              Scenario.blind_write ∅ []).
    + reflexivity.
    + reflexivity.
Defined.

(** * Further properties of the engines *)

(** ** The basic engine: validation, publication, quiet runs *)

(** The first loop of [finalizeTransaction] passes exactly when every entry
    of the read log names a cell of the store with the logged count. *)
Lemma stm_validate_true (ds : gmap N STM.DataCell) log :
  STM.validate ds log = true ↔
  ∀ loc m, (loc, m) ∈ log →
    ∃ cell, ds !! loc = Some cell ∧ STM.modificationCount cell = m.
Proof.
  induction log as [|[loc m] log IH]; simpl.
  { split; [|done]. intros _ loc m Hin. by apply elem_of_nil in Hin. }
  destruct (ds !! loc) as [cell|] eqn:Hcell.
  - destruct (decide (STM.modificationCount cell ≠ m)) as [Hne|Heq].
    + split; [done|]. intros Hall.
      destruct (Hall loc m) as (cell' & Hc & Hm); [by left|].
      rewrite Hcell in Hc. injection Hc as <-. done.
    + apply dec_stable in Heq. rewrite IH. split.
      * intros Hall loc' m' Hin. apply elem_of_cons in Hin as [[= -> ->]|Hin].
        -- by exists cell.
        -- by apply Hall.
      * intros Hall loc' m' Hin. apply Hall. by right.
  - split; [done|]. intros Hall.
    destruct (Hall loc m) as (cell' & Hc & _); [by left|]. congruence.
Qed.

(** X1. [finalizeTransaction] succeeds exactly when every location of the
    read log is in the store with the modification count that was logged;
    then every location of the write buffer holds the buffered value, with
    the count of the cell advanced by one or, for a location that was not in
    the store, a new cell of count 0, and every other cell is as before. *)
Theorem finalizeTransaction_outcome tx (ds : gmap N STM.DataCell) :
  ((STM.finalizeTransaction tx ds).1 = true ↔
   ∀ loc m, STM.readLog tx !! loc = Some m →
     ∃ cell, ds !! loc = Some cell ∧ STM.modificationCount cell = m)
  ∧ ((STM.finalizeTransaction tx ds).1 = true →
     ∀ k, (STM.finalizeTransaction tx ds).2 !! k =
          match STM.writeBuffer tx !! k with
          | Some v =>
              Some match ds !! k with
                   | Some cell =>
                       {| STM.content := v;
                          STM.modificationCount :=
                            incr (STM.modificationCount cell) |}
                   | None => {| STM.content := v; STM.modificationCount := 0 |}
                   end
          | None => ds !! k
          end)
  ∧ ((STM.finalizeTransaction tx ds).1 = false →
     (STM.finalizeTransaction tx ds).2 = ds).
Proof.
  unfold STM.finalizeTransaction.
  pose proof (stm_validate_true ds (entries (STM.readLog tx))) as Hval.
  split; [|split].
  - destruct (STM.validate _ _); simpl.
    + split; [|done]. intros _ loc m Hlog. apply Hval; [done|].
      by apply elem_of_entries.
    + split; [done|]. intros Hall. apply Hval.
      intros loc m Hin. apply Hall. by apply elem_of_entries.
  - destruct (STM.validate _ _); simpl; [|done]. intros _ k.
    rewrite stm_published. destruct (STM.writeBuffer tx !! k); [|done].
    by destruct (ds !! k).
  - by destruct (STM.validate _ _).
Qed.



(** The read log of a run without other threads matches the store. *)
Lemma stm_run_quiet logic tx (ds : gmap N STM.DataCell) r tx' ds' sched' :
  STM.run logic tx ds [] = (r, tx', ds', sched') →
  (∀ loc m, STM.readLog tx !! loc = Some m →
     ∃ cell, ds !! loc = Some cell ∧ STM.modificationCount cell = m) →
  ds' = ds ∧ sched' = [] ∧
  ∀ loc m, STM.readLog tx' !! loc = Some m →
    ∃ cell, ds !! loc = Some cell ∧ STM.modificationCount cell = m.
Proof.
  revert tx. induction logic as [|e|location k IH|location value k IH];
    intros tx Hrun Hlog; simpl in Hrun.
  - by injection Hrun as <- <- <- <-.
  - by injection Hrun as <- <- <- <-.
  - change (STM.interfered ds []) with ds in Hrun.
    unfold STM.fetch in Hrun.
    destruct (STM.writeBuffer tx !! location) as [buffered|].
    { by apply IH in Hrun. }
    destruct (ds !! location) as [cell|] eqn:Hcell.
    + apply IH in Hrun; [done|]. simpl. intros loc m.
      destruct (decide (location = loc)) as [<-|Hne].
      * rewrite lookup_insert_eq. intros [= <-]. by exists cell.
      * rewrite lookup_insert_ne by done. apply Hlog.
    + by injection Hrun as <- <- <- <-.
  - by apply IH in Hrun.
Qed.

(** X3. Without other threads [executeTransaction] invokes the closure
    once: the call ends with a commit, or with the exception of the
    closure and the store unchanged; it never meets a conflict. *)
Theorem quiet_execution_needs_one_attempt logic (ds : gmap N STM.DataCell) :
  (STM.attempts (STM.executeTransaction logic ds []) = [Committed] ∧
   STM.result (STM.executeTransaction logic ds []) = Returns tt)
  ∨ (∃ e, STM.attempts (STM.executeTransaction logic ds []) = [Threw e] ∧
          STM.result (STM.executeTransaction logic ds []) = Throws e ∧
          STM.final (STM.executeTransaction logic ds []) = ds).
Proof.
  unfold STM.executeTransaction. cbn [STM.attempts_loop]. unfold STM.attempt.
  destruct (STM.run logic STM.new_transaction ds [])
    as [[[[[]|e] tx] ds1] sched1] eqn:Hrun;
    apply stm_run_quiet in Hrun as (-> & -> & Hlog);
    try (intros loc m Hl; simpl in Hl; by rewrite lookup_empty in Hl).
  - left. change (STM.interfered ds []) with ds.
    destruct (finalizeTransaction_outcome tx ds) as (Hiff & _).
    destruct (STM.finalizeTransaction tx ds) as [[] ds2]; simpl in *; [done|].
    by specialize (proj2 Hiff Hlog).
  - right. by exists e.
Qed.

(** ** The scheduled engine: the speculative flag, quiet runs, the queue *)

Lemma advanced_read_flag (ds : gmap N Advanced.DataCell) tx tx' location :
  Advanced.readSet tx = Advanced.readSet tx' →
  Advanced.writeSet tx = Advanced.writeSet tx' →
  (Advanced.read ds tx location).1 = (Advanced.read ds tx' location).1 ∧
  Advanced.readSet (Advanced.read ds tx location).2 =
    Advanced.readSet (Advanced.read ds tx' location).2 ∧
  Advanced.writeSet (Advanced.read ds tx location).2 =
    Advanced.writeSet (Advanced.read ds tx' location).2.
Proof.
  intros Hr Hw. unfold Advanced.read. rewrite <- Hw.
  destruct (Advanced.writeSet tx !! location); [done|].
  destruct (ds !! location); simpl; [|done]. by rewrite Hr.
Qed.

Lemma advanced_run_flag logic tx tx' (ds : gmap N Advanced.DataCell) sched :
  Advanced.readSet tx = Advanced.readSet tx' →
  Advanced.writeSet tx = Advanced.writeSet tx' →
  let out := Advanced.run logic tx ds sched in
  let out' := Advanced.run logic tx' ds sched in
  out.1.1.1 = out'.1.1.1 ∧ out.1.2 = out'.1.2 ∧ out.2 = out'.2 ∧
  Advanced.readSet out.1.1.2 = Advanced.readSet out'.1.1.2 ∧
  Advanced.writeSet out.1.1.2 = Advanced.writeSet out'.1.1.2.
Proof.
  revert tx tx' ds sched.
  induction logic as [|e|location k IH|location value k IH];
    intros tx tx' ds sched Hr Hw; simpl.
  - done.
  - done.
  - destruct (advanced_read_flag (Advanced.interfered ds sched) tx tx' location
                Hr Hw) as (Hres & Hr' & Hw').
    destruct (Advanced.read _ tx location) as [[v|e] tx1];
      destruct (Advanced.read _ tx' location) as [[v'|e'] tx1'];
      simpl in *; try discriminate.
    + injection Hres as <-. by apply IH.
    + by injection Hres as <-.
  - apply IH; simpl; [done|]. by rewrite Hw.
Qed.

Lemma advanced_commit_flag tx tx' (ds : gmap N Advanced.DataCell) :
  Advanced.readSet tx = Advanced.readSet tx' →
  Advanced.writeSet tx = Advanced.writeSet tx' →
  Advanced.commit tx ds = Advanced.commit tx' ds.
Proof. intros Hr Hw. unfold Advanced.commit. by rewrite Hr, Hw. Qed.

Lemma advanced_attempt_flag logic (ds : gmap N Advanced.DataCell) sched
    speculative :
  Advanced.attempt speculative logic ds sched
  = Advanced.attempt false logic ds sched.
Proof.
  unfold Advanced.attempt.
  destruct (advanced_run_flag logic (Advanced.new_transaction speculative)
              (Advanced.new_transaction false) ds sched eq_refl eq_refl)
    as (Hres & Hds & Hsched & Hr & Hw).
  destruct (Advanced.run logic (Advanced.new_transaction speculative) ds sched)
    as [[[r tx] ds1] sched1].
  destruct (Advanced.run logic (Advanced.new_transaction false) ds sched)
    as [[[r' tx'] ds1'] sched1'].
  simpl in *. subst r' ds1' sched1'.
  destruct r as [[]|e]; [|done].
  by rewrite (advanced_commit_flag tx tx').
Qed.

Lemma advanced_read_keeps_flag (ds : gmap N Advanced.DataCell) tx location :
  Advanced.isSpeculative (Advanced.read ds tx location).2
  = Advanced.isSpeculative tx.
Proof.
  unfold Advanced.read.
  destruct (Advanced.writeSet tx !! location) as [buffered|]; [done|].
  by destruct (ds !! location) as [cell|].
Qed.

(** A closure that calls the accessor runs as the closure it is when every
    call answers the flag of the transaction. *)
Lemma run_closure_answered c tx (ds : gmap N Advanced.DataCell) sched :
  Advanced.run_closure c tx ds sched
  = Advanced.run (Advanced.answered (Advanced.isSpeculative tx) c) tx ds sched.
Proof.
  revert tx ds sched.
  induction c as [|e|location k IH|location value k IH|k IH];
    intros tx ds sched; simpl.
  - done.
  - done.
  - pose proof (advanced_read_keeps_flag (Advanced.interfered ds sched) tx
                  location) as Hflag.
    destruct (Advanced.read _ tx location) as [[value|e] tx1]; [|done].
    simpl in Hflag. by rewrite IH, Hflag.
  - by rewrite IH.
  - apply IH.
Qed.

Lemma run_closure_plain logic tx (ds : gmap N Advanced.DataCell) sched :
  Advanced.run_closure (Advanced.plain logic) tx ds sched
  = Advanced.run logic tx ds sched.
Proof.
  revert tx ds sched.
  induction logic as [|e|location k IH|location value k IH];
    intros tx ds sched; simpl.
  - done.
  - done.
  - destruct (Advanced.read _ tx location) as [[value|e] tx1]; [|done].
    apply IH.
  - apply IH.
Qed.

(** X4. [read], [write] and [commit] never consult the speculative flag of
    a transaction; the flag reaches an attempt only through the calls that
    the closure itself makes of [isSpeculativeExecution()].  An attempt on a
    speculative transaction ends exactly as the ordinary attempt of the
    closure with every such call answered by the flag; for a closure that
    does not call the accessor the speculative and the ordinary attempt are
    the same, for every store and schedule; a closure that branches on the
    accessor makes them differ. *)
Theorem speculative_attempt_is_ordinary (ds : gmap N Advanced.DataCell) sched :
  (∀ c speculative,
     Advanced.attempt_closure speculative c ds sched
     = Advanced.attempt false (Advanced.answered speculative c) ds sched)
  ∧ (∀ logic speculative,
       Advanced.attempt_closure speculative (Advanced.plain logic) ds sched
       = Advanced.attempt false logic ds sched)
  ∧ (∀ logic,
       Advanced.attempt true logic ds sched
       = Advanced.attempt false logic ds sched)
  ∧ (Advanced.attempt_closure true Advanced.refuses_speculation ds sched).1.1
    = Threw (runtime_error "speculative")
  ∧ (Advanced.attempt_closure false Advanced.refuses_speculation ds sched).1.1
    = Committed.
Proof.
  split; [|split; [|split; [|split]]].
  - intros c speculative.
    rewrite <- (advanced_attempt_flag _ ds sched speculative).
    unfold Advanced.attempt_closure, Advanced.attempt.
    by rewrite run_closure_answered.
  - intros logic speculative.
    rewrite <- (advanced_attempt_flag _ ds sched speculative).
    unfold Advanced.attempt_closure, Advanced.attempt.
    by rewrite run_closure_plain.
  - intros logic. apply advanced_attempt_flag.
  - done.
  - unfold Advanced.attempt_closure. simpl.
    by rewrite advanced_commit_no_reads.
Qed.

Lemma advanced_validate_true (ds : gmap N Advanced.DataCell) rs :
  Advanced.validate ds rs = true ↔
  ∀ loc c rv, (loc, (c, rv)) ∈ rs →
    ∃ cell, ds !! loc = Some cell ∧ Advanced.version cell = rv.
Proof.
  induction rs as [|[loc [c rv]] rs IH]; simpl.
  { split; [|done]. intros _ loc c rv Hin. by apply elem_of_nil in Hin. }
  destruct (ds !! loc) as [cell|] eqn:Hcell.
  - destruct (decide (Advanced.version cell ≠ rv)) as [Hne|Heq].
    + split; [done|]. intros Hall.
      destruct (Hall loc c rv) as (cell' & Hc & Hm); [by left|].
      rewrite Hcell in Hc. injection Hc as <-. done.
    + apply dec_stable in Heq. rewrite IH. split.
      * intros Hall loc' c' rv' Hin.
        apply elem_of_cons in Hin as [[= -> -> ->]|Hin].
        -- by exists cell.
        -- by eapply Hall.
      * intros Hall loc' c' rv' Hin. eapply Hall. by right.
  - split; [done|]. intros Hall.
    destruct (Hall loc c rv) as (cell' & Hc & _); [by left|]. congruence.
Qed.

Lemma advanced_run_quiet logic tx (ds : gmap N Advanced.DataCell) r tx' ds' sched' :
  Advanced.run logic tx ds [] = (r, tx', ds', sched') →
  (∀ loc c rv, Advanced.readSet tx !! loc = Some (c, rv) →
     ∃ cell, ds !! loc = Some cell ∧ Advanced.version cell = rv) →
  ds' = ds ∧ sched' = [] ∧
  ∀ loc c rv, Advanced.readSet tx' !! loc = Some (c, rv) →
    ∃ cell, ds !! loc = Some cell ∧ Advanced.version cell = rv.
Proof.
  revert tx. induction logic as [|e|location k IH|location value k IH];
    intros tx Hrun Hlog; simpl in Hrun.
  - by injection Hrun as <- <- <- <-.
  - by injection Hrun as <- <- <- <-.
  - change (Advanced.interfered ds []) with ds in Hrun.
    unfold Advanced.read in Hrun.
    destruct (Advanced.writeSet tx !! location) as [buffered|].
    { by apply IH in Hrun. }
    destruct (ds !! location) as [cell|] eqn:Hcell.
    + apply IH in Hrun; [done|]. simpl. intros loc c rv.
      destruct (decide (location = loc)) as [<-|Hne].
      * rewrite lookup_insert_eq. intros [= <- <-]. by exists cell.
      * rewrite lookup_insert_ne by done. apply Hlog.
    + by injection Hrun as <- <- <- <-.
  - by apply IH in Hrun.
Qed.

Lemma advanced_attempt_quiet speculative logic (ds : gmap N Advanced.DataCell) :
  (∃ ds', Advanced.attempt speculative logic ds [] = (Committed, ds', []))
  ∨ (∃ e, Advanced.attempt speculative logic ds [] = (Threw e, ds, [])).
Proof.
  unfold Advanced.attempt.
  destruct (Advanced.run logic (Advanced.new_transaction speculative) ds [])
    as [[[[[]|e] tx] ds1] sched1] eqn:Hrun;
    apply advanced_run_quiet in Hrun as (-> & -> & Hlog);
    try (intros loc c rv Hl; simpl in Hl; by rewrite lookup_empty in Hl).
  - left. change (Advanced.interfered ds []) with ds.
    unfold Advanced.commit.
    destruct (Advanced.validate ds (entries (Advanced.readSet tx))) eqn:Hval.
    + by eexists.
    + assert (Advanced.validate ds (entries (Advanced.readSet tx)) = true)
        as Hyes; [|congruence].
      apply advanced_validate_true. intros loc c rv Hin.
      apply elem_of_entries in Hin. by eapply Hlog.
  - right. by exists e.
Qed.

(** X5. Without other threads the unbounded loop of a transaction task
    ends after one invocation of the closure, with a commit or with the
    exception of the closure and the store unchanged, whatever fuel it is
    given; a worker that takes a task from the queue leaves the rest of the
    queue as it is, so a speculative task is never queued again. *)
Theorem quiet_task_ends (fuel : nat) logic (ds : gmap N Advanced.DataCell) :
  (∃ ex, Advanced.transaction_task (S fuel) logic ds [] [] = Some ex ∧
         ((Advanced.attempts ex = [Committed] ∧
           Advanced.result ex = Returns tt)
          ∨ (∃ e, Advanced.attempts ex = [Threw e] ∧
                  Advanced.result ex = Throws e ∧ Advanced.final ex = ds)))
  ∧ (∀ task rest,
       ∃ ran, Advanced.workerFunction (S fuel) false (task :: rest) ds []
              = Some ran ∧
              Advanced.queue_after ran = rest ∧
              (Advanced.invocations ran = [Committed]
               ∨ ∃ e, Advanced.invocations ran = [Threw e] ∧
                      Advanced.ended ran = Throws e ∧
                      Advanced.store_after ran = ds)).
Proof.
  assert (∃ ex, Advanced.transaction_task (S fuel) logic ds [] [] = Some ex ∧
         ((Advanced.attempts ex = [Committed] ∧
           Advanced.result ex = Returns tt)
          ∨ (∃ e, Advanced.attempts ex = [Threw e] ∧
                  Advanced.result ex = Throws e ∧ Advanced.final ex = ds)))
    as Htask.
  { clear. cbn [Advanced.transaction_task].
    destruct (advanced_attempt_quiet false logic ds) as [[ds' ->]|[e ->]].
    - eexists. split; [done|]. by left.
    - eexists. split; [done|]. right. by exists e. }
  split; [exact Htask|].
  intros task rest. unfold Advanced.workerFunction, Advanced.run_task.
  destruct task as [logic'|logic'].
  - clear Htask. cbn [Advanced.transaction_task].
    destruct (advanced_attempt_quiet false logic' ds) as [[ds' ->]|[e ->]].
    + eexists. split; [done|]. split; [done|]. by left.
    + eexists. split; [done|]. split; [done|]. right. by exists e.
  - destruct (advanced_attempt_quiet true logic' ds) as [[ds' ->]|[e ->]].
    + eexists. split; [done|]. split; [done|]. by left.
    + eexists. split; [done|]. split; [done|]. right. by exists e.
Qed.

(** A speculative task whose commit fails is queued again, behind the tasks
    queued meanwhile, as an ordinary transaction task. *)
Example speculative_conflict_is_requeued :
  let ds : gmap N Advanced.DataCell :=
    (Advanced.initializeMemory 200 10 (Advanced.initializeMemory 100 5 ∅).2).2 in
  let queue :=
    Advanced.executeTransaction Scenario.blind_write
      (Advanced.executeSpeculativeTransaction Advanced.incrementOperation []) in
  Advanced.queue_after
    <$> Advanced.workerFunction 1 false queue ds (Advanced.adversary 1)
  = Some [Advanced.TransactionTask Scenario.blind_write;
          Advanced.TransactionTask Advanced.incrementOperation].
Proof. vm_compute. done. Qed.

(** ** The scheduled engine: conflict tracking *)

Lemma set_intersection_nil_r l : Advanced.set_intersection l [] = [].
Proof. by destruct l. Qed.

Lemma set_intersection_cons x l1 y l2 :
  Advanced.set_intersection (x :: l1) (y :: l2) =
  if decide (x < y) then Advanced.set_intersection l1 (y :: l2)
  else if decide (y < x) then Advanced.set_intersection (x :: l1) l2
  else x :: Advanced.set_intersection l1 l2.
Proof. done. Qed.

(** On ascending ranges [std::set_intersection] gives the common
    elements. *)
Lemma set_intersection_common l1 l2 z :
  StronglySorted N.le l1 → StronglySorted N.le l2 →
  z ∈ Advanced.set_intersection l1 l2 ↔ z ∈ l1 ∧ z ∈ l2.
Proof.
  intros H1. revert l2. induction H1 as [|x l1 Hs1 IH1 Hx]; intros l2 H2.
  { assert (Advanced.set_intersection [] l2 = []) as -> by by destruct l2.
    split; [intros H; by apply elem_of_nil in H|].
    intros [H _]. by apply elem_of_nil in H. }
  induction H2 as [|y l2 Hs2 IH2 Hy].
  { rewrite set_intersection_nil_r.
    split; [intros H; by apply elem_of_nil in H|].
    intros [_ H]. by apply elem_of_nil in H. }
  assert (StronglySorted N.le (y :: l2)) as Hyl2 by by constructor.
  rewrite set_intersection_cons. rewrite Forall_forall in Hx, Hy.
  destruct (decide (x < y)) as [Hlt|Hnlt].
  - rewrite IH1 by done. rewrite !elem_of_cons. split.
    + intros [? ?]. split; [by right|done].
    + intros [[->|?] [->|Hz]]; try done; try lia.
      * specialize (Hy _ Hz). lia.
      * split; [done|by left].
      * split; [done|by right].
  - destruct (decide (y < x)) as [Hgt|Hngt].
    + rewrite IH2. rewrite !elem_of_cons. split.
      * intros [? ?]. split; [done|by right].
      * intros [[->|Hz] [->|?]]; try done; try lia.
        -- split; [by left|done].
        -- specialize (Hx _ Hz). lia.
        -- split; [by right|done].
    + assert (x = y) as <- by lia.
      rewrite !elem_of_cons, IH1 by done. split.
      * intros [->|[? ?]]; [split; by left|split; by right].
      * intros [[->|H1z] [Hz|H2z]]; try (by left).
        right. done.
Qed.

Lemma conflict_among_true self locations others :
  Advanced.conflict_among self locations others = true ↔
  ∃ id accessed, (id, accessed) ∈ others ∧ id ≠ self ∧
    Advanced.set_intersection locations accessed ≠ [].
Proof.
  induction others as [|[id accessed] others IH]; simpl.
  { split; [done|]. intros (id & accessed & Hin & _).
    by apply elem_of_nil in Hin. }
  destruct (decide (id ≠ self)) as [Hne|Heq].
  - destruct (Advanced.set_intersection locations accessed) as [|z zs] eqn:Hint.
    + rewrite IH. split.
      * intros (id' & acc' & Hin & ? & ?). exists id', acc'.
        split; [by right|done].
      * intros (id' & acc' & Hin & ? & Hne').
        apply elem_of_cons in Hin as [[= -> ->]|Hin]; [congruence|].
        by exists id', acc'.
    + split; [|done]. intros _. exists id, accessed.
      split; [by left|]. split; [done|]. by rewrite Hint.
  - apply dec_stable in Heq. rewrite IH. split.
    + intros (id' & acc' & Hin & ? & ?). exists id', acc'.
      split; [by right|done].
    + intros (id' & acc' & Hin & Hid & Hne').
      apply elem_of_cons in Hin as [[= -> ->]|Hin]; [done|].
      by exists id', acc'.
Qed.

(** X6. With ascending vectors, [hasConflict] holds exactly when another
    thread has recorded a location that is among the given ones; what the
    calling thread itself recorded with [updateConflictInfo] never counts. *)
Theorem hasConflict_finds_shared_location self locations
    (threadAccessSet : gmap N (list N)) :
  StronglySorted N.le locations →
  (∀ id accessed, threadAccessSet !! id = Some accessed →
     StronglySorted N.le accessed) →
  (Advanced.hasConflict self locations threadAccessSet = true ↔
   ∃ id accessed z,
     id ≠ self ∧ threadAccessSet !! id = Some accessed ∧
     z ∈ locations ∧ z ∈ accessed)
  ∧ ∀ mine,
      Advanced.hasConflict self locations
        (Advanced.updateConflictInfo self mine threadAccessSet)
      = Advanced.hasConflict self locations (delete self threadAccessSet).
Proof.
  intros Hloc Hsets.
  assert (∀ tas : gmap N (list N),
            (∀ id accessed, tas !! id = Some accessed →
               id ≠ self → StronglySorted N.le accessed) →
            Advanced.hasConflict self locations tas = true ↔
            ∃ id accessed z,
              id ≠ self ∧ tas !! id = Some accessed ∧
              z ∈ locations ∧ z ∈ accessed) as Hiff.
  { intros tas Hsorted. unfold Advanced.hasConflict.
    rewrite conflict_among_true. split.
    - intros (id & accessed & Hin & Hne & Hint).
      apply elem_of_entries in Hin.
      destruct (Advanced.set_intersection locations accessed) as [|z zs] eqn:Hi;
        [done|].
      exists id, accessed, z. split; [done|]. split; [done|].
      apply (set_intersection_common locations accessed z);
        [done|by eapply Hsorted|]. rewrite Hi. by left.
    - intros (id & accessed & z & Hne & Hin & Hz1 & Hz2).
      exists id, accessed. split; [by apply elem_of_entries|].
      split; [done|]. intros Hnil.
      assert (z ∈ Advanced.set_intersection locations accessed) as Hz.
      { apply set_intersection_common; [done|by eapply Hsorted|done]. }
      rewrite Hnil in Hz. by apply elem_of_nil in Hz. }
  split.
  { apply Hiff. intros id accessed Hin _. by eapply Hsets. }
  intros mine. unfold Advanced.updateConflictInfo.
  apply eq_true_iff_eq.
  rewrite !Hiff.
  - split; intros (id & accessed & z & Hne & Hin & Hz).
    + exists id, accessed, z. split; [done|].
      rewrite lookup_delete_ne by done.
      by rewrite lookup_insert_ne in Hin by done.
    + exists id, accessed, z. split; [done|].
      rewrite lookup_insert_ne by done.
      by rewrite lookup_delete_ne in Hin by done.
  - intros id accessed Hin Hne. rewrite lookup_delete_ne in Hin by done.
    by eapply Hsets.
  - intros id accessed Hin Hne. rewrite lookup_insert_ne in Hin by done.
    by eapply Hsets.
Qed.

Lemma hasConflict_finds_shared_location_witness :
  let recorded : gmap N (list N) :=
    Advanced.updateConflictInfo 2 [100; 300]
      (Advanced.updateConflictInfo 1 [100; 200] ∅) in
  Advanced.hasConflict 1 [100; 200] recorded = true ∧
  Advanced.hasConflict 1 [200] recorded = false ∧
  ∃ id accessed z, id ≠ 1 ∧ recorded !! id = Some accessed ∧
                   z ∈ [100; 200] ∧ z ∈ accessed.
Proof.
  cbv zeta. split; [by vm_compute|]. split; [by vm_compute|].
  apply (proj1 (hasConflict_finds_shared_location 1 [100; 200]
                  (Advanced.updateConflictInfo 2 [100; 300]
                     (Advanced.updateConflictInfo 1 [100; 200] ∅))
                  ltac:(repeat constructor; lia)
                  ltac:(intros id accessed;
                        unfold Advanced.updateConflictInfo;
                        destruct (decide (id = 2)) as [->|];
                        [rewrite lookup_insert_eq; intros [= <-];
                         repeat constructor; lia|];
                        rewrite lookup_insert_ne by done;
                        destruct (decide (id = 1)) as [->|];
                        [rewrite lookup_insert_eq; intros [= <-];
                         repeat constructor; lia|];
                        rewrite lookup_insert_ne by done;
                        by rewrite lookup_empty))).
  by vm_compute.
Defined.

(** ** The financial engine: validation against the newest version *)

Lemma lower_bound_all {A : Type} (below : A → bool) (l : list A) :
  Forall (λ x, below x = true) l → lower_bound below l = length l.
Proof.
  intros H.
  pose proof (lower_bound_partition below l [] H (Forall_nil_2 _)) as Hp.
  by rewrite app_nil_r in Hp.
Qed.

Lemma lower_bound_none {A : Type} (below : A → bool) (l : list A) :
  Forall (λ x, below x = false) l → lower_bound below l = 0%nat.
Proof. intros H. exact (lower_bound_partition below [] l (Forall_nil_2 _) H). Qed.

(** When every version is older than [endTimestamp] the search of [commit]
    ends behind the vector, and the version it compares is the last one. *)
Lemma financial_validate_true {Balance : Type} endTs
    (rs : list (N * (Balance * N))) vd :
  (∀ k, Forall (λ a, a.1 < endTs) (default [] (vd !! k))) →
  (validate endTs rs vd).1 = true ↔
  ∀ k b rv ts v, (k, (b, rv)) ∈ rs →
    last (default [] (vd !! k)) = Some (ts, v) → ts ≤ rv.
Proof.
  revert vd. induction rs as [|[k [b rv]] rs IH]; intros vd Hvd.
  { simpl. split; [|done]. intros _ k b rv ts v Hin. by apply elem_of_nil in Hin. }
  cbn [validate].
  pose proof (subscript_versions vd k) as Hver.
  pose proof (subscript_lookup vd k) as Hlook.
  destruct (subscript vd k) as [versions vd'] eqn:Hsub.
  cbn [fst snd] in Hver, Hlook. subst versions.
  assert (∀ j, Forall (λ a, a.1 < endTs) (default [] (vd' !! j))) as Hvd'.
  { intros j. rewrite Hlook. apply Hvd. }
  specialize (IH vd' Hvd').
  assert ((validate endTs rs vd').1 = true ↔
          ∀ k0 b0 rv0 ts v, (k0, (b0, rv0)) ∈ rs →
            last (default [] (vd !! k0)) = Some (ts, v) → ts ≤ rv0) as IH'.
  { rewrite IH. split; intros H k0 b0 rv0 ts v Hin Hl.
    - eapply H; [done|]. by rewrite Hlook.
    - eapply H; [done|]. by rewrite <- Hlook. }
  clear IH.
  rewrite (lower_bound_all (older_than endTs)).
  2:{ eapply Forall_impl; [apply (Hvd k)|]. intros a Ha.
      unfold older_than. by apply bool_decide_eq_true. }
  pose proof (last_lookup (default [] (vd !! k))) as Hlast.
  destruct (length (default [] (vd !! k))) as [|it] eqn:Hlen.
  - apply nil_length_inv in Hlen. rewrite IH'. split.
    + intros H k0 b0 rv0 ts v Hin Hl.
      apply elem_of_cons in Hin as [[= -> -> ->]|Hin]; [|by eapply H].
      by rewrite Hlen in Hl.
    + intros H k0 b0 rv0 ts v Hin. eapply H. by right.
  - cbn [pred] in Hlast. rewrite <- Hlast.
    destruct (last (default [] (vd !! k))) as [[first second]|] eqn:Hl.
    + destruct (decide (rv < first)) as [Hnewer|Hnot].
      * simpl. split; [done|]. intros H.
        assert ((k, (b, rv)) ∈ (k, (b, rv)) :: rs) as Hhere by by left.
        specialize (H k b rv first second Hhere Hl). lia.
      * rewrite IH'. split.
        -- intros H k0 b0 rv0 ts v Hin Hl0.
           apply elem_of_cons in Hin as [[= -> -> ->]|Hin]; [|by eapply H].
           rewrite Hl in Hl0. injection Hl0 as <- <-. lia.
        -- intros H k0 b0 rv0 ts v Hin. eapply H. by right.
    + rewrite IH'. split.
      * intros H k0 b0 rv0 ts v Hin Hl0.
        apply elem_of_cons in Hin as [[= -> -> ->]|Hin]; [|by eapply H].
        by rewrite Hl in Hl0.
      * intros H k0 b0 rv0 ts v Hin. eapply H. by right.
Qed.

Lemma commit_validated {Balance : Type} (tx : Transaction Balance) sys :
  (commit tx sys).1 =
  (validate (incr (globalClock sys)) (entries (readSet tx)) (versionedData sys)).1.
Proof. unfold commit. by destruct (validate _ _ _) as [[] vd]. Qed.

Lemma stamped_older {Balance : Type} (sys : System Balance) :
  stamped_by_clock sys → globalClock sys + 1 < 2 ^ 32 →
  ∀ k, Forall (λ a, a.1 < incr (globalClock sys))
         (default [] (versionedData sys !! k)).
Proof.
  intros Hst Hno k. rewrite incr_no_wrap by done.
  destruct (versionedData sys !! k) as [versions|] eqn:Hk; simpl; [|done].
  eapply Forall_impl; [by eapply Hst|]. intros a Ha. simpl in Ha. lia.
Qed.

(** X7. On a system whose versions carry timestamps up to the clock, and
    while the 32-bit clock does not wrap, [commit] succeeds exactly when no
    account of the read set has a last version newer than the version read;
    after a successful commit the last version of every written account is
    the written balance, stamped with the clock plus one. *)
Theorem commit_checks_newest_version {Balance : Type}
    (tx : Transaction Balance) sys :
  stamped_by_clock sys → globalClock sys + 1 < 2 ^ 32 →
  ((commit tx sys).1 = true ↔ reads_current (readSet tx) (versionedData sys))
  ∧ ((commit tx sys).1 = true →
     ∀ k v, writeSet tx !! k = Some v →
       last (default [] (versionedData (commit tx sys).2 !! k))
       = Some (globalClock sys + 1, v)).
Proof.
  intros Hst Hno. split.
  - rewrite commit_validated, financial_validate_true
      by by apply stamped_older.
    unfold reads_current. split.
    + intros H k b rv ts v Hk. eapply H. by apply elem_of_entries.
    + intros H k b rv ts v Hin. eapply H. by apply elem_of_entries in Hin.
  - intros Hok k v Hk. rewrite commit_versions, Hok, Hk, incr_no_wrap by done.
    apply last_snoc.
Qed.

Lemma commit_checks_newest_version_witness :
  (commit Scenario.stale_update Scenario.two_accounts).1 = true ∧
  last (default [] (versionedData
          (commit Scenario.stale_update Scenario.two_accounts).2 !! 1))
  = Some (1, 1%Z).
Proof.
  assert (stamped_by_clock Scenario.two_accounts) as Hst.
  { apply (performs_clock
             [CreateAccount 1 10000%Z; CreateAccount 2 20000%Z] initial);
      [by vm_compute|apply initial_stamped]. }
  assert (globalClock Scenario.two_accounts + 1 < 2 ^ 32) as Hno
    by by vm_compute.
  split; [by vm_compute|].
  apply (proj2 (commit_checks_newest_version Scenario.stale_update
                  Scenario.two_accounts Hst Hno)); by vm_compute.
Defined.

(** X8. First committer wins, on a system in which no version carries a
    timestamp beyond the clock and whose clock stays below 2^32 - 2: when a
    transaction has read an account at a version no newer than the clock, and
    another transaction then commits a write to that account, the commit of
    the first one fails. *)
Theorem first_committer_wins {Balance : Type}
    (tx other : Transaction Balance) sys k b rv v :
  stamped_by_clock sys → globalClock sys + 2 < 2 ^ 32 →
  readSet tx !! k = Some (b, rv) → rv ≤ globalClock sys →
  writeSet other !! k = Some v →
  (commit other sys).1 = true →
  (commit tx (commit other sys).2).1 = false.
Proof.
  intros Hst Hno Hread Hrv Hwrite Hok.
  assert (globalClock sys + 1 < 2 ^ 32) as Hno1 by lia.
  pose proof (commit_stamped other sys Hno1 Hst) as Hst'.
  pose proof (commit_clock other sys) as Hclock.
  rewrite incr_no_wrap in Hclock by done.
  apply not_true_is_false. intros Hyes.
  rewrite commit_validated, financial_validate_true in Hyes.
  2:{ apply stamped_older; [done|]. rewrite Hclock. lia. }
  assert (globalClock sys + 1 ≤ rv) as Hle; [|lia].
  apply (Hyes k b rv (globalClock sys + 1) v).
  - by apply elem_of_entries.
  - rewrite commit_versions, Hok, Hwrite, incr_no_wrap by done.
    apply last_snoc.
Qed.

Lemma first_committer_wins_witness :
  (commit Scenario.stale_update
     (commit (Scenario.deposit 7) Scenario.two_accounts).2).1 = false.
Proof.
  apply (first_committer_wins Scenario.stale_update (Scenario.deposit 7)
           Scenario.two_accounts 1 10000%Z 0 7%Z).
  - apply (performs_clock
             [CreateAccount 1 10000%Z; CreateAccount 2 20000%Z] initial);
      [by vm_compute|apply initial_stamped].
  - by vm_compute.
  - by vm_compute.
  - by vm_compute.
  - by vm_compute.
  - by vm_compute.
Defined.

(** ** The financial engine: a worker without other threads *)

(** A transaction that starts at or after every timestamp of a vector reads
    its last version, whatever the order of the vector. *)
Lemma readBalance_latest {Balance : Type} (sys : System Balance) tx k versions :
  writeSet tx !! k = None →
  versionedData sys !! k = Some versions →
  Forall (λ a, a.1 ≤ startTimestamp tx) versions →
  readBalance sys tx k =
  match last versions with
  | Some (ts, value) =>
      (Returns value,
       {| readSet := <[k := (value, ts)]> (readSet tx);
          writeSet := writeSet tx;
          startTimestamp := startTimestamp tx |})
  | None =>
      (Throws (runtime_error ("No valid version found for account " +:+ pretty k)),
       tx)
  end.
Proof.
  intros Hw Hk Hall. apply (readBalance_split sys tx k versions []); try done.
  by rewrite app_nil_r.
Qed.

Lemma validate_at_zero {Balance : Type} (rs : list (N * (Balance * N))) vd :
  (validate 0 rs vd).1 = true.
Proof.
  revert vd. induction rs as [|[k [b rv]] rs IH]; intros vd; [done|].
  cbn [validate]. destruct (subscript vd k) as [versions vd'].
  rewrite (lower_bound_none (older_than 0)); [apply IH|].
  apply Forall_forall. intros a _. unfold older_than.
  apply bool_decide_eq_false. lia.
Qed.

Lemma financial_run_quiet {Balance : Type} (logic : Logic Balance) tx
    (sys : System Balance) r tx' sys' sched' :
  stamped_by_clock sys → startTimestamp tx = globalClock sys →
  run logic tx sys [] = (r, tx', sys', sched') →
  reads_current (readSet tx) (versionedData sys) →
  sys' = sys ∧ sched' = [] ∧
  reads_current (readSet tx') (versionedData sys).
Proof.
  intros Hst. revert tx.
  induction logic as [|e|k cont IH|k value cont IH]; intros tx Hstart Hrun Hcur;
    simpl in Hrun.
  - by injection Hrun as <- <- <- <-.
  - by injection Hrun as <- <- <- <-.
  - change (interfered sys []) with sys in Hrun.
    destruct (writeSet tx !! k) as [buffered|] eqn:Hw.
    { unfold readBalance in Hrun. rewrite Hw in Hrun. by apply IH in Hrun. }
    destruct (versionedData sys !! k) as [versions|] eqn:Hk.
    + rewrite (readBalance_latest sys tx k versions) in Hrun; try done.
      2:{ rewrite Hstart. by eapply Hst. }
      destruct (last versions) as [[ts value]|] eqn:Hlast.
      * apply IH in Hrun; [done|done|]. simpl.
        intros j b rv ts' v'. destruct (decide (k = j)) as [<-|Hne].
        -- rewrite lookup_insert_eq, Hk. simpl. rewrite Hlast.
           intros [= <- <-] [= <- <-]. lia.
        -- rewrite lookup_insert_ne by done. apply Hcur.
      * by injection Hrun as <- <- <- <-.
    + unfold readBalance in Hrun. rewrite Hw, Hk in Hrun.
      by injection Hrun as <- <- <- <-.
  - by apply IH in Hrun.
Qed.

Lemma financial_attempt_quiet {Balance : Type} (logic : Logic Balance)
    (sys : System Balance) :
  stamped_by_clock sys → globalClock sys < 2 ^ 32 →
  ∃ r tx,
    run logic (new_transaction sys) sys [] = (r, tx, sys, []) ∧
    match r with
    | Returns _ =>
        attempt logic sys [] =
        (Committed,
         {| versionedData :=
              foldl (publish (incr (globalClock sys))) (versionedData sys)
                (entries (writeSet tx));
            globalClock := incr (globalClock sys) |}, [])
    | Throws e => attempt logic sys [] = (Threw e, sys, [])
    end.
Proof.
  intros Hst Hbound. unfold attempt.
  destruct (run logic (new_transaction sys) sys []) as [[[r tx] sys1] sched1]
    eqn:Hrun.
  pose proof Hrun as Hknown.
  apply financial_run_elapsed in Hknown as [Hknown _].
  2:{ intros j [x Hj]. simpl in Hj. by rewrite lookup_empty in Hj. }
  apply financial_run_quiet in Hrun as (-> & -> & Hcur); try done.
  exists r, tx. split; [done|]. destruct r as [[]|e]; [|done].
  change (interfered sys []) with sys.
  assert ((commit tx sys).1 = true) as Hok.
  { rewrite commit_validated.
    destruct (decide (globalClock sys + 1 < 2 ^ 32)) as [Hno|Hwrap].
    - apply financial_validate_true; [by apply stamped_older|].
      intros k b rv ts v Hin. apply elem_of_entries in Hin. by eapply Hcur.
    - assert (incr (globalClock sys) = 0) as ->; [|apply validate_at_zero].
      unfold incr. assert (globalClock sys + 1 = 2 ^ 32) as -> by lia.
      done. }
  unfold commit in *.
  pose proof (validate_known (incr (globalClock sys)) (entries (readSet tx))
                (versionedData sys)) as Hsame.
  destruct (validate _ _ _) as [[] vd]; [|done]. simpl in Hsame.
  rewrite Hsame; [done|].
  intros k Hin. apply list_elem_of_fmap in Hin as ([k' x] & -> & Hin).
  apply elem_of_entries in Hin. apply Hknown. by exists x.
Qed.

Lemma financial_loop_commits {Balance : Type} remaining
    (logic : Logic Balance) (sys sys' : System Balance) sched' past out :
  attempt logic sys [] = (Committed, sys', sched') →
  attempts_loop (S remaining) logic sys [] past out =
  {| success := true; final := sys'; unused := sched';
     attempts := past ++ [Committed]; console := out |}.
Proof. intros Hcommitted. cbn [attempts_loop]. by rewrite Hcommitted. Qed.

Lemma financial_loop_throws {Balance : Type} remaining (logic : Logic Balance)
    (sys : System Balance) e past out :
  attempt logic sys [] = (Threw e, sys, []) →
  attempts_loop remaining logic sys [] past out =
  {| success := false; final := sys; unused := [];
     attempts := past ++ replicate remaining (Threw e);
     console := out ++ replicate remaining ("Transaction error: " +:+ what e) |}.
Proof.
  intros Hthrew. revert past out.
  induction remaining as [|remaining IH]; intros past out.
  { simpl. by rewrite !app_nil_r. }
  cbn [attempts_loop]. rewrite Hthrew, IH.
  by rewrite <- !app_assoc.
Qed.



(** ** The financial engine: reports, the order of versions, the counter *)

(** X10. [printAccountBalance] prints the balance an account was last given:
    the balance written by the last successful commit that wrote the account,
    or the balance of the last [createAccount]; for an account without a
    version it prints that the account was not found. *)
Theorem printAccountBalance_shows_last_write {Balance : Type}
    (show : Balance → string) (sys : System Balance) k :
  (∀ tx v, (commit tx sys).1 = true → writeSet tx !! k = Some v →
     printAccountBalance show k (commit tx sys).2
     = "Account " +:+ pretty k +:+ " balance: " +:+ show v)
  ∧ (∀ b, printAccountBalance show k (createAccount k b sys).2
          = "Account " +:+ pretty k +:+ " balance: " +:+ show b)
  ∧ (∀ tx, default [] (versionedData sys !! k) = [] →
       writeSet tx !! k = None →
       printAccountBalance show k (commit tx sys).2
       = "Account " +:+ pretty k +:+ " not found or empty").
Proof.
  split; [|split].
  - intros tx v Hok Hk. pose proof (commit_versions tx sys k) as Hver.
    rewrite Hok, Hk in Hver. unfold printAccountBalance.
    destruct (versionedData (commit tx sys).2 !! k) as [versions|]; simpl in Hver.
    + by rewrite Hver, last_snoc.
    + by destruct (default [] (versionedData sys !! k)).
  - intros b. unfold printAccountBalance, createAccount, emplace_back; simpl.
    by rewrite lookup_insert_eq, last_snoc.
  - intros tx Hempty Hk. pose proof (commit_versions tx sys k) as Hver.
    rewrite Hempty, Hk in Hver. unfold printAccountBalance.
    destruct (versionedData (commit tx sys).2 !! k) as [versions|]; [|done].
    simpl in Hver. destruct (commit tx sys).1; by rewrite Hver.
Qed.

(** X11. As long as [createAccount] is called for new accounts only, and
    fewer than 2^32 commits are made, every vector of versions stays
    strictly ascending in its timestamps, and no timestamp exceeds the
    clock. *)
Theorem fresh_accounts_keep_order {Balance : Type}
    (ops : list (Operation Balance)) (sys : System Balance) :
  creates_fresh sys ops →
  globalClock sys + N.of_nat (commits ops) < 2 ^ 32 →
  stamped_by_clock sys →
  (∀ k versions, versionedData sys !! k = Some versions →
     strictly_ascending versions) →
  stamped_by_clock (foldl perform sys ops) ∧
  ∀ k versions, versionedData (foldl perform sys ops) !! k = Some versions →
    strictly_ascending versions.
Proof.
  revert sys. induction ops as [|op ops IH]; intros sys Hfresh Hno Hst Hord.
  { done. }
  destruct Hfresh as [Hop Hfresh]. cbn [foldl].
  destruct op as [accountId initialBalance|tx].
  - cbn [commits] in Hno. apply IH; try done; cbn [perform].
    + by apply createAccount_stamped.
    + rewrite createAccount_fresh by done. simpl.
      intros k versions. destruct (decide (accountId = k)) as [<-|Hne].
      * rewrite lookup_insert_eq. intros [= <-].
        unfold strictly_ascending. simpl. repeat constructor.
      * rewrite lookup_insert_ne by done. apply Hord.
  - cbn [commits] in Hno.
    assert (globalClock sys + 1 < 2 ^ 32) as Hno1 by lia.
    apply IH; try done; cbn [perform].
    + rewrite commit_clock, incr_no_wrap by done. lia.
    + by apply commit_stamped.
    + by apply commit_keeps_order.
Qed.

Lemma fresh_accounts_keep_order_witness :
  versionedData Scenario.history !! 1
  = Some [(1, 0%Z); (2, 1%Z); (3, 2%Z); (4, 3%Z)] ∧
  strictly_ascending [(1, 0%Z); (2, 1%Z); (3, 2%Z); (4, 3%Z)].
Proof.
  split; [by vm_compute|].
  apply (proj2 (fresh_accounts_keep_order
                  [Commit (Scenario.deposit 0); Commit (Scenario.deposit 1);
                   Commit (Scenario.deposit 2); Commit (Scenario.deposit 3)]
                  initial
                  ltac:(by vm_compute) ltac:(by vm_compute) initial_stamped
                  ltac:(intros k versions Hk; simpl in Hk;
                        by rewrite lookup_empty in Hk)) 1).
  by vm_compute.
Defined.

Lemma extract_length {Balance : Type} (q : list (TransactionInfo Balance))
    x rest :
  extract q = Some (x, rest) → length q = S (length rest).
Proof.
  intros Hq. apply extract_top in Hq as [Hperm _].
  by rewrite Hperm.
Qed.

Lemma wrap_int_add a b : wrap_int (wrap_int a + b) = wrap_int (a + b).
Proof.
  unfold wrap_int. f_equal.
  replace ((a + 2 ^ 31) mod 2 ^ 32 - 2 ^ 31 + b + 2 ^ 31)%Z
    with ((a + 2 ^ 31) mod 2 ^ 32 + b)%Z by lia.
  rewrite Z.add_mod_idemp_l by lia. f_equal. lia.
Qed.

Lemma wrap_int_sub a b : wrap_int (wrap_int a - b) = wrap_int (a - b).
Proof. apply (wrap_int_add a (- b)). Qed.

Lemma wrap_int_small z : (- 2 ^ 31 ≤ z < 2 ^ 31)%Z → wrap_int z = z.
Proof. intros Hz. unfold wrap_int. rewrite Z.mod_small by lia. lia. Qed.

Lemma step_counts {Balance : Type} (s : Scheduler Balance) sys st :
  activeTransactions s = wrap_int (Z.of_nat (length (transactionQueue s))) →
  activeTransactions (step s sys st).1
  = wrap_int (Z.of_nat (length (transactionQueue (step s sys st).1))).
Proof.
  intros Hs. destruct st as [l p d now|]; simpl.
  - rewrite Hs, wrap_int_add. f_equal. lia.
  - unfold workerFunction, dequeue.
    destruct (shutdownFlag s); [done|].
    destruct (extract (transactionQueue s)) as [[x rest]|] eqn:Hq; [|done].
    simpl. apply extract_length in Hq.
    rewrite Hs, Hq, wrap_int_sub. f_equal. lia.
Qed.

(** X12. When submissions and the iterations of a worker alternate, the
    [int] counter [activeTransactions] is, after every step from the idle
    scheduler on, the number of queued descriptors wrapped into the range of
    [int]; so while fewer than 2^31 descriptors are queued it equals that
    number, and [waitForCompletion] returns exactly when the queue is
    empty. *)
Theorem active_transactions_counts_queue {Balance : Type}
    (sts : list (@Step Balance)) (sys : System Balance) :
  let s := (steps idle sys sts).1 in
  activeTransactions s = wrap_int (Z.of_nat (length (transactionQueue s))) ∧
  ((Z.of_nat (length (transactionQueue s)) < 2 ^ 31)%Z →
   activeTransactions s = Z.of_nat (length (transactionQueue s)) ∧
   (waitForCompletion_returns s = true ↔ transactionQueue s = [])).
Proof.
  assert (∀ s0 : Scheduler Balance,
            activeTransactions s0
            = wrap_int (Z.of_nat (length (transactionQueue s0))) →
            activeTransactions (steps s0 sys sts).1
            = wrap_int (Z.of_nat (length (transactionQueue (steps s0 sys sts).1))))
    as Hcount.
  { revert sys. induction sts as [|st sts IH]; intros sys s0 Hs0; [done|].
    unfold steps. cbn [foldl fst snd].
    destruct (step s0 sys st) as [s1 sys1] eqn:Hstep.
    apply (IH sys1 s1).
    pose proof (step_counts s0 sys st Hs0) as H1. by rewrite Hstep in H1. }
  cbv zeta. specialize (Hcount idle eq_refl). split; [done|].
  intros Hfew. rewrite wrap_int_small in Hcount by lia. split; [done|].
  unfold waitForCompletion_returns. rewrite Hcount.
  destruct (transactionQueue (steps idle sys sts).1) as [|x q].
  - done.
  - rewrite bool_decide_eq_true_2 by (cbn [length]; lia). done.
Qed.

(** The counter of a scheduler that holds 2^31 descriptors has wrapped to
    the least [int]: [waitForCompletion] would return. *)
Example counter_wraps {Balance : Type} (s : Scheduler Balance) :
  activeTransactions s = (2 ^ 31 - 1)%Z →
  activeTransactions (scheduleTransaction Return 0 "" 0 s) = (- 2 ^ 31)%Z ∧
  waitForCompletion_returns (scheduleTransaction Return 0 "" 0 s) = true.
Proof.
  intros Hs. unfold waitForCompletion_returns. simpl. rewrite Hs. done.
Qed.

(** ** The transactions of the workload *)

(** X13. On a system in which no version carries a timestamp beyond the
    clock, the clock being a 32-bit value, a bank transfer run by a worker
    without other threads, between accounts whose last versions hold [a] and
    [b]: when [a >= amount] it commits at once, the receiving account gets
    the version [b + amount] and, when the two accounts differ, the paying
    account the version [a - amount], both stamped with the next clock value
    (a transfer from an account to itself thus leaves it credited and not
    debited); otherwise it fails after ten attempts and leaves the system as
    it was. *)
Theorem transfer_moves_funds {Balance : Type} (ge : Balance → Balance → bool)
    (add sub : Balance → Balance → Balance) fromAccountId toAccountId amount
    now (sys : System Balance) vf tf a vt tt' b :
  stamped_by_clock sys → globalClock sys < 2 ^ 32 →
  versionedData sys !! fromAccountId = Some vf → last vf = Some (tf, a) →
  versionedData sys !! toAccountId = Some vt → last vt = Some (tt', b) →
  ∃ ex,
    workerFunction
      (Workload.transferFunds ge add sub fromAccountId toAccountId amount now
         idle) sys []
    = Some (ex, idle) ∧
    if ge a amount
    then
      success ex = true ∧ attempts ex = [Committed] ∧
      console ex = ["Transaction succeeded: Bank transfer"] ∧
      globalClock (final ex) = incr (globalClock sys) ∧
      versionedData (final ex) !! toAccountId
        = Some (vt ++ [(incr (globalClock sys), add b amount)]) ∧
      (fromAccountId ≠ toAccountId →
       versionedData (final ex) !! fromAccountId
         = Some (vf ++ [(incr (globalClock sys), sub a amount)])) ∧
      (∀ k, k ≠ fromAccountId → k ≠ toAccountId →
         versionedData (final ex) !! k = versionedData sys !! k)
    else
      success ex = false ∧ final ex = sys ∧
      console ex =
        replicate 10 "Transaction error: Insufficient funds for transfer" ++
        ["Transaction failed after 10 attempts: Bank transfer"].
Proof.
  intros Hst Hbound Hfrom Hlf Hto Hlt.
  assert (run (Workload.transfer ge add sub fromAccountId toAccountId amount)
            (new_transaction sys) sys [] =
          if ge a amount
          then (Returns tt,
                {| readSet := <[toAccountId := (b, tt')]>
                                (<[fromAccountId := (a, tf)]> ∅);
                   writeSet := <[toAccountId := add b amount]>
                                 (<[fromAccountId := sub a amount]> ∅);
                   startTimestamp := globalClock sys |}, sys, [])
          else (Throws (runtime_error "Insufficient funds for transfer"),
                {| readSet := <[toAccountId := (b, tt')]>
                                (<[fromAccountId := (a, tf)]> ∅);
                   writeSet := ∅;
                   startTimestamp := globalClock sys |}, sys, [])) as Hrun.
  { unfold Workload.transfer. cbn [run tl].
    change (interfered sys []) with sys.
    rewrite (readBalance_latest sys (new_transaction sys) fromAccountId vf);
      [|done|done|by eapply Hst].
    rewrite Hlf. cbn [run tl]. change (interfered sys []) with sys.
    rewrite (readBalance_latest sys _ toAccountId vt);
      [|done|done|by eapply Hst].
    rewrite Hlt. by destruct (ge a amount). }
  destruct (financial_attempt_quiet
              (Workload.transfer ge add sub fromAccountId toAccountId amount)
              sys Hst Hbound) as (r & tx & Hrun' & Hattempt).
  rewrite Hrun in Hrun'. eexists. split; [reflexivity|].
  unfold process, maxAttempts. cbn [logic description].
  destruct (ge a amount).
  - injection Hrun' as <- <-.
    rewrite (financial_loop_commits 9 _ _ _ _ [] [] Hattempt).
    cbn [success attempts console final globalClock versionedData writeSet].
    split; [done|]. split; [done|]. split; [done|]. split; [done|].
    split; [|split].
    + by rewrite financial_published, lookup_insert_eq, Hto.
    + intros Hne. rewrite financial_published, lookup_insert_ne by done.
      by rewrite lookup_insert_eq, Hfrom.
    + intros k Hk1 Hk2. rewrite financial_published.
      by rewrite !lookup_insert_ne, lookup_empty by done.
  - injection Hrun' as <- <-.
    rewrite (financial_loop_throws 10 _ _
               (runtime_error "Insufficient funds for transfer")) by done.
    done.
Qed.

Lemma transfer_moves_funds_witness :
  ∃ ex,
    workerFunction
      (Workload.transferFunds Workload.covers Z.add Z.sub 2 3 1000%Z 0 idle)
      Workload.accounts_of_main []
    = Some (ex, idle) ∧
    success ex = true ∧
    versionedData (final ex) !! 3 = Some [(0, 30000%Z); (1, 31000%Z)] ∧
    versionedData (final ex) !! 2 = Some [(0, 20000%Z); (1, 19000%Z)].
Proof.
  destruct (transfer_moves_funds Workload.covers Z.add Z.sub 2 3 1000%Z 0%Z
              Workload.accounts_of_main [(0, 20000%Z)] 0 20000%Z
              [(0, 30000%Z)] 0 30000%Z) as (ex & Hex & Hok & _ & _ & _ & Hto & Hfrom & _).
  - apply (performs_clock
             [CreateAccount 1 10000%Z; CreateAccount 2 20000%Z;
              CreateAccount 3 30000%Z; CreateAccount 1000001 100%Z;
              CreateAccount 2000002 200%Z] initial);
      [by vm_compute|apply initial_stamped].
  - by vm_compute.
  - by vm_compute.
  - by vm_compute.
  - by vm_compute.
  - by vm_compute.
  - exists ex. split; [exact Hex|]. split; [exact Hok|].
    split; [exact Hto|]. by apply Hfrom.
Defined.

Lemma readBalance_returns {Balance : Type} (sys : System Balance) tx k v tx' :
  readBalance sys tx k = (Returns v, tx') →
  (is_Some (writeSet tx !! k) ∨ is_Some (versionedData sys !! k)) ∧
  writeSet tx' = writeSet tx.
Proof.
  unfold readBalance. destruct (writeSet tx !! k) as [buffered|] eqn:Hw.
  { intros [= <- <-]. split; [left; by eexists|done]. }
  destruct (versionedData sys !! k) as [versions|]; [|done].
  destruct (reverse versions !! _) as [[first second]|]; [|done].
  intros [= <- <-]. split; [right; by eexists|done].
Qed.

(** X14. The crypto trade reads the wallets [buyerAccountId + 1000000] and
    [sellerAccountId + 2000000]: when one of the two has no account, every
    attempt of the trade ends in an exception, whatever the balances are, and
    a worker without other threads gives up after ten attempts and leaves the
    system as it was. *)
Theorem crypto_trade_needs_wallets {Balance : Type}
    (ge : Balance → Balance → bool) (add sub : Balance → Balance → Balance)
    buyerAccountId sellerAccountId cryptoAmount fiatAmount now
    (sys : System Balance) :
  stamped_by_clock sys → globalClock sys < 2 ^ 32 →
  versionedData sys !! Workload.buyerCryptoWalletId buyerAccountId = None
  ∨ versionedData sys !! Workload.sellerFiatWalletId sellerAccountId = None →
  ∃ ex e,
    workerFunction
      (Workload.executeCryptoTrade ge add sub buyerAccountId sellerAccountId
         cryptoAmount fiatAmount now idle) sys []
    = Some (ex, idle) ∧
    success ex = false ∧ final ex = sys ∧
    attempts ex = replicate 10 (Threw e).
Proof.
  intros Hst Hbound Hmissing.
  destruct (financial_attempt_quiet
              (Workload.cryptoTrade ge add sub buyerAccountId sellerAccountId
                 cryptoAmount fiatAmount) sys Hst Hbound)
    as (r & tx & Hrun & Hattempt).
  destruct r as [[]|e].
  - exfalso. clear Hattempt. unfold Workload.cryptoTrade in Hrun.
    cbn [run tl] in Hrun. change (interfered sys []) with sys in Hrun.
    destruct (readBalance sys (new_transaction sys) buyerAccountId)
      as [[v1|e1] tx1] eqn:H1; [|done].
    apply readBalance_returns in H1 as [[[x Hx]|Hbuyer] Hw1];
      [simpl in Hx; by rewrite lookup_empty in Hx|].
    cbn [run tl] in Hrun. change (interfered sys []) with sys in Hrun.
    destruct (readBalance sys tx1 sellerAccountId) as [[v2|e2] tx2] eqn:H2;
      [|done].
    apply readBalance_returns in H2 as [[[x Hx]|Hseller] Hw2];
      [rewrite Hw1 in Hx; simpl in Hx; by rewrite lookup_empty in Hx|].
    destruct (ge v1 fiatAmount && ge v2 cryptoAmount); [|done].
    cbn [run tl] in Hrun. change (interfered sys []) with sys in Hrun.
    match type of Hrun with
    | context [readBalance sys ?t (Workload.buyerCryptoWalletId _)] =>
        destruct (readBalance sys t (Workload.buyerCryptoWalletId buyerAccountId))
          as [[v3|e3] tx3] eqn:H3; [|done]
    end.
    apply readBalance_returns in H3 as [Hwallet1 Hw3].
    assert (is_Some (versionedData sys
                       !! Workload.buyerCryptoWalletId buyerAccountId)) as Hb.
    { destruct Hwallet1 as [[x Hx]|?]; [|done]. simpl in Hx.
      rewrite Hw2, Hw1 in Hx.
      destruct (decide (sellerAccountId
                        = Workload.buyerCryptoWalletId buyerAccountId))
        as [<-|Hne1]; [done|].
      rewrite lookup_insert_ne in Hx by done.
      destruct (decide (buyerAccountId
                        = Workload.buyerCryptoWalletId buyerAccountId))
        as [<-|Hne2]; [done|].
      rewrite lookup_insert_ne in Hx by done.
      simpl in Hx. by rewrite lookup_empty in Hx. }
    cbn [run tl] in Hrun. change (interfered sys []) with sys in Hrun.
    destruct (readBalance sys tx3 (Workload.sellerFiatWalletId sellerAccountId))
      as [[v4|e4] tx4] eqn:H4; [|done].
    apply readBalance_returns in H4 as [Hwallet2 _].
    assert (is_Some (versionedData sys
                       !! Workload.sellerFiatWalletId sellerAccountId)) as Hs.
    { destruct Hwallet2 as [[x Hx]|?]; [|done].
      rewrite Hw3 in Hx. simpl in Hx. rewrite Hw2, Hw1 in Hx.
      destruct (decide (sellerAccountId
                        = Workload.sellerFiatWalletId sellerAccountId))
        as [<-|Hne1]; [done|].
      rewrite lookup_insert_ne in Hx by done.
      destruct (decide (buyerAccountId
                        = Workload.sellerFiatWalletId sellerAccountId))
        as [<-|Hne2]; [done|].
      rewrite lookup_insert_ne in Hx by done.
      simpl in Hx. by rewrite lookup_empty in Hx. }
    destruct Hmissing as [Hnone|Hnone]; rewrite Hnone in *;
      by eapply is_Some_None.
  - eexists _, e. split; [reflexivity|].
    unfold process, maxAttempts. cbn [logic description].
    rewrite (financial_loop_throws 10 _ _ e) by done. done.
Qed.

Lemma crypto_trade_needs_wallets_witness :
  ∃ ex e,
    workerFunction
      (Workload.executeCryptoTrade Workload.covers Z.add Z.sub 2 1 50%Z 5000%Z
         0 idle) Workload.accounts_of_main []
    = Some (ex, idle) ∧
    success ex = false ∧ final ex = Workload.accounts_of_main ∧
    attempts ex = replicate 10 (Threw e).
Proof.
  apply (crypto_trade_needs_wallets Workload.covers Z.add Z.sub 2 1 50%Z
           5000%Z 0%Z Workload.accounts_of_main).
  - apply (performs_clock
             [CreateAccount 1 10000%Z; CreateAccount 2 20000%Z;
              CreateAccount 3 30000%Z; CreateAccount 1000001 100%Z;
              CreateAccount 2000002 200%Z] initial);
      [by vm_compute|apply initial_stamped].
  - by vm_compute.
  - left. by vm_compute.
Defined.

(** The three transactions of [main], in the order in which one worker
    takes them when all are queued before it starts: the two of priority 10
    in the order of their submission, then the transfer. *)
Example workload_of_main :
  let queued :=
    Workload.executeCryptoTrade Workload.covers Z.add Z.sub 1 2 50%Z 5000%Z 2
      (Workload.transferFunds Workload.covers Z.add Z.sub 2 3 1000%Z 1
         (Workload.executeTrade Workload.covers Z.add Z.sub 1 2 5000%Z 0
            idle)) in
  let '(s, sys) := steps queued Workload.accounts_of_main [Work; Work; Work] in
  description <$> drain 3 (transactionQueue queued)
    = ["Stock trade"; "Crypto trade"; "Bank transfer"] ∧
  waitForCompletion_returns s = true ∧
  (λ k, snd <$> (versionedData sys !! k ≫= last)) <$> [1; 2; 3; 1000001; 2000002]
  = [Some 0%Z; Some 23950%Z; Some 31000%Z; Some 150%Z; Some 5200%Z].
Proof. by vm_compute. Qed.

(** ** The hybrid engine: the simulated hardware path and the fallback *)

Lemma hybrid_run_mode logic tx (sys : Hybrid.System) sched :
  Hybrid.isHTM (Hybrid.run logic tx sys sched).1.1.2 = Hybrid.isHTM tx.
Proof.
  revert tx sys sched.
  induction logic as [|e|location k IH|location value k IH];
    intros tx sys sched; simpl; try done.
  - unfold Hybrid.fetch.
    destruct (Hybrid.writeBuffer tx !! location) as [buffered|]; [apply IH|].
    destruct (Hybrid.dataStore _ !! location) as [cell|]; [|done].
    destruct (Hybrid.isHTM tx) eqn:Hmode; simpl; by rewrite IH.
  - by rewrite IH.
Qed.

Lemma hybrid_interfered_elapsed (sys : Hybrid.System) sched n :
  Hybrid.interfered (elapsed Hybrid.perform sys sched n) (drop n sched)
  = elapsed Hybrid.perform sys sched (n + 1).
Proof.
  rewrite <- (elapsed_add Hybrid.perform sys sched n 1).
  unfold Hybrid.interfered, elapsed.
  by destruct (drop n sched).
Qed.

(** X15. An attempt on the simulated hardware path validates nothing: how
    it ends depends on the random draw alone.  When the closure returns, the
    attempt commits if the draw is below 0.9, whatever the other threads did
    to the cells it read, and fails otherwise, leaving in the system only
    what the other threads did. *)
Theorem htm_attempt_follows_draw logic (sys : Hybrid.System) sched draw :
  (∀ sys' sched',
     Hybrid.attempt true logic sys sched draw = (Committed, sys', sched') →
     (draw < 9 # 10)%Q)
  ∧ (∀ sys' sched',
       Hybrid.attempt true logic sys sched draw = (Conflict, sys', sched') →
       (9 # 10 <= draw)%Q ∧
       ∃ n, sys' = elapsed Hybrid.perform sys sched n ∧ sched' = drop n sched)
  ∧ (∀ tx sys1 sched1,
       Hybrid.run logic (Hybrid.new_transaction true) sys sched
       = (Returns tt, tx, sys1, sched1) →
       (draw < 9 # 10)%Q →
       Hybrid.attempt true logic sys sched draw
       = (Committed,
          {| Hybrid.dataStore :=
               foldl Hybrid.publish
                 (Hybrid.dataStore (Hybrid.interfered sys1 sched1))
                 (entries (Hybrid.writeBuffer tx));
             Hybrid.useHTM := Hybrid.useHTM (Hybrid.interfered sys1 sched1) |},
          tl sched1)).
Proof.
  unfold Hybrid.attempt.
  pose proof (hybrid_run_mode logic (Hybrid.new_transaction true) sys sched)
    as Hmode.
  destruct (Hybrid.run logic (Hybrid.new_transaction true) sys sched)
    as [[[r tx] sys1] sched1] eqn:Hrun.
  simpl in Hmode. apply hybrid_run_elapsed in Hrun as (n & -> & ->).
  unfold Hybrid.finalize, Hybrid.finalizeHTM. rewrite Hmode.
  destruct r as [[]|e].
  - destruct (Qlt_le_dec draw (9 # 10)) as [Hlt|Hge].
    + split; [done|]. split; [done|]. by intros tx' sys1' sched1' [= <- <- <-].
    + split; [done|]. split.
      * intros sys' sched' [= <- <-]. split; [done|]. exists (n + 1)%nat.
        rewrite hybrid_interfered_elapsed.
        split; [by destruct (elapsed _ _ _ _)|].
        replace (tl (drop n sched)) with (drop 1 (drop n sched))
          by by destruct (drop n sched).
        by rewrite drop_drop.
      * intros tx' sys1' sched1' _ Hlt.
        exfalso. by eapply Qlt_not_le.
  - done.
Qed.








(** ** From a commit to the next read *)

Lemma hybrid_publish_upsert ds e :
  Hybrid.publish ds e = upsert Hybrid.written ds e.
Proof.
  destruct e as [loc v]. unfold Hybrid.publish, upsert; simpl.
  by destruct (ds !! loc).
Qed.

Lemma hybrid_published (w : gmap N Z) (ds : gmap N Hybrid.DataCell) k :
  foldl Hybrid.publish ds (entries w) !! k =
  match w !! k with
  | Some v => Some (Hybrid.written (ds !! k) v)
  | None => ds !! k
  end.
Proof.
  rewrite <- (foldl_upsert_entries Hybrid.written w ds k).
  f_equal. apply foldl_pointwise, hybrid_publish_upsert.
Qed.

(** X17. In the three engines that count modifications, a value published
    by a successful commit is the value that a new transaction fetches from
    the location, on the software and on the hardware path; a location the
    commit did not write is fetched as before. *)
Theorem committed_value_is_fetched k :
  (∀ tx (ds : gmap N STM.DataCell),
     (STM.finalizeTransaction tx ds).1 = true →
     (STM.fetch (STM.finalizeTransaction tx ds).2 STM.new_transaction k).1 =
     match STM.writeBuffer tx !! k with
     | Some v => Returns v
     | None => (STM.fetch ds STM.new_transaction k).1
     end)
  ∧ (∀ tx (ds : gmap N Advanced.DataCell) speculative,
       (Advanced.commit tx ds).1 = true →
       (Advanced.read (Advanced.commit tx ds).2
          (Advanced.new_transaction speculative) k).1 =
       match Advanced.writeSet tx !! k with
       | Some v => Returns v
       | None => (Advanced.read ds (Advanced.new_transaction speculative) k).1
       end)
  ∧ (∀ tx (ds : gmap N Hybrid.DataCell) draw htm,
       (Hybrid.finalize tx ds draw).1 = true →
       (Hybrid.fetch (Hybrid.finalize tx ds draw).2
          (Hybrid.new_transaction htm) k).1 =
       match Hybrid.writeBuffer tx !! k with
       | Some v => Returns v
       | None => (Hybrid.fetch ds (Hybrid.new_transaction htm) k).1
       end).
Proof.
  split; [|split].
  - intros tx ds. unfold STM.finalizeTransaction.
    destruct (STM.validate ds _); [intros _|done]. cbn [fst snd].
    unfold STM.fetch. cbn [STM.writeBuffer STM.new_transaction].
    rewrite lookup_empty, stm_published.
    destruct (STM.writeBuffer tx !! k) as [v|]; [|done].
    by destruct (ds !! k).
  - intros tx ds speculative. unfold Advanced.commit.
    destruct (Advanced.validate ds _); [intros _|done]. cbn [fst snd].
    unfold Advanced.read. cbn [Advanced.writeSet Advanced.new_transaction].
    rewrite lookup_empty, advanced_published.
    destruct (Advanced.writeSet tx !! k) as [v|]; [|done].
    by destruct (ds !! k).
  - intros tx ds draw htm.
    assert (∀ ds' : gmap N Hybrid.DataCell,
              ds' = foldl Hybrid.publish ds (entries (Hybrid.writeBuffer tx)) →
              (Hybrid.fetch ds' (Hybrid.new_transaction htm) k).1 =
              match Hybrid.writeBuffer tx !! k with
              | Some v => Returns v
              | None => (Hybrid.fetch ds (Hybrid.new_transaction htm) k).1
              end) as Hfetch.
    { intros ds' ->. unfold Hybrid.fetch.
      cbn [Hybrid.writeBuffer Hybrid.new_transaction].
      rewrite lookup_empty, hybrid_published.
      destruct (Hybrid.writeBuffer tx !! k) as [v|]; [|done].
      destruct (ds !! k); by destruct htm. }
    unfold Hybrid.finalize, Hybrid.finalizeHTM, Hybrid.finalizeSTM.
    destruct (Hybrid.isHTM tx).
    + destruct (Qlt_le_dec draw (9 # 10)); [intros _|done]. by apply Hfetch.
    + destruct (Hybrid.validate ds _); [intros _|done]. by apply Hfetch.
Qed.

(** X18. In the financial engine a transaction that starts after a
    successful commit reads, for every account the commit wrote, the balance
    it wrote, and records the timestamp of the commit as the version read;
    the system has versions stamped up to the clock, which does not wrap. *)
Theorem committed_balance_is_read {Balance : Type}
    (tx : Transaction Balance) sys k v :
  stamped_by_clock sys → globalClock sys + 1 < 2 ^ 32 →
  (commit tx sys).1 = true → writeSet tx !! k = Some v →
  let sys' := (commit tx sys).2 in
  readBalance sys' (new_transaction sys') k =
  (Returns v,
   {| readSet := {[ k := (v, globalClock sys + 1) ]};
      writeSet := ∅;
      startTimestamp := globalClock sys + 1 |}).
Proof.
  intros Hst Hno Hok Hk. cbv zeta.
  pose proof (commit_stamped tx sys Hno Hst) as Hst'.
  pose proof (commit_clock tx sys) as Hclock.
  rewrite incr_no_wrap in Hclock by done.
  pose proof (commit_versions tx sys k) as Hver.
  rewrite Hok, Hk, incr_no_wrap in Hver by done.
  destruct (versionedData (commit tx sys).2 !! k) as [versions|] eqn:Hsome.
  2:{ simpl in Hver. by destruct (default [] (versionedData sys !! k)). }
  simpl in Hver.
  rewrite (readBalance_latest _ _ k versions); [|done|done|].
  - rewrite Hver, last_snoc. cbn [new_transaction readSet writeSet startTimestamp].
    by rewrite Hclock, insert_empty.
  - cbn [new_transaction startTimestamp]. by eapply Hst'.
Qed.

Lemma committed_balance_is_read_witness :
  let sys' := (commit (Scenario.deposit 7) Scenario.two_accounts).2 in
  readBalance sys' (new_transaction sys') 1 =
  (Returns 7%Z,
   {| readSet := {[ 1 := (7%Z, globalClock Scenario.two_accounts + 1) ]};
      writeSet := ∅;
      startTimestamp := globalClock Scenario.two_accounts + 1 |}).
Proof.
  apply (committed_balance_is_read (Scenario.deposit 7) Scenario.two_accounts
           1 7%Z).
  - apply (performs_clock
             [CreateAccount 1 10000%Z; CreateAccount 2 20000%Z] initial);
      [by vm_compute|apply initial_stamped].
  - by vm_compute.
  - by vm_compute.
  - by vm_compute.
Defined.

(** ** The scheduled engine: the task ends when the other threads stop *)

Lemma advanced_run_suffix logic tx (ds : gmap N Advanced.DataCell) sched :
  ∃ n, (Advanced.run logic tx ds sched).2 = drop n sched.
Proof.
  revert tx ds sched.
  induction logic as [|e|location k IH|location value k IH];
    intros tx ds sched; simpl.
  - by exists 0%nat.
  - by exists 0%nat.
  - destruct (Advanced.read _ tx location) as [[v|e] tx1].
    + destruct (IH v tx1 (Advanced.interfered ds sched) (tl sched)) as [n ->].
      exists (S n). apply drop_tl.
    + exists 1%nat. simpl. by destruct sched.
  - apply IH.
Qed.

Lemma advanced_conflict_takes_slot speculative logic
    (ds : gmap N Advanced.DataCell) sched ds' sched' :
  Advanced.attempt speculative logic ds sched = (Conflict, ds', sched') →
  (length sched' < length sched)%nat.
Proof.
  destruct sched as [|slot sched].
  { destruct (advanced_attempt_quiet speculative logic ds) as [[ds1 ->]|[e ->]];
      done. }
  unfold Advanced.attempt.
  destruct (advanced_run_suffix logic (Advanced.new_transaction speculative) ds
              (slot :: sched)) as [n Hn].
  destruct (Advanced.run logic (Advanced.new_transaction speculative) ds
              (slot :: sched)) as [[[r tx] ds1] sched1].
  simpl in Hn. subst sched1. destruct r as [[]|e]; [|done].
  destruct (Advanced.commit tx _) as [[] ds2]; [done|].
  intros [= <- <-].
  replace (tl (drop n (slot :: sched))) with (drop 1 (drop n (slot :: sched)))
    by by destruct (drop n (slot :: sched)).
  rewrite !length_drop. simpl. lia.
Qed.

Lemma advanced_task_ends fuel logic (ds : gmap N Advanced.DataCell) sched past :
  (length sched < fuel)%nat →
  ∃ ex failed last,
    Advanced.transaction_task fuel logic ds sched past = Some ex ∧
    Advanced.attempts ex = past ++ replicate failed Conflict ++ [last] ∧
    last ≠ Conflict ∧ (failed ≤ length sched)%nat.
Proof.
  revert ds sched past. induction fuel as [|fuel IH]; intros ds sched past Hfuel;
    [lia|].
  cbn [Advanced.transaction_task].
  destruct (Advanced.attempt false logic ds sched) as [[[| |e] ds1] sched1]
    eqn:Hattempt.
  - eexists _, 0%nat, Committed. split; [done|]. simpl.
    split; [done|]. split; [done|lia].
  - apply advanced_conflict_takes_slot in Hattempt.
    destruct (IH ds1 sched1 (past ++ [Conflict]))
      as (ex & failed & last & -> & Hatt & Hlast & Hle); [lia|].
    exists ex, (S failed), last. split; [done|].
    split; [by rewrite Hatt, <- app_assoc|]. split; [done|lia].
  - eexists _, 0%nat, (Threw e). split; [done|]. simpl.
    split; [done|]. split; [done|lia].
Qed.

(** X19. The transaction task has no attempt budget, yet it ends once the
    other threads stop: with more iterations than the schedule of the other
    threads has slots the loop is over, after conflicts no more than the
    schedule has slots, followed by the one invocation that commits or
    throws. *)
Theorem task_ends_when_others_stop logic (ds : gmap N Advanced.DataCell)
    sched (extra : nat) :
  ∃ ex failed last,
    Advanced.transaction_task (S (length sched) + extra) logic ds sched []
    = Some ex ∧
    Advanced.attempts ex = replicate failed Conflict ++ [last] ∧
    last ≠ Conflict ∧ (failed ≤ length sched)%nat.
Proof.
  destruct (advanced_task_ends (S (length sched) + extra) logic ds sched [])
    as (ex & failed & last & Hex & Hatt & Hlast & Hle); [lia|].
  by exists ex, failed, last.
Qed.
